(** * The streaming series-chunks pipeline of the store-gateway

    A shallow embedding of [pkg/storegateway/series_chunks.go] (the pooled
    chunk-set, the loading iterator, the preloading iterator and the series
    adapter) and of the memcached cache adapter of dskit, followed by the
    properties the specification states about them.

    Go values are modelled as the code has them: slices are headers
    (pointer, offset, length, capacity) over backing arrays that live in a
    store, so that a write through one header is seen through every other
    header of the same array; [sync.Pool]s are bags of slice headers whose
    [Get] is free to return any pooled item or nothing; a run-time panic is
    the absence of a result. *)

From stdpp Require Import base gmap list strings.
From Stdlib Require Import ZArith Lia.
Local Open Scope Z_scope.

(** ** Go integers

    [int] is 64 bits wide on the platforms the store-gateway runs on. *)

Definition int_wrap (x : Z) : Z := (x + 2 ^ 63) mod 2 ^ 64 - 2 ^ 63.
Definition int_add (x y : Z) : Z := int_wrap (x + y).
Definition int_sub (x y : Z) : Z := int_wrap (x - y).
Definition int_max : Z := 2 ^ 63 - 1.

(** [util_math.Max]. *)
Definition util_math_Max (a b : Z) : Z := if b <? a then a else b.

(** ** Errors

    An [error] is an interface value: [None] is Go's [nil].
    [errors.Wrap] of pkg/errors keeps the cause and returns [nil] for a
    [nil] cause. *)

Inductive errorValue : Type :=
| ErrNew (msg : string)
| ErrWrap (cause : errorValue) (msg : string).

Definition error : Type := option errorValue.

Definition errors_Wrap (e : error) (msg : string) : error :=
  match e with
  | None => None
  | Some cause => Some (ErrWrap cause msg)
  end.

Definition is_nil_error (e : error) : bool :=
  match e with None => true | Some _ => false end.

(** ** Slices and their backing arrays *)

Definition loc : Type := positive.

Record slice : Type := Slice {
  s_ptr : option loc;  (* [None]: the nil slice *)
  s_off : nat;         (* first cell of the slice in its backing array *)
  s_len : nat;
  s_cap : nat
}.

Definition nil_slice : slice := Slice None 0 0 0.

Definition is_nil_slice (s : slice) : bool :=
  match s_ptr s with None => true | Some _ => false end.

Definition len (s : slice) : Z := Z.of_nat (s_len s).
Definition cap (s : slice) : Z := Z.of_nat (s_cap s).

(** [s[:n]]: panics unless [0 <= n <= cap(s)]. *)
Definition reslice (s : slice) (n : Z) : option slice :=
  if (0 <=? n) && (n <=? cap s)
  then Some (Slice (s_ptr s) (s_off s) (Z.to_nat n) (s_cap s))
  else None.

(** [s[lo:hi:hi]] for [lo <= hi <= len(s)], the form the slab pool carves
    with: length and capacity are both [hi - lo]. *)
Definition carve (s : slice) (lo hi : nat) : slice :=
  Slice (s_ptr s) (s_off s + lo) (hi - lo) (hi - lo).

Section Heap.
Context {A : Type} (zero : A).

Definition heap_read (h : gmap loc (list A)) (s : slice) (i : nat) : A :=
  match s_ptr s with
  | Some l =>
      match h !! l with
      | Some arr => default zero (arr !! (s_off s + i)%nat)
      | None => zero
      end
  | None => zero
  end.

Definition heap_write (h : gmap loc (list A)) (s : slice) (i : nat) (v : A)
  : gmap loc (list A) :=
  match s_ptr s with
  | Some l => alter (fun arr => <[(s_off s + i)%nat := v]> arr) l h
  | None => h
  end.

(** [make([]A, n, c)]: a fresh array of [c] zero values. *)
Definition heap_make (h : gmap loc (list A)) (n c : nat)
  : slice * gmap loc (list A) :=
  let l := fresh (dom h) in
  (Slice (Some l) 0 n c, <[l := replicate c zero]> h).

(** The slice header designates cells that exist in the store. *)
Definition valid_slice (h : gmap loc (list A)) (s : slice) : Prop :=
  match s_ptr s with
  | Some l =>
      (s_len s <= s_cap s)%nat /\
      exists arr, h !! l = Some arr /\ (s_off s + s_cap s <= length arr)%nat
  | None => s_len s = 0%nat /\ s_cap s = 0%nat
  end.
End Heap.

(** ** The data model *)

Definition bytes : Type := list Byte.byte.

(** Modelled from the spec: [storepb.AggrChunk] (generated code, not in the
    sources at hand) has the two time bounds and the encoded chunk in its
    aggregation variants (raw, count, sum, min, max, counter); [Reset] zeroes
    the fields and drops the byte slices. *)
Record AggrChunk : Type := mkAggrChunk {
  MinTime : Z;
  MaxTime : Z;
  Raw : option bytes;
  Count : option bytes;
  Sum : option bytes;
  Min : option bytes;
  Max : option bytes;
  Counter : option bytes
}.

Definition zeroAggrChunk : AggrChunk :=
  mkAggrChunk 0 0 None None None None None None.

Definition AggrChunk_Reset (_ : AggrChunk) : AggrChunk := zeroAggrChunk.

Definition with_MinTime (t : Z) (c : AggrChunk) : AggrChunk :=
  mkAggrChunk t (MaxTime c) (Raw c) (Count c) (Sum c) (Min c) (Max c) (Counter c).

Definition with_MaxTime (t : Z) (c : AggrChunk) : AggrChunk :=
  mkAggrChunk (MinTime c) t (Raw c) (Count c) (Sum c) (Min c) (Max c) (Counter c).

(** A series of a chunk-set: [lset] is a [labels.Labels], that is a slice of
    labels, of which only the header matters here; [chks] is a
    [[]storepb.AggrChunk]. *)
Record seriesEntry : Type := mkSeriesEntry {
  lset : slice;
  chks : slice
}.

Definition zeroSeriesEntry : seriesEntry := mkSeriesEntry nil_slice nil_slice.

(** Modelled from the spec: [pool.SlabPool] (pkg/util/pool, not in the
    sources at hand) allocates slabs of a fixed number of slots and carves
    sub-slices out of them; [slabs] are the slabs in use, each as the header
    whose length is the number of slots already handed out. *)
Record SlabPool : Type := mkSlabPool {
  slabSize : Z;
  slabs : list slice
}.

(** A [chunksReleaser] is an object with a [Release] method; the loader
    attaches a [*pool.BatchBytes], known here by its identity. *)
Definition releaser : Type := positive.

Record seriesChunksSet : Type := mkSeriesChunksSet {
  series : slice;
  seriesReleasable : bool;
  seriesChunksPool : option SlabPool;  (* [None]: not yet initialised *)
  chunksReleaser : option releaser
}.

Definition zeroSeriesChunksSet : seriesChunksSet :=
  mkSeriesChunksSet nil_slice false None None.

(** A chunk reference and the sets of references the loader consumes
    (declared in series_refs.go; the fields are those [Next] reads). *)
Record seriesChunkRef : Type := mkSeriesChunkRef {
  blockID : string;
  ref : Z;
  minTime : Z;
  maxTime : Z
}.

Record seriesChunkRefs : Type := mkSeriesChunkRefs {
  refs_lset : slice;
  chunks : list seriesChunkRef
}.

Record seriesChunkRefsSet : Type := mkSeriesChunkRefsSet {
  refs_series : list seriesChunkRefs;
  refs_releasable : bool
}.

(** ** The world: stores, pools and the log of calls on collaborators *)

Inductive event : Type :=
| EvChunksRelease (r : releaser)              (* chunksReleaser.Release() *)
| EvChunkReset (l : option loc) (i : nat)     (* AggrChunk.Reset() on a cell *)
| EvSlabPoolRelease                           (* SlabPool.Release() *)
| EvPutSeriesEntrySlice (s : slice)           (* seriesEntrySlicePool.Put *)
| EvPutSeriesChunksSlice (s : slice)          (* seriesChunksSlicePool.Put *)
| EvRefsSetRelease (u : seriesChunkRefsSet).  (* seriesChunkRefsSet.release() *)

Record world : Type := mkWorld {
  entryHeap : gmap loc (list seriesEntry);
  chunkHeap : gmap loc (list AggrChunk);
  seriesEntrySlicePool : list slice;
  seriesChunksSlicePool : list slice;
  (* what the coming [sync.Pool.Get] calls pick: [Some k] is the k-th
     pooled item, [None] (or a [k] out of range) is an empty-handed Get *)
  poolChoices : list (option nat);
  nextReleaser : releaser;
  trace : list event
}.

Definition set_entryHeap (h : gmap loc (list seriesEntry)) (w : world) : world :=
  mkWorld h (chunkHeap w) (seriesEntrySlicePool w) (seriesChunksSlicePool w)
    (poolChoices w) (nextReleaser w) (trace w).

Definition set_chunkHeap (h : gmap loc (list AggrChunk)) (w : world) : world :=
  mkWorld (entryHeap w) h (seriesEntrySlicePool w) (seriesChunksSlicePool w)
    (poolChoices w) (nextReleaser w) (trace w).

Definition set_seriesEntrySlicePool (p : list slice) (w : world) : world :=
  mkWorld (entryHeap w) (chunkHeap w) p (seriesChunksSlicePool w)
    (poolChoices w) (nextReleaser w) (trace w).

Definition set_seriesChunksSlicePool (p : list slice) (w : world) : world :=
  mkWorld (entryHeap w) (chunkHeap w) (seriesEntrySlicePool w) p
    (poolChoices w) (nextReleaser w) (trace w).

Definition set_poolChoices (c : list (option nat)) (w : world) : world :=
  mkWorld (entryHeap w) (chunkHeap w) (seriesEntrySlicePool w)
    (seriesChunksSlicePool w) c (nextReleaser w) (trace w).

Definition set_nextReleaser (r : releaser) (w : world) : world :=
  mkWorld (entryHeap w) (chunkHeap w) (seriesEntrySlicePool w)
    (seriesChunksSlicePool w) (poolChoices w) r (trace w).

Definition log (e : event) (w : world) : world :=
  mkWorld (entryHeap w) (chunkHeap w) (seriesEntrySlicePool w)
    (seriesChunksSlicePool w) (poolChoices w) (nextReleaser w) (trace w ++ [e]).

Definition emptyWorld : world := mkWorld ∅ ∅ [] [] [] 1%positive [].

(** ** A monad for code that reads and writes the world and may panic *)

Definition M (A : Type) : Type := world -> option (A * world).

Definition ret {A : Type} (a : A) : M A := fun w => Some (a, w).

Definition bind {A B : Type} (m : M A) (k : A -> M B) : M B :=
  fun w => match m w with
           | Some (a, w') => k a w'
           | None => None
           end.

Definition panic {A : Type} : M A := fun _ => None.

Definition gets {A : Type} (f : world -> A) : M A := fun w => Some (f w, w).

Definition modify (f : world -> world) : M unit := fun w => Some (tt, f w).

Definition of_option {A : Type} (o : option A) : M A :=
  match o with Some a => ret a | None => panic end.

Notation "'exec' x <~ m ;;; k" := (bind m (fun x => k))
  (at level 10, x binder, m at level 99, k at level 200, only parsing).

(** ** sync.Pool *)

(** What [Get] picks from a pool holding [p]: the item and what is left. *)
Definition pool_pick (p : list slice) (choice : option nat)
  : option slice * list slice :=
  match choice with
  | Some k =>
      match p !! k with
      | Some s => (Some s, delete k p)
      | None => (None, p)
      end
  | None => (None, p)
  end.

Definition next_choice (w : world) : option nat * world :=
  match poolChoices w with
  | c :: cs => (c, set_poolChoices cs w)
  | [] => (None, w)
  end.

Definition seriesEntrySlicePool_Get : M (option slice) := fun w =>
  let (c, w1) := next_choice w in
  let (r, p) := pool_pick (seriesEntrySlicePool w1) c in
  Some (r, set_seriesEntrySlicePool p w1).

Definition seriesEntrySlicePool_Put (s : slice) : M unit :=
  modify (fun w =>
    log (EvPutSeriesEntrySlice s)
      (set_seriesEntrySlicePool (seriesEntrySlicePool w ++ [s]) w)).

Definition seriesChunksSlicePool_Get : M (option slice) := fun w =>
  let (c, w1) := next_choice w in
  let (r, p) := pool_pick (seriesChunksSlicePool w1) c in
  Some (r, set_seriesChunksSlicePool p w1).

Definition seriesChunksSlicePool_Put (s : slice) : M unit :=
  modify (fun w =>
    log (EvPutSeriesChunksSlice s)
      (set_seriesChunksSlicePool (seriesChunksSlicePool w ++ [s]) w)).

(** ** Allocation and access in the two stores *)

Definition make_seriesEntry (n c : Z) : M slice := fun w =>
  if (0 <=? n) && (n <=? c) then
    let (s, h) := heap_make zeroSeriesEntry (entryHeap w) (Z.to_nat n) (Z.to_nat c) in
    Some (s, set_entryHeap h w)
  else None.

Definition make_AggrChunk (n c : Z) : M slice := fun w =>
  if (0 <=? n) && (n <=? c) then
    let (s, h) := heap_make zeroAggrChunk (chunkHeap w) (Z.to_nat n) (Z.to_nat c) in
    Some (s, set_chunkHeap h w)
  else None.

Definition read_entry (w : world) (s : slice) (i : nat) : seriesEntry :=
  heap_read zeroSeriesEntry (entryHeap w) s i.

Definition read_chunk (w : world) (s : slice) (j : nat) : AggrChunk :=
  heap_read zeroAggrChunk (chunkHeap w) s j.

Definition write_entry (s : slice) (i : nat) (e : seriesEntry) : M unit :=
  modify (fun w => set_entryHeap (heap_write (entryHeap w) s i e) w).

Definition write_chunk (s : slice) (j : nat) (c : AggrChunk) : M unit :=
  modify (fun w => set_chunkHeap (heap_write (chunkHeap w) s j c) w).

(** ** pool.SlabPool *)

Definition seriesChunksSlabSize : Z := 1000.

(** Modelled from the spec: [pool.NewSlabPool(delegate, slabSize)]; the one
    delegate of this file is [seriesChunksSlicePool]. *)
Definition NewSlabPool (size : Z) : SlabPool := mkSlabPool size [].

Definition slab_room (s : slice) : Z := cap s - len s.

(** Carve [n] more slots out of the slab [s]: the slab with its length grown
    by [n], and the sub-slice of the new slots. *)
Definition slab_carve (s : slice) (n : nat) : slice * slice :=
  (Slice (s_ptr s) (s_off s) (s_len s + n) (s_cap s),
   carve s (s_len s) (s_len s + n)).

(** Modelled from the spec: [SlabPool.Get(size)] returns a slice of [size]
    slots carved from a slab: from the slab in use when it has room, else
    from a new slab, taken from the delegate pool or allocated with
    [slabSize] slots. A request larger than a slab cannot be carved and is
    allocated on its own; nothing is carved for an empty request. *)
Definition SlabPool_newSlab (sp : SlabPool) : M slice :=
  exec fromDelegate <~ seriesChunksSlicePool_Get ;;;
  match fromDelegate with
  | Some s => of_option (reslice s 0)
  | None => make_AggrChunk 0 (slabSize sp)
  end.

Definition SlabPool_Get (size : Z) (sp : SlabPool) : M (slice * SlabPool) :=
  if size <=? 0 then ret (nil_slice, sp)
  else if slabSize sp <? size then
    exec s <~ make_AggrChunk size size ;;; ret (s, sp)
  else
    exec cur <~ match last (slabs sp) with
                | Some slab =>
                    if size <=? slab_room slab
                    then ret (slab, removelast (slabs sp))
                    else exec s <~ SlabPool_newSlab sp ;;; ret (s, slabs sp)
                | None => exec s <~ SlabPool_newSlab sp ;;; ret (s, slabs sp)
                end ;;;
    if size <=? slab_room (fst cur) then
      let (slab', r) := slab_carve (fst cur) (Z.to_nat size) in
      ret (r, mkSlabPool (slabSize sp) (snd cur ++ [slab']))
    else panic.

Fixpoint put_slabs (l : list slice) : M unit :=
  match l with
  | [] => ret tt
  | s :: l' => exec _ <~ seriesChunksSlicePool_Put s ;;; put_slabs l'
  end.

(** Modelled from the spec: [SlabPool.Release()] returns every slab, as a
    whole, to the delegate pool. *)
Definition SlabPool_Release (sp : SlabPool) : M SlabPool :=
  exec _ <~ modify (log EvSlabPoolRelease) ;;;
  exec _ <~ put_slabs (slabs sp) ;;;
  ret (mkSlabPool (slabSize sp) []).

(** ** The pooled chunk-set *)

Definition with_series (s : slice) (b : seriesChunksSet) : seriesChunksSet :=
  mkSeriesChunksSet s (seriesReleasable b) (seriesChunksPool b) (chunksReleaser b).

Definition with_seriesChunksPool (p : option SlabPool) (b : seriesChunksSet)
  : seriesChunksSet :=
  mkSeriesChunksSet (series b) (seriesReleasable b) p (chunksReleaser b).

Definition with_chunksReleaser (r : option releaser) (b : seriesChunksSet)
  : seriesChunksSet :=
  mkSeriesChunksSet (series b) (seriesReleasable b) (seriesChunksPool b) r.

Definition newSeriesChunksSet (seriesCapacity : Z) (seriesReleasable : bool)
  : M seriesChunksSet :=
  exec prealloc <~
    (if seriesReleasable then
       exec reused <~ seriesEntrySlicePool_Get ;;;
       match reused with
       | Some s => if cap s <? seriesCapacity then ret nil_slice else ret s
       | None => ret nil_slice
       end
     else ret nil_slice) ;;;
  exec prealloc <~
    (if is_nil_slice prealloc
     then make_seriesEntry 0 seriesCapacity
     else ret prealloc) ;;;
  ret (mkSeriesChunksSet prealloc seriesReleasable None None).

(** [for c := range chks { chks[c].Reset() }], from cell [c] on, [n] cells
    to go. *)
Fixpoint reset_chunks (chks : slice) (c n : nat) : M unit :=
  match n with
  | O => ret tt
  | S n' =>
      exec _ <~ modify (log (EvChunkReset (s_ptr chks) (s_off chks + c))) ;;;
      exec old <~ gets (fun w => read_chunk w chks c) ;;;
      exec _ <~ write_chunk chks c (AggrChunk_Reset old) ;;;
      reset_chunks chks (S c) n'
  end.

(** The loop of [release] over [b.series], from entry [i] on, [n] entries
    to go. *)
Fixpoint release_entries (ser : slice) (i n : nat) : M unit :=
  match n with
  | O => ret tt
  | S n' =>
      exec e <~ gets (fun w => read_entry w ser i) ;;;
      exec _ <~ reset_chunks (chks e) 0 (s_len (chks e)) ;;;
      exec _ <~ write_entry ser i zeroSeriesEntry ;;;
      release_entries ser (S i) n'
  end.

(** [release] leaves the set itself as it is and works on what the set
    points to; the slab pool, which the set is the only one to point to, is
    kept in the set, hence the set that is returned. *)
Definition release (b : seriesChunksSet) : M seriesChunksSet :=
  exec _ <~ match chunksReleaser b with
            | Some r => modify (log (EvChunksRelease r))
            | None => ret tt
            end ;;;
  if seriesReleasable b then
    exec _ <~ release_entries (series b) 0 (s_len (series b)) ;;;
    exec pool <~ match seriesChunksPool b with
                 | Some sp => exec sp' <~ SlabPool_Release sp ;;; ret (Some sp')
                 | None => ret None
                 end ;;;
    exec reuse <~ of_option (reslice (series b) 0) ;;;
    exec _ <~ seriesEntrySlicePool_Put reuse ;;;
    ret (with_seriesChunksPool pool b)
  else ret b.

(** The slab pool of the set, initialised when it is not yet. *)
Definition lazy_seriesChunksPool (b : seriesChunksSet) : SlabPool :=
  match seriesChunksPool b with
  | Some sp => sp
  | None => NewSlabPool seriesChunksSlabSize
  end.

Definition newSeriesAggrChunkSlice (size : Z) (b : seriesChunksSet)
  : M (slice * seriesChunksSet) :=
  if negb (seriesReleasable b) then
    exec s <~ make_AggrChunk size size ;;; ret (s, b)
  else
    exec r <~ SlabPool_Get size (lazy_seriesChunksPool b) ;;;
    ret (fst r, with_seriesChunksPool (Some (snd r)) b).

Definition seriesChunksSet_len (b : seriesChunksSet) : Z := len (series b).

(** [s[i]] on a slice of series entries: panics unless [0 <= i < len(s)]. *)
Definition index_entry (w : world) (s : slice) (i : Z) : option seriesEntry :=
  if (0 <=? i) && (i <? len s)
  then Some (read_entry w s (Z.to_nat i))
  else None.

(** ** The series adapter *)

Module SeriesSet.

(** The [seriesChunksSetIterator] interface. [At] and [Err] only read the
    iterator; [Next] may do anything to the world. *)
Class seriesChunksSetIterator (U : Type) : Type := {
  it_Next : U -> M (bool * U);
  it_At : U -> seriesChunksSet;
  it_Err : U -> error
}.

Section Adapter.
Context {U : Type} `{seriesChunksSetIterator U}.

Record seriesChunksSeriesSet : Type := mkSeriesChunksSeriesSet {
  from : U;
  currSet : seriesChunksSet;
  currOffset : Z
}.

Definition newSeriesChunksSeriesSet (from : U) : seriesChunksSeriesSet :=
  mkSeriesChunksSeriesSet from zeroSeriesChunksSet 0.

Definition Next (b : seriesChunksSeriesSet) : M (bool * seriesChunksSeriesSet) :=
  let off := int_add (currOffset b) 1 in
  if seriesChunksSet_len (currSet b) <=? off then
    exec _ <~ release (currSet b) ;;;
    exec r <~ it_Next (from b) ;;;
    if negb (fst r)
    then ret (false, mkSeriesChunksSeriesSet (snd r) zeroSeriesChunksSet off)
    else ret (true, mkSeriesChunksSeriesSet (snd r) (it_At (snd r)) 0)
  else ret (true, mkSeriesChunksSeriesSet (from b) (currSet b) off).

(** [None] is the index-out-of-range panic. *)
Definition At (b : seriesChunksSeriesSet) (w : world) : option (slice * slice) :=
  if seriesChunksSet_len (currSet b) <=? currOffset b then
    Some (nil_slice, nil_slice)
  else
    match index_entry w (series (currSet b)) (currOffset b) with
    | Some e => Some (lset e, chks e)
    | None => None
    end.

Definition Err (b : seriesChunksSeriesSet) : error := it_Err (from b).
End Adapter.

Arguments seriesChunksSeriesSet U : clear implicits.

End SeriesSet.

(** ** The preloading iterator *)

Module Preloading.

(** The [genericIterator] interface. *)
Class genericIterator (U T : Type) : Type := {
  gi_Next : U -> bool * U;
  gi_At : U -> T;
  gi_Err : U -> error
}.

Section Preloading.
Context {U T : Type} `{genericIterator U T}.
(** The zero value of [T]. *)
Context (zeroT : T).

Record preloadedSeriesChunksSet : Type := mkPreloaded {
  set : T;
  perr : error   (* the field [err] *)
}.

(** A channel: its capacity, the queue of buffered values and whether it
    has been closed. *)
Record chan : Type := mkChan {
  ch_cap : nat;
  ch_buf : list preloadedSeriesChunksSet;
  ch_closed : bool
}.

(** [make(chan _, n)] panics on a negative size. *)
Definition make_chan (n : Z) : option chan :=
  if 0 <=? n then Some (mkChan (Z.to_nat n) [] false) else None.

(** Where the goroutine running [preload] stands. *)
Inductive producer : Type :=
| AtNext                                      (* about to call p.from.Next() *)
| AtSelect (v : preloadedSeriesChunksSet)     (* in the select, sending v *)
| AtSendErr (v : preloadedSeriesChunksSet)    (* sending the error payload *)
| AtClose                                     (* about to run the deferred close *)
| Finished.

Record preloadingSetIterator : Type := mkPreloading {
  ctx_done : bool;                    (* p.ctx has been cancelled *)
  from : U;
  current : T;
  preloaded : chan;
  err : error;
  goroutine : producer;
  (* history: every payload that went through the channel so far *)
  sent : list preloadedSeriesChunksSet
}.

Definition newPreloadingSetIterator (ctx_done : bool) (preloadedSetsCount : Z)
    (from : U) : option preloadingSetIterator :=
  match make_chan (int_sub preloadedSetsCount 1) with
  | Some c => Some (mkPreloading ctx_done from zeroT c None AtNext [])
  | None => None
  end.

Definition has_room (c : chan) : bool :=
  (length (ch_buf c) <? ch_cap c)%nat.

Definition push (v : preloadedSeriesChunksSet) (c : chan) : chan :=
  mkChan (ch_cap c) (ch_buf c ++ [v]) (ch_closed c).

Definition with_producer (g : producer) (p : preloadingSetIterator)
  : preloadingSetIterator :=
  mkPreloading (ctx_done p) (from p) (current p) (preloaded p) (err p) g (sent p).

(** A buffered send by the producer, which then goes on at [g]. *)
Definition buffered_send (v : preloadedSeriesChunksSet) (g : producer)
    (p : preloadingSetIterator) : option preloadingSetIterator :=
  if has_room (preloaded p)
  then Some (mkPreloading (ctx_done p) (from p) (current p)
               (push v (preloaded p)) (err p) g (sent p ++ [v]))
  else None.

(** One step of the goroutine running [preload], other than taking the
    [ctx.Done()] branch of the select; [None] when it is blocked on a
    send or has finished. *)
Definition preload_step (p : preloadingSetIterator)
  : option preloadingSetIterator :=
  match goroutine p with
  | AtNext =>
      let (ok, from') := gi_Next (from p) in
      let g := if ok then AtSelect (mkPreloaded (gi_At from') None)
               else match gi_Err from' with
                    | Some e => AtSendErr (mkPreloaded zeroT (gi_Err from'))
                    | None => AtClose
                    end in
      Some (mkPreloading (ctx_done p) from' (current p) (preloaded p)
              (err p) g (sent p))
  | AtSelect v => buffered_send v AtNext p
  | AtSendErr v => buffered_send v AtClose p
  | AtClose =>
      Some (mkPreloading (ctx_done p) (from p) (current p)
              (mkChan (ch_cap (preloaded p)) (ch_buf (preloaded p)) true)
              (err p) Finished (sent p))
  | Finished => None
  end.

(** The select of [preload] takes [<-p.ctx.Done()]. *)
Definition preload_ctxDone (p : preloadingSetIterator)
  : option preloadingSetIterator :=
  match goroutine p with
  | AtSelect _ => if ctx_done p then Some (with_producer AtClose p) else None
  | _ => None
  end.

(** The caller cancels the context. *)
Definition cancel (p : preloadingSetIterator) : preloadingSetIterator :=
  mkPreloading true (from p) (current p) (preloaded p) (err p)
    (goroutine p) (sent p).

(** [preloaded, ok := <-p.preloaded]: the head of the buffer; on an empty
    buffer the value of a producer that stands at a send; on an empty,
    closed channel nothing ([ok] false); else the receive blocks, which
    is [None]. *)
Definition receive (p : preloadingSetIterator)
  : option (option preloadedSeriesChunksSet * preloadingSetIterator) :=
  match ch_buf (preloaded p) with
  | v :: rest =>
      Some (Some v,
            mkPreloading (ctx_done p) (from p) (current p)
              (mkChan (ch_cap (preloaded p)) rest (ch_closed (preloaded p)))
              (err p) (goroutine p) (sent p))
  | [] =>
      match goroutine p with
      | AtSelect v =>
          Some (Some v,
                mkPreloading (ctx_done p) (from p) (current p) (preloaded p)
                  (err p) AtNext (sent p ++ [v]))
      | AtSendErr v =>
          Some (Some v,
                mkPreloading (ctx_done p) (from p) (current p) (preloaded p)
                  (err p) AtClose (sent p ++ [v]))
      | _ => if ch_closed (preloaded p) then Some (None, p) else None
      end
  end.

Definition Next (p : preloadingSetIterator)
  : option (bool * preloadingSetIterator) :=
  match receive p with
  | None => None
  | Some (None, p') => Some (false, p')
  | Some (Some v, p') =>
      Some (is_nil_error (perr v),
            mkPreloading (ctx_done p') (from p') (set v) (preloaded p')
              (perr v) (goroutine p') (sent p'))
  end.

Definition At (p : preloadingSetIterator) : T := current p.

Definition Err (p : preloadingSetIterator) : error := err p.

(** The interleavings of the producer, the consumer and the caller. *)
Inductive step : preloadingSetIterator -> preloadingSetIterator -> Prop :=
| step_preload p p' : preload_step p = Some p' -> step p p'
| step_ctxDone p p' : preload_ctxDone p = Some p' -> step p p'
| step_cancel p : step p (cancel p)
| step_Next p b p' : Next p = Some (b, p') -> step p p'.

Inductive steps : preloadingSetIterator -> preloadingSetIterator -> Prop :=
| steps_refl p : steps p p
| steps_step p q r : steps p q -> step q r -> steps p r.

Definition reachable (p : preloadingSetIterator) : Prop :=
  exists done n from p0,
    newPreloadingSetIterator done n from = Some p0 /\ steps p0 p.
End Preloading.

Arguments preloadedSeriesChunksSet T : clear implicits.
Arguments chan T : clear implicits.
Arguments producer T : clear implicits.
Arguments preloadingSetIterator U T : clear implicits.

End Preloading.

(** ** The loading iterator *)

Module Loading.

(** The [seriesChunkRefsSetIterator] interface; the reference stage keeps
    its own resources, so that its [Next] works on its own state. *)
Class seriesChunkRefsSetIterator (U : Type) : Type := {
  refs_Next : U -> bool * U;
  refs_At : U -> seriesChunkRefsSet;
  refs_Err : U -> error
}.

(** What [load] writes in a slot: the encoded chunk, in its variants. *)
Record loadedChunk : Type := mkLoadedChunk {
  l_series : nat;
  l_chunk : nat;
  l_Raw : option bytes;
  l_Count : option bytes;
  l_Sum : option bytes;
  l_Min : option bytes;
  l_Max : option bytes;
  l_Counter : option bytes
}.

(** Modelled from the spec: [bucketChunkReaders] (bucket_chunk_reader.go,
    not in the sources at hand). [reset] clears the load plan, [addLoad]
    registers a chunk reference for the slot (series index, chunk index)
    and may fail, [load] reads the registered chunks and fills the
    payload of their slots in place: [readers_load] gives the chunks it
    got to write, in order, and the error it stopped on, if any. *)
Class bucketChunkReaders (R : Type) : Type := {
  readers_reset : R -> R;
  readers_addLoad : string -> Z -> nat -> nat -> R -> error * R;
  readers_load : R -> list loadedChunk * error * R
}.

Definition with_payload (l : loadedChunk) (c : AggrChunk) : AggrChunk :=
  mkAggrChunk (MinTime c) (MaxTime c) (l_Raw l) (l_Count l) (l_Sum l)
    (l_Min l) (l_Max l) (l_Counter l).

(** The writes of [load] into [series]: [series[i].chks[j]] gets the
    payload, an index out of range panics. *)
Fixpoint store_loaded (ser : slice) (ls : list loadedChunk) : M unit :=
  match ls with
  | [] => ret tt
  | l :: ls' =>
      exec e <~ (fun w => match index_entry w ser (Z.of_nat (l_series l)) with
                          | Some e => Some (e, w)
                          | None => None
                          end) ;;;
      if (l_chunk l <? s_len (chks e))%nat then
        exec old <~ gets (fun w => read_chunk w (chks e) (l_chunk l)) ;;;
        exec _ <~ write_chunk (chks e) (l_chunk l) (with_payload l old) ;;;
        store_loaded ser ls'
      else panic
  end.

Section Loader.
Context {U R : Type} `{seriesChunkRefsSetIterator U} `{bucketChunkReaders R}.

(** The byte pool and the statistics are handed to the readers as they
    are and are left out. *)
Record loadingSeriesChunksSetIterator : Type := mkLoading {
  chunkReaders : R;
  from : U;
  fromBatchSize : Z;
  current : seriesChunksSet;
  err : error
}.

Definition newLoadingSeriesChunksSetIterator (chunkReaders : R) (from : U)
    (fromBatchSize : Z) : loadingSeriesChunksSetIterator :=
  mkLoading chunkReaders from fromBatchSize zeroSeriesChunksSet None.

(** [nextSet.series[i]], the index checked. *)
Definition series_at (ser : slice) (i : nat) : M seriesEntry := fun w =>
  match index_entry w ser (Z.of_nat i) with
  | Some e => Some (e, w)
  | None => None
  end.

(** [nextSet.series[i].chks[j].MinTime = t], and the like for MaxTime. *)
Definition set_chunk_field (f : AggrChunk -> AggrChunk) (ser : slice)
    (i j : nat) : M unit :=
  exec e <~ series_at ser i ;;;
  if (j <? s_len (chks e))%nat then
    exec old <~ gets (fun w => read_chunk w (chks e) j) ;;;
    write_chunk (chks e) j (f old)
  else panic.

(** The loop over [s.chunks], from chunk [j] on; the result is the error
    of the first [addLoad] that fails. *)
Fixpoint populate_chunks (ser : slice) (i : nat) (cs : list seriesChunkRef)
    (j : nat) (r : R) : M (error * R) :=
  match cs with
  | [] => ret (None, r)
  | chunk :: cs' =>
      exec _ <~ set_chunk_field (with_MinTime (minTime chunk)) ser i j ;;;
      exec _ <~ set_chunk_field (with_MaxTime (maxTime chunk)) ser i j ;;;
      let (e, r') := readers_addLoad (blockID chunk) (ref chunk) i j r in
      match e with
      | Some _ => ret (e, r')
      | None => populate_chunks ser i cs' (S j) r'
      end
  end.

(** The loop over [nextUnloaded.series], from series [i] on. *)
Fixpoint populate_series (nextSet : seriesChunksSet)
    (ss : list seriesChunkRefs) (i : nat) (r : R)
  : M (error * R * seriesChunksSet) :=
  match ss with
  | [] => ret (None, r, nextSet)
  | s :: ss' =>
      exec e <~ series_at (series nextSet) i ;;;
      exec _ <~ write_entry (series nextSet) i (mkSeriesEntry (refs_lset s) (chks e)) ;;;
      exec a <~ newSeriesAggrChunkSlice (Z.of_nat (length (chunks s))) nextSet ;;;
      exec e <~ series_at (series nextSet) i ;;;
      exec _ <~ write_entry (series nextSet) i (mkSeriesEntry (lset e) (fst a)) ;;;
      exec res <~ populate_chunks (series nextSet) i (chunks s) 0 r ;;;
      match fst res with
      | Some _ => ret (fst res, snd res, snd a)
      | None => populate_series (snd a) ss' (S i) (snd res)
      end
  end.

(** [&pool.BatchBytes{Delegate: c.chunksPool}]: a new releaser. *)
Definition new_BatchBytes : M releaser := fun w =>
  Some (nextReleaser w, set_nextReleaser (Pos.succ (nextReleaser w)) w).

(** The two deferred calls, in the order they run. *)
Definition deferred (retHasNext : bool) (c : loadingSeriesChunksSetIterator)
    (nextSet : seriesChunksSet) (nextUnloaded : seriesChunkRefsSet)
  : M (bool * loadingSeriesChunksSetIterator) :=
  exec _ <~ (if negb retHasNext && negb (is_nil_error (err c))
             then exec _ <~ release nextSet ;;; ret tt
             else ret tt) ;;;
  exec _ <~ modify (log (EvRefsSetRelease nextUnloaded)) ;;;
  ret (retHasNext, c).

Definition Next (c : loadingSeriesChunksSetIterator)
  : M (bool * loadingSeriesChunksSetIterator) :=
  if negb (is_nil_error (err c)) then ret (false, c)
  else
    let (ok, from') := refs_Next (from c) in
    if negb ok then
      ret (false, mkLoading (chunkReaders c) from' (fromBatchSize c)
                    (current c) (refs_Err from'))
    else
      let nextUnloaded := refs_At from' in
      let n := Z.of_nat (length (refs_series nextUnloaded)) in
      exec nextSet <~ newSeriesChunksSet (util_math_Max (fromBatchSize c) n) true ;;;
      exec ser <~ of_option (reslice (series nextSet) n) ;;;
      exec p <~ populate_series (with_series ser nextSet)
                  (refs_series nextUnloaded) 0
                  (readers_reset (chunkReaders c)) ;;;
      match fst (fst p) with
      | Some _ =>
          deferred false
            (mkLoading (snd (fst p)) from' (fromBatchSize c) (current c)
               (errors_Wrap (fst (fst p)) "preloading chunks"))
            (snd p) nextUnloaded
      | None =>
          exec chunksPool <~ new_BatchBytes ;;;
          let '(loaded, e, r) := readers_load (snd (fst p)) in
          exec _ <~ store_loaded (series (snd p)) loaded ;;;
          match e with
          | Some _ =>
              deferred false
                (mkLoading r from' (fromBatchSize c) (current c)
                   (errors_Wrap e "loading chunks"))
                (snd p) nextUnloaded
          | None =>
              let nextSet := with_chunksReleaser (Some chunksPool) (snd p) in
              deferred true
                (mkLoading r from' (fromBatchSize c) nextSet (err c))
                nextSet nextUnloaded
          end
      end.

Definition At (c : loadingSeriesChunksSetIterator) : seriesChunksSet :=
  current c.

Definition Err (c : loadingSeriesChunksSetIterator) : error := err c.
End Loader.

Arguments loadingSeriesChunksSetIterator U R : clear implicits.

End Loading.

(** ** The memcached cache adapter *)

Module Cache.

(** The part of the [RemoteCacheClient] interface that [Fetch] uses. *)
Class RemoteCacheClient (C : Type) : Type := {
  GetMulti : C -> list string -> gmap string bytes * C
}.

Section Memcached.
Context {C : Type} `{RemoteCacheClient C}.

(** The two counters hold what has been added to them: [Fetch] adds
    lengths, which [float64] represents exactly. *)
Record MemcachedCache : Type := mkMemcachedCache {
  memcached : C;
  name : string;
  requests : Z;
  hits : Z
}.

Definition Fetch (c : MemcachedCache) (keys : list string)
  : gmap string bytes * MemcachedCache :=
  let requests' := requests c + Z.of_nat (length keys) in
  let (results, memcached') := GetMulti (memcached c) keys in
  let hits' := hits c + Z.of_nat (size results) in
  (results, mkMemcachedCache memcached' (name c) requests' hits').

Definition Name (c : MemcachedCache) : string := name c.
End Memcached.

Arguments MemcachedCache C : clear implicits.

(** Modelled from the spec: the client behind [GetMulti] (the memcached
    client of dskit, not in the sources at hand) does one round trip to
    the server for the keys; a transport error gives the empty map, and
    otherwise the result holds the requested keys the server has, and only
    those. *)
Inductive roundTrip : Type :=
| TransportError (e : errorValue)
| ServerHolds (items : gmap string bytes).

Record memcachedClient : Type := mkMemcachedClient {
  trips : nat;                  (* round trips done so far *)
  network : nat -> roundTrip    (* what the n-th round trip meets *)
}.

Definition hits_of (keys : list string) (items : gmap string bytes)
  : gmap string bytes :=
  filter (fun kv => kv.1 ∈ keys) items.

Definition memcachedClient_GetMulti (cl : memcachedClient) (keys : list string)
  : gmap string bytes * memcachedClient :=
  let cl' := mkMemcachedClient (S (trips cl)) (network cl) in
  match network cl (trips cl) with
  | TransportError _ => (∅, cl')
  | ServerHolds items => (hits_of keys items, cl')
  end.

#[global] Instance memcachedClient_RemoteCacheClient
  : RemoteCacheClient memcachedClient :=
  {| GetMulti := memcachedClient_GetMulti |}.

End Cache.

(** ** Stand-ins for the collaborators

    The iterators and the readers that the pipeline is built on are
    interfaces; these are small implementations to run the code on. *)

(** A reference iterator over a list of batches, which ends with [final]. *)
Record listRefs : Type := mkListRefs {
  lr_pending : list seriesChunkRefsSet;
  lr_at : seriesChunkRefsSet;
  lr_final : error;
  lr_ended : bool
}.

Definition listRefs_Next (u : listRefs) : bool * listRefs :=
  match lr_pending u with
  | b :: rest => (true, mkListRefs rest b (lr_final u) false)
  | [] => (false, mkListRefs [] (lr_at u) (lr_final u) true)
  end.

#[export] Instance listRefs_iterator : Loading.seriesChunkRefsSetIterator listRefs :=
  {| Loading.refs_Next := listRefs_Next;
     Loading.refs_At := lr_at;
     Loading.refs_Err := fun u => if lr_ended u then lr_final u else None |}.

(** Readers that keep the plan as a list; [addLoad] refuses the empty block
    id, [load] fails on a negative reference and else reads one byte, the
    low byte of the reference. *)
Record planReaders : Type := mkPlanReaders {
  plan : list (string * Z * nat * nat)
}.

Definition planReaders_addLoad (b : string) (r : Z) (i j : nat) (rd : planReaders)
  : error * planReaders :=
  if String.eqb b EmptyString
  then (Some (ErrNew "unknown block"), rd)
  else (None, mkPlanReaders (plan rd ++ [(b, r, i, j)])).

Fixpoint planReaders_read (p : list (string * Z * nat * nat))
  : list Loading.loadedChunk * error :=
  match p with
  | [] => ([], None)
  | (b, r, i, j) :: p' =>
      if r <? 0 then ([], Some (ErrNew "read failed"))
      else
        let (ls, e) := planReaders_read p' in
        (Loading.mkLoadedChunk i j (Some [Byte.x01]) None None None None None :: ls, e)
  end.

#[export] Instance planReaders_readers : Loading.bucketChunkReaders planReaders :=
  {| Loading.readers_reset := fun _ => mkPlanReaders [];
     Loading.readers_addLoad := planReaders_addLoad;
     Loading.readers_load := fun rd =>
       (fst (planReaders_read (plan rd)), snd (planReaders_read (plan rd)), rd) |}.

(** An iterator over a list of chunk-sets, which ends with [final]. *)
Record listSets : Type := mkListSets {
  ls_pending : list seriesChunksSet;
  ls_at : seriesChunksSet;
  ls_final : error;
  ls_ended : bool
}.

Definition listSets_Next (u : listSets) : M (bool * listSets) :=
  match ls_pending u with
  | b :: rest => ret (true, mkListSets rest b (ls_final u) false)
  | [] => ret (false, mkListSets [] (ls_at u) (ls_final u) true)
  end.

#[export] Instance listSets_iterator : SeriesSet.seriesChunksSetIterator listSets :=
  {| SeriesSet.it_Next := listSets_Next;
     SeriesSet.it_At := ls_at;
     SeriesSet.it_Err := fun u => if ls_ended u then ls_final u else None |}.

(** An iterator over a list of numbers, which ends with [final]. *)
Record listNumbers : Type := mkListNumbers {
  ln_pending : list Z;
  ln_at : Z;
  ln_final : error;
  ln_ended : bool
}.

Definition listNumbers_Next (u : listNumbers) : bool * listNumbers :=
  match ln_pending u with
  | b :: rest => (true, mkListNumbers rest b (ln_final u) false)
  | [] => (false, mkListNumbers [] (ln_at u) (ln_final u) true)
  end.

#[export] Instance listNumbers_iterator : Preloading.genericIterator listNumbers Z :=
  {| Preloading.gi_Next := listNumbers_Next;
     Preloading.gi_At := ln_at;
     Preloading.gi_Err := fun u => if ln_ended u then ln_final u else None |}.

(** ** What the properties speak of *)

(** The slice [s[:0]] that [release] puts back. *)
Definition truncated (s : slice) : slice :=
  Slice (s_ptr s) (s_off s) 0 (s_cap s).

(** The calls of [Reset] on the cells of a chunk slice, in order. *)
Definition reset_events (chks : slice) : list event :=
  map (fun c => EvChunkReset (s_ptr chks) (s_off chks + c)) (seq 0 (s_len chks)).

(** The calls [release] makes on its collaborators, in order, for the set [b]
    in the world [w]. *)
Definition releaser_events (b : seriesChunksSet) : list event :=
  match chunksReleaser b with
  | Some r => [EvChunksRelease r]
  | None => []
  end.

Definition entries_events (w : world) (ser : slice) : list event :=
  flat_map (fun i => reset_events (chks (read_entry w ser i))) (seq 0 (s_len ser)).

Definition slabs_of (b : seriesChunksSet) : list slice :=
  match seriesChunksPool b with
  | Some sp => slabs sp
  | None => []
  end.

Definition slab_events (b : seriesChunksSet) : list event :=
  match seriesChunksPool b with
  | Some sp => EvSlabPoolRelease :: map EvPutSeriesChunksSlice (slabs sp)
  | None => []
  end.

Definition release_events (w : world) (b : seriesChunksSet) : list event :=
  releaser_events b ++
  (if seriesReleasable b
   then entries_events w (series b) ++ slab_events b
        ++ [EvPutSeriesEntrySlice (truncated (series b))]
   else []).

(** Two worlds with the same pools, choices and releaser counter. *)
Definition same_pools (w w' : world) : Prop :=
  seriesEntrySlicePool w' = seriesEntrySlicePool w /\
  seriesChunksSlicePool w' = seriesChunksSlicePool w /\
  poolChoices w' = poolChoices w /\
  nextReleaser w' = nextReleaser w.

(** What [release] leaves behind for a releasable set: the entries of the set
    and their chunks read as zero values, the slabs and the truncated series
    slice are back in their pools. *)
Definition released (w : world) (b : seriesChunksSet) (w' : world) : Prop :=
  (forall i, (i < s_len (series b))%nat ->
     read_entry w' (series b) i = zeroSeriesEntry /\
     forall c, (c < s_len (chks (read_entry w (series b) i)))%nat ->
       read_chunk w' (chks (read_entry w (series b) i)) c = zeroAggrChunk) /\
  seriesEntrySlicePool w' = seriesEntrySlicePool w ++ [truncated (series b)] /\
  seriesChunksSlicePool w' = seriesChunksSlicePool w ++ slabs_of b.


(** *** Well-formed pools

    What the pools hold between two calls: series slices of length zero
    whose cells exist, and slabs of at least [seriesChunksSlabSize] slots
    whose cells exist, no two of them over the same array. *)

Definition pooled_entries_ok (w : world) (s : slice) : Prop :=
  s_len s = 0%nat /\ valid_slice (entryHeap w) s.

Definition pooled_slab_ok (w : world) (s : slice) : Prop :=
  is_Some (s_ptr s) /\ valid_slice (chunkHeap w) s /\ seriesChunksSlabSize <= cap s.

Definition wf_world (w : world) : Prop :=
  Forall (pooled_entries_ok w) (seriesEntrySlicePool w) /\
  Forall (pooled_slab_ok w) (seriesChunksSlicePool w) /\
  NoDup (s_ptr <$> seriesChunksSlicePool w).

(** The slabs a slab pool has in use, next to the pooled ones. *)
Definition slab_ok (w : world) (s : slice) : Prop :=
  is_Some (s_ptr s) /\ valid_slice (chunkHeap w) s.

Definition sp_inv (sp : SlabPool) (w : world) : Prop :=
  slabSize sp = seriesChunksSlabSize /\
  Forall (slab_ok w) (slabs sp) /\
  Forall (pooled_slab_ok w) (seriesChunksSlicePool w) /\
  NoDup (s_ptr <$> (slabs sp ++ seriesChunksSlicePool w)).

(** A chunk slice handed out by the slab pool [sp]: its cells exist, are not
    in a pooled slab, and lie in the used part of the slab they are in. *)
Definition region_safe (sp : SlabPool) (w : world) (r : slice) : Prop :=
  s_len r = 0%nat \/
  exists l arr,
    s_ptr r = Some l /\ chunkHeap w !! l = Some arr /\
    (s_off r + s_len r <= length arr)%nat /\
    (Some l ∉ (s_ptr <$> seriesChunksSlicePool w)) /\
    forall slab, slab ∈ slabs sp -> s_ptr slab = Some l ->
                 (s_off r + s_len r <= s_off slab + s_len slab)%nat.

Definition disjoint_regions (r1 r2 : slice) : Prop :=
  s_len r1 = 0%nat \/ s_len r2 = 0%nat \/ s_ptr r1 <> s_ptr r2 \/
  (s_off r1 + s_len r1 <= s_off r2)%nat \/ (s_off r2 + s_len r2 <= s_off r1)%nat.

(** The store [h'] has every array of [h], with the same number of cells. *)
Definition extends_shape {A : Type} (h h' : gmap loc (list A)) : Prop :=
  forall l arr, h !! l = Some arr ->
    exists arr', h' !! l = Some arr' /\ length arr' = length arr.

(** The store [h'] has every array of [h], unchanged. *)
Definition extends_store {A : Type} (h h' : gmap loc (list A)) : Prop :=
  forall l arr, h !! l = Some arr -> h' !! l = Some arr.

(** What the coming [Get] on the series-slice pool returns. *)
Definition coming_seriesEntrySlice (w : world) : option slice :=
  fst (pool_pick (seriesEntrySlicePool w) (fst (next_choice w))).

Definition pooled_lengths_zero (w : world) : Prop :=
  Forall (fun s => s_len s = 0%nat) (seriesEntrySlicePool w).

(** The series slice of [b] is a new array of [c] zero entries, of which
    the slice shows none. *)
Definition fresh_series (w : world) (c : Z) (b : seriesChunksSet) (w' : world) : Prop :=
  exists l,
    series b = Slice (Some l) 0 0 (Z.to_nat c) /\
    entryHeap w !! l = None /\
    entryHeap w' = <[l := replicate (Z.to_nat c) zeroSeriesEntry]> (entryHeap w).

(** The states of the series adapter that calls of [Next] lead to, from a
    new adapter on; no call takes the offset past the largest [int]. *)
Inductive adapter_reachable {U : Type} `{SeriesSet.seriesChunksSetIterator U}
  : SeriesSet.seriesChunksSeriesSet U -> Prop :=
| reachable_new (from : U) :
    adapter_reachable (SeriesSet.newSeriesChunksSeriesSet from)
| reachable_Next (b b' : SeriesSet.seriesChunksSeriesSet U) (w w' : world) (ok : bool) :
    adapter_reachable b ->
    SeriesSet.currOffset b < int_max ->
    SeriesSet.Next b w = Some ((ok, b'), w') ->
    adapter_reachable b'.

(** The law of an exhausted iterator, for the reference iterator: a [Next]
    that follows a false [Next] is false and leaves [Err] as it is. *)
Definition refs_exhaustion_law (U : Type) `{Loading.seriesChunkRefsSetIterator U} : Prop :=
  forall u u1 : U,
    Loading.refs_Next u = (false, u1) ->
    exists u2, Loading.refs_Next u1 = (false, u2) /\
               Loading.refs_Err u2 = Loading.refs_Err u1.

(** The calls of the loader's [Next] that follow, one in each of the worlds
    [ws]: what each returns, with [Err] after it; [None] is a panic. *)
Fixpoint loader_Next_again {U R : Type} `{Loading.seriesChunkRefsSetIterator U}
    `{Loading.bucketChunkReaders R}
    (c : Loading.loadingSeriesChunksSetIterator U R) (ws : list world)
  : list (option (bool * error)) :=
  match ws with
  | [] => []
  | w :: ws' =>
      match Loading.Next c w with
      | Some ((b, c'), _) => Some (b, Loading.Err c') :: loader_Next_again c' ws'
      | None => [None]
      end
  end.

(** *** The preloading iterator *)

Section PreloadingInvariant.
Context {U T : Type} `{Preloading.genericIterator U T}.

(** The producer is past its last send. *)
Definition winding_down (p : Preloading.preloadingSetIterator U T) : Prop :=
  Preloading.goroutine p = Preloading.AtClose \/
  Preloading.goroutine p = Preloading.Finished.

(** What holds of the iterator all along: the buffer is within the capacity
    of the channel; the channel is closed exactly when the producer has
    finished; a payload with an error is the last of the buffer, and the
    producer is then past its last send; the select sends payloads without
    an error and the last send one with an error. *)
Definition preloading_inv (p : Preloading.preloadingSetIterator U T) : Prop :=
  (length (Preloading.ch_buf (Preloading.preloaded p))
   <= Preloading.ch_cap (Preloading.preloaded p))%nat /\
  (Preloading.ch_closed (Preloading.preloaded p) = true
   <-> Preloading.goroutine p = Preloading.Finished) /\
  (forall i v,
     Preloading.ch_buf (Preloading.preloaded p) !! i = Some v ->
     Preloading.perr v <> None ->
     S i = length (Preloading.ch_buf (Preloading.preloaded p)) /\ winding_down p) /\
  (forall v, Preloading.goroutine p = Preloading.AtSelect v ->
             Preloading.perr v = None) /\
  (forall v, Preloading.goroutine p = Preloading.AtSendErr v ->
             Preloading.perr v <> None).

(** Nothing is left to receive and nothing will be sent. *)
Definition drained (p : Preloading.preloadingSetIterator U T) : Prop :=
  Preloading.ch_buf (Preloading.preloaded p) = [] /\ winding_down p.


End PreloadingInvariant.

(** *** Chunk fidelity *)

(** The cells of the series slice exist. *)
Definition entries_valid (w : world) (ser : slice) : Prop :=
  exists le arr,
    s_ptr ser = Some le /\ entryHeap w !! le = Some arr /\
    (s_off ser + s_len ser <= length arr)%nat.

(** The cells of the chunk slice exist. *)
Definition chunks_valid (w : world) (rg : slice) : Prop :=
  exists l arr,
    s_ptr rg = Some l /\ chunkHeap w !! l = Some arr /\
    (s_off rg + s_len rg <= length arr)%nat.

(** The series entry [en], read in the world [w], is the conversion of the
    series of references [s]: the same label set, as many chunks as there
    are references, each with the times of its reference. *)
Definition entry_converts (w : world) (s : seriesChunkRefs) (en : seriesEntry) : Prop :=
  lset en = refs_lset s /\
  len (chks en) = Z.of_nat (length (chunks s)) /\
  forall j c, chunks s !! j = Some c ->
    MinTime (read_chunk w (chks en) j) = minTime c /\
    MaxTime (read_chunk w (chks en) j) = maxTime c.

(** The writes of [load] stay inside the batch [ss]: each goes to a chunk of
    one of its series. *)
Definition loaded_in_range (ss : list seriesChunkRefs) (ls : list Loading.loadedChunk)
  : Prop :=
  Forall (fun l => exists s, ss !! Loading.l_series l = Some s /\
                             (Loading.l_chunk l < length (chunks s))%nat) ls.

(** * Concrete inputs *)

(** A batch of two series, with two references and one. *)
Definition sample_refs : seriesChunkRefsSet :=
  mkSeriesChunkRefsSet
    [mkSeriesChunkRefs (Slice (Some 7%positive) 0 2 2)
       [mkSeriesChunkRef "b1" 10 100 200; mkSeriesChunkRef "b1" 11 201 300];
     mkSeriesChunkRefs (Slice (Some 8%positive) 0 1 1)
       [mkSeriesChunkRef "b2" 12 50 60]] true.

Definition sample_loader : Loading.loadingSeriesChunksSetIterator listRefs planReaders :=
  Loading.newLoadingSeriesChunksSetIterator (mkPlanReaders [])
    (mkListRefs [sample_refs] (mkSeriesChunkRefsSet [] false) None false) 1.

(** The loader and the world after the first [Next]. *)
Definition sample_loaded
  : Loading.loadingSeriesChunksSetIterator listRefs planReaders * world :=
  match Loading.Next sample_loader emptyWorld with
  | Some ((_, c1), w1) => (c1, w1)
  | None => (sample_loader, emptyWorld)
  end.

(** A loader whose upstream has nothing and ends with an error. *)
Definition drained_loader : Loading.loadingSeriesChunksSetIterator listRefs planReaders :=
  Loading.newLoadingSeriesChunksSetIterator (mkPlanReaders [])
    (mkListRefs [] (mkSeriesChunkRefsSet [] false) (Some (ErrNew "upstream")) false) 1.

Definition drained_loaded
  : Loading.loadingSeriesChunksSetIterator listRefs planReaders * world :=
  match Loading.Next drained_loader emptyWorld with
  | Some ((_, c1), w1) => (c1, w1)
  | None => (drained_loader, emptyWorld)
  end.

(** A world whose pool of series slices holds one slice, of capacity 2,
    which the next [Get] returns. *)
Definition pooled_world : world :=
  mkWorld (<[1%positive := replicate 2 zeroSeriesEntry]> ∅) ∅
    [Slice (Some 1%positive) 0 0 2] [] [Some 0%nat] 1%positive [].

(** A releasable set that has no slab pool yet. *)
Definition releasable_set : seriesChunksSet :=
  mkSeriesChunksSet nil_slice true None None.


Definition sample_adapter : SeriesSet.seriesChunksSeriesSet listSets :=
  SeriesSet.newSeriesChunksSeriesSet
    (mkListSets [] zeroSeriesChunksSet None false).

(** A batch with a reference into a block that is not known: [addLoad]
    fails on it. *)
Definition failing_refs : seriesChunkRefsSet :=
  mkSeriesChunkRefsSet
    [mkSeriesChunkRefs (Slice (Some 7%positive) 0 2 2)
       [mkSeriesChunkRef "b1" 10 100 200; mkSeriesChunkRef "" 11 201 300]] true.

Definition failing_loader : Loading.loadingSeriesChunksSetIterator listRefs planReaders :=
  Loading.newLoadingSeriesChunksSetIterator (mkPlanReaders [])
    (mkListRefs [failing_refs] (mkSeriesChunkRefsSet [] false) None false) 1.

(** A cache whose server meets every round trip with [met]. *)
Definition sample_cache (met : Cache.roundTrip) : Cache.MemcachedCache Cache.memcachedClient :=
  Cache.mkMemcachedCache (Cache.mkMemcachedClient 0 (fun _ => met)) "chunks" 0 0.

Definition sample_items : gmap string bytes :=
  <["a" := [Byte.x01]]> (<["b" := [Byte.x02]]> (<["z" := [Byte.x03]]> ∅)).

Definition numbers_upstream : listNumbers :=
  mkListNumbers [7] 0 (Some (ErrNew "upstream")) false.

(** One step of the producer, and one [Next] of the consumer, of an
    iterator that is there. *)
Definition produce (p : option (Preloading.preloadingSetIterator listNumbers Z))
  : option (Preloading.preloadingSetIterator listNumbers Z) :=
  match p with
  | Some p => Preloading.preload_step 0 p
  | None => None
  end.

Definition consume (p : option (Preloading.preloadingSetIterator listNumbers Z))
  : option (bool * Preloading.preloadingSetIterator listNumbers Z) :=
  match p with
  | Some p => Preloading.Next p
  | None => None
  end.

(** * More of the pipeline

    ** The preloading iterator and its upstream *)

Section PreloadingOrder.
Context {U T : Type} `{Preloading.genericIterator U T} (zeroT : T).

(** The upstream after [k] calls of its [Next]. *)
Fixpoint upstream_after (u : U) (k : nat) : U :=
  match k with
  | O => u
  | S k' => upstream_after (snd (Preloading.gi_Next u)) k'
  end.

(** What a loop [for from.Next() { ... from.At() ... }] sees of the
    upstream in its first [k] rounds: [At] after each [Next], up to the
    first [Next] that is false. *)
Fixpoint upstream_values (u : U) (k : nat) : list T :=
  match k with
  | O => []
  | S k' =>
      let (ok, u') := Preloading.gi_Next u in
      if ok then Preloading.gi_At u' :: upstream_values u' k' else []
  end.

(** [preloadedSeriesChunksSet[Set]{set: p.from.At()}]. *)
Definition value_payload (t : T) : Preloading.preloadedSeriesChunksSet T :=
  Preloading.mkPreloaded t None.

(** [preloadedSeriesChunksSet[Set]{err: p.from.Err()}]. *)
Definition error_payload (u : U) : Preloading.preloadedSeriesChunksSet T :=
  Preloading.mkPreloaded zeroT (Preloading.gi_Err u).

(** The payload the consumer took last, if any. *)
Definition last_set (received : list (Preloading.preloadedSeriesChunksSet T)) : T :=
  default zeroT (Preloading.set <$> last received).

Definition last_err (received : list (Preloading.preloadedSeriesChunksSet T)) : error :=
  default None (Preloading.perr <$> last received).

(** How the iterator stands to its upstream, which was [from0] when the
    iterator was made: [k] values have gone into the channel, the first [k]
    of the upstream, and the consumer has taken [received] of what went
    into the channel. *)
Definition order_inv (from0 : U) (p : Preloading.preloadingSetIterator U T) : Prop :=
  exists (k : nat) (received : list (Preloading.preloadedSeriesChunksSet T)),
    Preloading.sent p = received ++ Preloading.ch_buf (Preloading.preloaded p) /\
    length (upstream_values from0 k) = k /\
    Preloading.current p = last_set received /\
    Preloading.err p = last_err received /\
    match Preloading.goroutine p with
    | Preloading.AtNext =>
        Preloading.sent p = value_payload <$> upstream_values from0 k /\
        Preloading.from p = upstream_after from0 k
    | Preloading.AtSelect v =>
        Preloading.sent p = value_payload <$> upstream_values from0 k /\
        Preloading.gi_Next (upstream_after from0 k) = (true, Preloading.from p) /\
        v = value_payload (Preloading.gi_At (Preloading.from p))
    | Preloading.AtSendErr v =>
        Preloading.sent p = value_payload <$> upstream_values from0 k /\
        Preloading.gi_Next (upstream_after from0 k) = (false, Preloading.from p) /\
        v = error_payload (Preloading.from p) /\
        Preloading.gi_Err (Preloading.from p) <> None
    | Preloading.AtClose | Preloading.Finished =>
        Preloading.from p = snd (Preloading.gi_Next (upstream_after from0 k)) /\
        (Preloading.sent p = value_payload <$> upstream_values from0 k \/
         (Preloading.sent p
          = (value_payload <$> upstream_values from0 k) ++ [error_payload (Preloading.from p)] /\
          fst (Preloading.gi_Next (upstream_after from0 k)) = false /\
          Preloading.gi_Err (Preloading.from p) <> None))
    end.

(** What the producer can do when the consumer does not receive: its own
    steps, the [ctx.Done()] branch of its select, and the caller cancelling
    the context. *)
Inductive unattended
  : Preloading.preloadingSetIterator U T -> Preloading.preloadingSetIterator U T -> Prop :=
| unattended_refl p : unattended p p
| unattended_preload p q r :
    unattended p q -> Preloading.preload_step zeroT q = Some r -> unattended p r
| unattended_ctxDone p q r :
    unattended p q -> Preloading.preload_ctxDone q = Some r -> unattended p r
| unattended_cancel p q : unattended p q -> unattended p (Preloading.cancel q).
End PreloadingOrder.

(** ** Runs of the series adapter *)

Section AdapterRuns.
Context {U : Type} `{SeriesSet.seriesChunksSetIterator U}.

(** [k] calls of [Next] in a row, as long as they are true. *)
Fixpoint Next_times (k : nat) (b : SeriesSet.seriesChunksSeriesSet U)
  : M (bool * SeriesSet.seriesChunksSeriesSet U) :=
  match k with
  | O => ret (true, b)
  | S k' =>
      exec r <~ SeriesSet.Next b ;;;
      if fst r then Next_times k' (snd r) else ret r
  end.

(** The law of an exhausted iterator, for an iterator of chunk-sets: a
    [Next] that follows a false [Next], in whatever world, is false and
    leaves [Err] as it is. *)
Definition sets_exhaustion_law : Prop :=
  forall (u u1 : U) (w w1 : world),
    SeriesSet.it_Next u w = Some ((false, u1), w1) ->
    forall w', exists u2 w2,
      SeriesSet.it_Next u1 w' = Some ((false, u2), w2) /\
      SeriesSet.it_Err u2 = SeriesSet.it_Err u1.
End AdapterRuns.

Arguments sets_exhaustion_law U {_}.

(** ** What the loader asks of the chunk readers *)

Section LoadPlan.
Context {R : Type} `{Loading.bucketChunkReaders R}.

(** [addLoad] for the references [cs] of series [i], from chunk [j] on, one
    after the other, up to the first that fails. *)
Fixpoint addLoads_chunks (i : nat) (cs : list seriesChunkRef) (j : nat) (r : R)
  : error * R :=
  match cs with
  | [] => (None, r)
  | chunk :: cs' =>
      let (e, r') := Loading.readers_addLoad (blockID chunk) (ref chunk) i j r in
      match e with
      | Some _ => (e, r')
      | None => addLoads_chunks i cs' (S j) r'
      end
  end.

(** The same for the series [ss] of a batch, from series [i] on. *)
Fixpoint addLoads_series (ss : list seriesChunkRefs) (i : nat) (r : R) : error * R :=
  match ss with
  | [] => (None, r)
  | s :: ss' =>
      let (e, r') := addLoads_chunks i (chunks s) 0 r in
      match e with
      | Some _ => (e, r')
      | None => addLoads_series ss' (S i) r'
      end
  end.
End LoadPlan.

(** ** The memcached cache adapter: [Store], and [Fetch] again and again *)

Module CacheStore.

(** The part of the [RemoteCacheClient] interface that [Store] uses; the
    context is left to the client, [ttl] is a [time.Duration]. *)
Class RemoteCacheSetter (C : Type) : Type := {
  SetAsync : C -> string -> bytes -> Z -> error * C
}.

(** The line that [Store] logs at the warning level. *)
Record warning : Type := mkWarning {
  msg : string;
  failed : Z;
  firstErr : errorValue
}.

Section Store.
Context {C : Type} `{RemoteCacheSetter C}.

(** [for key, val := range data { ... }], over the entries in the order
    [order] in which the range visits them. *)
Fixpoint store_loop (order : list (string * bytes)) (ttl : Z) (cl : C)
    (firstErr : error) (failed : Z) : C * error * Z :=
  match order with
  | [] => (cl, firstErr, failed)
  | (key, val) :: rest =>
      let (err, cl') := SetAsync cl key val ttl in
      match err with
      | Some _ =>
          store_loop rest ttl cl'
            (match firstErr with None => err | Some _ => firstErr end)
            (int_add failed 1)
      | None => store_loop rest ttl cl' firstErr failed
      end
  end.

(** [Store] returns nothing; what comes out of it is the state of the
    client and the line logged, if any. The order of a range over a map is
    up to the runtime: [order] is the one taken. *)
Definition Store (c : Cache.MemcachedCache C) (order : list (string * bytes)) (ttl : Z)
  : Cache.MemcachedCache C * option warning :=
  let '(cl, firstErr, failed) := store_loop order ttl (Cache.memcached c) None 0 in
  (Cache.mkMemcachedCache cl (Cache.name c) (Cache.requests c) (Cache.hits c),
   match firstErr with
   | Some e =>
       Some (mkWarning "failed to store one or more items into memcached" failed e)
   | None => None
   end).

(** What the calls of [SetAsync] return, one after the other. *)
Fixpoint set_results (order : list (string * bytes)) (ttl : Z) (cl : C) : list error :=
  match order with
  | [] => []
  | (key, val) :: rest =>
      let (err, cl') := SetAsync cl key val ttl in
      err :: set_results rest ttl cl'
  end.
End Store.

Section FetchAll.
Context {C : Type} `{Cache.RemoteCacheClient C}.

(** One [Fetch] for each list of keys, one after the other. *)
Fixpoint Fetch_all (c : Cache.MemcachedCache C) (batches : list (list string))
  : list (gmap string bytes) * Cache.MemcachedCache C :=
  match batches with
  | [] => ([], c)
  | keys :: rest =>
      let (result, c1) := Cache.Fetch c keys in
      let (results, c2) := Fetch_all c1 rest in
      (result :: results, c2)
  end.
End FetchAll.

End CacheStore.

(** ** The duration measuring iterator *)

Module Measuring.
Section Measuring.
Context {U T : Type} `{Preloading.genericIterator U T}.

(** The iterator with its observer and the clock it reads. What the
    observer has been given is kept as the list of the durations observed,
    each a [time.Duration], of which [Observe] gets the seconds; the clock
    is the readings it shows, in nanoseconds, one after the other, and the
    number of readings made so far. *)
Record durationMeasuringIterator : Type := mkMeasuring {
  from : U;
  durationObserver : list Z;
  clock : nat -> Z;
  readings : nat
}.

Definition newDurationMeasuringIterator (from : U) (durationObserver : list Z)
    (clock : nat -> Z) (readings : nat) : durationMeasuringIterator :=
  mkMeasuring from durationObserver clock readings.

Definition Next (m : durationMeasuringIterator) : bool * durationMeasuringIterator :=
  let start := clock m (readings m) in
  let (next, from') := Preloading.gi_Next (from m) in
  let since := clock m (S (readings m)) - start in
  (next, mkMeasuring from' (durationObserver m ++ [since]) (clock m) (S (S (readings m)))).

Definition At (m : durationMeasuringIterator) : T := Preloading.gi_At (from m).

Definition Err (m : durationMeasuringIterator) : error := Preloading.gi_Err (from m).

(** [newDurationMeasuringIterator] returns a [genericIterator]. *)
#[global] Instance durationMeasuringIterator_iterator
  : Preloading.genericIterator durationMeasuringIterator T :=
  {| Preloading.gi_Next := Next;
     Preloading.gi_At := At;
     Preloading.gi_Err := Err |}.

(** The clock does not go back: [time.Since] is on the monotonic clock. *)
Definition monotonic (clock : nat -> Z) : Prop :=
  forall i, clock i <= clock (S i).
End Measuring.

Arguments durationMeasuringIterator U : clear implicits.
End Measuring.

(** ** Concrete runs of the preloading iterator *)

(** The iterator over [numbers_upstream], with room for one payload. *)
Definition numbers_p0 : Preloading.preloadingSetIterator listNumbers Z :=
  Preloading.mkPreloading false numbers_upstream 0
    (Preloading.mkChan 1 [] false) None Preloading.AtNext [].

Definition after_produce (p : Preloading.preloadingSetIterator listNumbers Z)
  : Preloading.preloadingSetIterator listNumbers Z :=
  default p (Preloading.preload_step 0 p).

Definition after_consume (p : Preloading.preloadingSetIterator listNumbers Z)
  : Preloading.preloadingSetIterator listNumbers Z :=
  default p (snd <$> Preloading.Next p).

(** The producer takes 7 from the upstream, buffers it and finds the
    upstream at its end, with an error. *)
Definition numbers_p3 : Preloading.preloadingSetIterator listNumbers Z :=
  after_produce (after_produce (after_produce numbers_p0)).

(** The consumer takes 7, the producer sends the error, the consumer takes
    it. *)
Definition numbers_p6 : Preloading.preloadingSetIterator listNumbers Z :=
  after_consume (after_produce (after_consume numbers_p3)).

(** ** The series adapter over the loading iterator *)

(** The loading iterator is a [seriesChunksSetIterator]. *)
#[global] Instance loadingSeriesChunksSetIterator_iterator {U R : Type}
    `{Loading.seriesChunkRefsSetIterator U} `{Loading.bucketChunkReaders R}
  : SeriesSet.seriesChunksSetIterator (Loading.loadingSeriesChunksSetIterator U R) :=
  {| SeriesSet.it_Next := Loading.Next;
     SeriesSet.it_At := Loading.At;
     SeriesSet.it_Err := Loading.Err |}.

(** ** The helpers of the index-header benchmarks
    ([pkg/storegateway/indexheader/reader_benchmarks_test.go]) *)

From stdpp Require Import pretty.
Local Open Scope Z_scope.

(** [fmt.Sprintf("%v-%v", prefix, idx)], for a string and an [int]: the
    string, a dash, the integer in decimal. *)
Definition Sprintf_v_dash_v (prefix : string) (idx : Z) : string :=
  prefix +:+ "-" +:+ pretty idx.

(** The loop [for idx := 0; idx < count; idx++] from [idx] on, with [todo]
    rounds to go. *)
Fixpoint generateSymbols_loop (prefix : string) (idx : Z) (todo : nat) (s : list string)
  : list string :=
  match todo with
  | O => s
  | S todo' =>
      generateSymbols_loop prefix (int_add idx 1) todo' (s ++ [Sprintf_v_dash_v prefix idx])
  end.

(** [make([]string, 0, count)] panics on a negative [count]; the slice
    returned never outgrows this capacity. *)
Definition generateSymbols (prefix : string) (count : Z) : option (list string) :=
  if count <? 0 then None
  else Some (generateSymbols_loop prefix 0 (Z.to_nat count) []).

(** A [labels.Label] and [labels.Labels]; [labels.FromStrings(name, value)]
    is the label set with this one label. *)
Record Label : Type := mkLabel {
  Name : string;
  Value : string
}.

Definition Labels : Type := list Label.

Definition labels_FromStrings (name value : string) : Labels := [mkLabel name value].

Fixpoint generateLabels_values (name : string) (values : list string) (l : list Labels)
  : list Labels :=
  match values with
  | [] => l
  | value :: rest => generateLabels_values name rest (l ++ [labels_FromStrings name value])
  end.

Fixpoint generateLabels_names (names values : list string) (l : list Labels)
  : list Labels :=
  match names with
  | [] => l
  | name :: rest => generateLabels_names rest values (generateLabels_values name values l)
  end.

(** The capacity asked of [make] is the product of two [int]s. *)
Definition generateLabels (names values : list string) : option (list Labels) :=
  if int_wrap (Z.of_nat (length names) * Z.of_nat (length values)) <? 0 then None
  else Some (generateLabels_names names values []).

Section ReverseLookup.
(** [reader.symbols.ReverseLookup], which is not in the sources at hand: the
    index of a symbol, or an error. *)
Variable ReverseLookup : string -> N + errorValue.

(** [require.NoError] ends the benchmark on an error: nothing is returned. *)
Fixpoint reverseLookup_loop (symbols : list string) (i : list N) (m : gmap N string)
  : option (list N * gmap N string) :=
  match symbols with
  | [] => Some (i, m)
  | s :: rest =>
      match ReverseLookup s with
      | inr _ => None
      | inl idx => reverseLookup_loop rest (i ++ [idx]) (<[idx := s]> m)
      end
  end.

Definition reverseLookup (symbols : list string) : option (list N * gmap N string) :=
  reverseLookup_loop symbols [] ∅.
End ReverseLookup.

(** ** More concrete inputs *)

(** The series adapter on the batch that the sample loader has published,
    before the first entry is passed. *)
Definition walking_adapter : SeriesSet.seriesChunksSeriesSet listSets :=
  SeriesSet.mkSeriesChunksSeriesSet (mkListSets [] zeroSeriesChunksSet None false)
    (Loading.At (fst sample_loaded)) 0.

(** The world of the sample loader after its first [Next], where the next
    [Get] on the pool of series slices picks the first slice put there. *)
Definition loaded_world : world :=
  set_poolChoices [Some 0%nat] (snd sample_loaded).

(** A client that cannot store an empty value, and keeps the rest. *)
Record keepingClient : Type := mkKeepingClient {
  kept : list (string * bytes)
}.

Definition keepingClient_SetAsync (cl : keepingClient) (key : string) (val : bytes)
    (ttl : Z) : error * keepingClient :=
  match val with
  | [] => (Some (ErrNew "empty item"), cl)
  | _ => (None, mkKeepingClient (kept cl ++ [(key, val)]))
  end.

#[export] Instance keepingClient_setter : CacheStore.RemoteCacheSetter keepingClient :=
  {| CacheStore.SetAsync := keepingClient_SetAsync |}.

Definition keeping_cache : Cache.MemcachedCache keepingClient :=
  Cache.mkMemcachedCache (mkKeepingClient []) "chunks" 0 0.

Definition sample_data : gmap string bytes :=
  <["a" := [Byte.x01]]> (<["b" := []]> (<["c" := []]> ∅)).

(** The upstream of numbers, measured by a clock that ticks once a reading. *)
Definition measured_numbers : Measuring.durationMeasuringIterator listNumbers :=
  Measuring.newDurationMeasuringIterator numbers_upstream [] Z.of_nat 0.

Definition measured_p0
  : Preloading.preloadingSetIterator (Measuring.durationMeasuringIterator listNumbers) Z :=
  Preloading.mkPreloading false measured_numbers 0
    (Preloading.mkChan 0 [] false) None Preloading.AtNext [].

(** The producer has called the upstream once. *)
Definition measured_p1
  : Preloading.preloadingSetIterator (Measuring.durationMeasuringIterator listNumbers) Z :=
  default measured_p0 (Preloading.preload_step 0 measured_p0).

(** The series adapter on the last entry of the batch that the sample loader
    has published. *)
Definition leaving_adapter : SeriesSet.seriesChunksSeriesSet listSets :=
  SeriesSet.mkSeriesChunksSeriesSet (mkListSets [] zeroSeriesChunksSet None false)
    (Loading.At (fst sample_loaded))
    (seriesChunksSet_len (Loading.At (fst sample_loaded)) - 1).

(** * Properties *)

(** ** The monad and the stores *)

Lemma bind_Some {A B : Type} (m : M A) (k : A -> M B) (w : world) (r : B * world) :
  bind m k w = Some r <-> exists a w', m w = Some (a, w') /\ k a w' = Some r.
Proof.
  unfold bind. destruct (m w) as [[a w']|].
  - split; [intros Hk; eauto | intros (a0 & w0 & Heq & Hk); congruence].
  - split; [discriminate | intros (a0 & w0 & Heq & _); discriminate].
Qed.

Lemma bind_ret_eq {A B : Type} (m : M A) (k : A -> M B) (w w' : world) (a : A) :
  m w = Some (a, w') -> bind m k w = k a w'.
Proof. intros Hm. unfold bind. now rewrite Hm. Qed.

Lemma reslice_0 (s : slice) : reslice s 0 = Some (truncated s).
Proof.
  unfold reslice, truncated, cap. simpl.
  destruct (0 <=? Z.of_nat (s_cap s)) eqn:E; [reflexivity | apply Z.leb_gt in E; lia].
Qed.

Lemma flat_map_ext_seq {B : Type} (f g : nat -> list B) (i n : nat) :
  (forall k, (i <= k < i + n)%nat -> f k = g k) ->
  flat_map f (seq i n) = flat_map g (seq i n).
Proof.
  revert i. induction n as [|n IH]; intros i Hfg; simpl; [reflexivity|].
  rewrite Hfg by lia. f_equal. apply IH. intros k Hk. apply Hfg. lia.
Qed.

Section HeapFacts.
Context {A : Type} (zero : A).

Lemma heap_read_write_zero (h : gmap loc (list A)) (s : slice) (i : nat) :
  heap_read zero (heap_write h s i zero) s i = zero.
Proof.
  unfold heap_read, heap_write. destruct (s_ptr s) as [l|]; [|reflexivity].
  rewrite lookup_alter. destruct (decide (l = l)) as [_|]; [|congruence].
  destruct (h !! l) as [arr|]; simpl; [|reflexivity].
  destruct (decide (s_off s + i < length arr)%nat) as [Hlt|Hge].
  - now rewrite list_lookup_insert_eq.
  - rewrite list_insert_ge by lia.
    rewrite (proj2 (lookup_ge_None arr (s_off s + i)%nat)) by lia. reflexivity.
Qed.

Lemma heap_read_write_eq (h : gmap loc (list A)) (s : slice) (i : nat) (v : A) (arr : list A) (l : loc) :
  s_ptr s = Some l -> h !! l = Some arr -> (s_off s + i < length arr)%nat ->
  heap_read zero (heap_write h s i v) s i = v.
Proof.
  intros Hp Hl Hi. unfold heap_read, heap_write. rewrite Hp.
  rewrite lookup_alter. destruct (decide (l = l)) as [_|]; [|congruence].
  rewrite Hl. simpl. now rewrite list_lookup_insert_eq.
Qed.

(** A write leaves every other cell as it is. *)
Lemma heap_read_write_other (h : gmap loc (list A)) (s s' : slice) (i j : nat) (v : A) :
  (s_ptr s <> s_ptr s' \/ (s_off s + i)%nat <> (s_off s' + j)%nat) ->
  heap_read zero (heap_write h s i v) s' j = heap_read zero h s' j.
Proof.
  intros Hne. unfold heap_read, heap_write.
  destruct (s_ptr s') as [l'|]; [|reflexivity].
  destruct (s_ptr s) as [l|]; [|reflexivity].
  rewrite lookup_alter. destruct (decide (l = l')) as [->|Hl]; [|reflexivity].
  destruct Hne as [Hne|Hne]; [congruence|].
  destruct (h !! l') as [arr|]; simpl; [|reflexivity].
  now rewrite list_lookup_insert_ne.
Qed.

(** Writing the zero value keeps the cells that read as zero. *)
Lemma heap_write_zero_keeps_zero (h : gmap loc (list A)) (s s' : slice) (i j : nat) :
  heap_read zero h s' j = zero ->
  heap_read zero (heap_write h s i zero) s' j = zero.
Proof.
  intros Hz.
  destruct (decide (s_ptr s = s_ptr s' /\ (s_off s + i)%nat = (s_off s' + j)%nat))
    as [[Hp Ho]|Hne].
  - unfold heap_read, heap_write. rewrite <- Hp.
    destruct (s_ptr s) as [l|]; [|reflexivity].
    rewrite lookup_alter. destruct (decide (l = l)) as [_|]; [|congruence].
    destruct (h !! l) as [arr|]; simpl; [|reflexivity].
    rewrite <- Ho.
    destruct (decide (s_off s + i < length arr)%nat) as [Hlt|Hge].
    + now rewrite list_lookup_insert_eq.
    + rewrite list_insert_ge by lia.
      rewrite (proj2 (lookup_ge_None arr (s_off s + i)%nat)) by lia. reflexivity.
  - rewrite heap_read_write_other; [exact Hz|].
    destruct (decide (s_ptr s = s_ptr s')); [right|left]; [|assumption].
    intros Ho. apply Hne. split; assumption.
Qed.

Lemma heap_make_fresh (h : gmap loc (list A)) (n c : nat) :
  exists l, s_ptr (fst (heap_make zero h n c)) = Some l /\ h !! l = None /\
            snd (heap_make zero h n c) = <[l := replicate c zero]> h.
Proof.
  exists (fresh (dom h)). unfold heap_make. simpl. split; [reflexivity|].
  split; [|reflexivity]. apply not_elem_of_dom. apply is_fresh.
Qed.
End HeapFacts.

(** ** release *)

Lemma same_pools_refl (w : world) : same_pools w w.
Proof. repeat split. Qed.

Lemma same_pools_trans (w1 w2 w3 : world) :
  same_pools w1 w2 -> same_pools w2 w3 -> same_pools w1 w3.
Proof.
  intros (a1 & a2 & a3 & a4) (b1 & b2 & b3 & b4).
  repeat split; congruence.
Qed.

Lemma reset_chunks_spec (chks : slice) (n : nat) : forall (c : nat) (w : world),
  exists w',
    reset_chunks chks c n w = Some (tt, w') /\
    trace w' = trace w
               ++ map (fun k => EvChunkReset (s_ptr chks) (s_off chks + k)) (seq c n) /\
    entryHeap w' = entryHeap w /\
    same_pools w w' /\
    (forall k, (c <= k < c + n)%nat -> read_chunk w' chks k = zeroAggrChunk) /\
    (forall s j, read_chunk w s j = zeroAggrChunk -> read_chunk w' s j = zeroAggrChunk).
Proof.
  induction n as [|n IH]; intros c w.
  - exists w. simpl. rewrite app_nil_r.
    repeat split; try reflexivity; [intros k Hk; lia | auto].
  - simpl.
    set (w1 := log (EvChunkReset (s_ptr chks) (s_off chks + c)) w).
    set (w2 := set_chunkHeap
                 (heap_write (chunkHeap w1) chks c
                    (AggrChunk_Reset (read_chunk w1 chks c))) w1).
    destruct (IH (S c) w2) as (w' & Hrun & Htr & Heh & Hsp & Hz & Hkeep).
    exists w'. split; [exact Hrun|].
    split; [rewrite Htr; simpl; now rewrite <- app_assoc|].
    split; [rewrite Heh; reflexivity|].
    split; [eapply same_pools_trans; [|exact Hsp]; repeat split|].
    split.
    + intros k Hk. destruct (decide (k = c)) as [->|Hne].
      * apply Hkeep. unfold read_chunk, w2. simpl.
        apply heap_read_write_zero.
      * apply Hz. lia.
    + intros s j Hs. apply Hkeep. unfold read_chunk, w2. simpl.
      apply heap_write_zero_keeps_zero. exact Hs.
Qed.

Lemma release_entries_spec (ser : slice) (n : nat) : forall (i : nat) (w : world),
  exists w',
    release_entries ser i n w = Some (tt, w') /\
    trace w' = trace w
               ++ flat_map (fun k => reset_events (chks (read_entry w ser k))) (seq i n) /\
    same_pools w w' /\
    (forall k, (i <= k < i + n)%nat -> read_entry w' ser k = zeroSeriesEntry) /\
    (forall k, (k < i \/ i + n <= k)%nat -> read_entry w' ser k = read_entry w ser k) /\
    (forall k c, (i <= k < i + n)%nat -> (c < s_len (chks (read_entry w ser k)))%nat ->
                 read_chunk w' (chks (read_entry w ser k)) c = zeroAggrChunk) /\
    (forall s j, read_chunk w s j = zeroAggrChunk -> read_chunk w' s j = zeroAggrChunk).
Proof.
  induction n as [|n IH]; intros i w.
  - exists w. simpl. rewrite app_nil_r.
    repeat split; try reflexivity; try (intros; lia); auto.
  - simpl. unfold bind at 1. unfold gets at 1.
    set (e := read_entry w ser i).
    destruct (reset_chunks_spec (chks e) (s_len (chks e)) 0 w)
      as (w1 & Hrun1 & Htr1 & Heh1 & Hsp1 & Hz1 & Hkeep1).
    rewrite (bind_ret_eq _ _ _ _ _ Hrun1).
    unfold bind at 1. unfold write_entry, modify.
    set (w2 := set_entryHeap (heap_write (entryHeap w1) ser i zeroSeriesEntry) w1).
    destruct (IH (S i) w2) as (w' & Hrun & Htr & Hsp & Hz & Hother & Hcz & Hkeep).
    assert (Hread2 : forall k, k <> i -> read_entry w2 ser k = read_entry w ser k).
    { intros k Hk. unfold read_entry, w2. simpl.
      rewrite heap_read_write_other by (right; lia). now rewrite Heh1. }
    exists w'. split; [exact Hrun|].
    split.
    { rewrite Htr. unfold w2 at 1. simpl. rewrite Htr1. rewrite <- app_assoc.
      f_equal. unfold reset_events at 2. fold e. f_equal.
      apply flat_map_ext_seq. intros k Hk.
      rewrite Hread2 by lia. reflexivity. }
    split.
    { eapply same_pools_trans; [exact Hsp1|].
      eapply same_pools_trans; [|exact Hsp]. repeat split. }
    split.
    { intros k Hk. destruct (decide (k = i)) as [->|Hne].
      - rewrite Hother by lia. unfold read_entry, w2. simpl.
        apply heap_read_write_zero.
      - apply Hz. lia. }
    split.
    { intros k Hk. rewrite Hother by lia. apply Hread2. lia. }
    split.
    { intros k c Hk Hc. destruct (decide (k = i)) as [->|Hne].
      - apply Hkeep. unfold read_chunk, w2. simpl. fold (read_chunk w1 (chks e) c).
        apply Hz1. fold e in Hc. lia.
      - rewrite <- (Hread2 k Hne). apply Hcz; [lia|]. now rewrite Hread2. }
    { intros s j Hs. apply Hkeep. unfold read_chunk, w2. simpl.
      apply Hkeep1. exact Hs. }
Qed.

Lemma put_slabs_spec (l : list slice) : forall (w : world),
  exists w',
    put_slabs l w = Some (tt, w') /\
    trace w' = trace w ++ map EvPutSeriesChunksSlice l /\
    seriesChunksSlicePool w' = seriesChunksSlicePool w ++ l /\
    seriesEntrySlicePool w' = seriesEntrySlicePool w /\
    entryHeap w' = entryHeap w /\ chunkHeap w' = chunkHeap w /\
    poolChoices w' = poolChoices w /\ nextReleaser w' = nextReleaser w.
Proof.
  induction l as [|s l IH]; intros w.
  - exists w. simpl. rewrite !app_nil_r. repeat split.
  - simpl. unfold bind at 1. unfold seriesChunksSlicePool_Put, modify.
    set (w1 := log (EvPutSeriesChunksSlice s)
                 (set_seriesChunksSlicePool (seriesChunksSlicePool w ++ [s]) w)).
    destruct (IH w1) as (w' & Hrun & Htr & Hp & He & Heh & Hch & Hc & Hr).
    exists w'. split; [exact Hrun|].
    rewrite Htr, Hp, He, Heh, Hch, Hc, Hr. unfold w1. simpl.
    rewrite <- !app_assoc. repeat split.
Qed.

Lemma SlabPool_Release_spec (sp : SlabPool) (w : world) :
  exists w',
    SlabPool_Release sp w = Some (mkSlabPool (slabSize sp) [], w') /\
    trace w' = trace w ++ EvSlabPoolRelease :: map EvPutSeriesChunksSlice (slabs sp) /\
    seriesChunksSlicePool w' = seriesChunksSlicePool w ++ slabs sp /\
    seriesEntrySlicePool w' = seriesEntrySlicePool w /\
    entryHeap w' = entryHeap w /\ chunkHeap w' = chunkHeap w /\
    poolChoices w' = poolChoices w /\ nextReleaser w' = nextReleaser w.
Proof.
  unfold SlabPool_Release. unfold bind at 1. unfold modify at 1.
  destruct (put_slabs_spec (slabs sp) (log EvSlabPoolRelease w))
    as (w' & Hrun & Htr & Hp & He & Heh & Hch & Hc & Hr).
  exists w'. rewrite (bind_ret_eq _ _ _ _ _ Hrun).
  split; [reflexivity|].
  rewrite Htr, Hp, He, Heh, Hch, Hc, Hr. simpl. rewrite <- app_assoc.
  repeat split.
Qed.

Lemma release_run (b : seriesChunksSet) (w : world) :
  exists w',
    release b w
    = Some (if seriesReleasable b
            then with_seriesChunksPool
                   (option_map (fun sp => mkSlabPool (slabSize sp) []) (seriesChunksPool b)) b
            else b, w') /\
    trace w' = trace w ++ release_events w b /\
    poolChoices w' = poolChoices w /\ nextReleaser w' = nextReleaser w /\
    if seriesReleasable b then released w b w'
    else entryHeap w' = entryHeap w /\ chunkHeap w' = chunkHeap w /\
         seriesEntrySlicePool w' = seriesEntrySlicePool w /\
         seriesChunksSlicePool w' = seriesChunksSlicePool w.
Proof.
  unfold release, release_events, releaser_events.
  set (w0 := match chunksReleaser b with
             | Some r => log (EvChunksRelease r) w
             | None => w
             end).
  assert (H0 : (match chunksReleaser b with
                | Some r => modify (log (EvChunksRelease r))
                | None => ret tt
                end) w = Some (tt, w0)).
  { unfold w0. destruct (chunksReleaser b); reflexivity. }
  rewrite (bind_ret_eq _ _ _ _ _ H0).
  assert (Htr0 : trace w0 = trace w ++ match chunksReleaser b with
                                      | Some r => [EvChunksRelease r]
                                      | None => []
                                      end).
  { unfold w0. destruct (chunksReleaser b); simpl; [reflexivity | now rewrite app_nil_r]. }
  assert (Hsame0 : entryHeap w0 = entryHeap w /\ chunkHeap w0 = chunkHeap w /\
                   seriesEntrySlicePool w0 = seriesEntrySlicePool w /\
                   seriesChunksSlicePool w0 = seriesChunksSlicePool w /\
                   poolChoices w0 = poolChoices w /\ nextReleaser w0 = nextReleaser w).
  { unfold w0. destruct (chunksReleaser b); repeat split. }
  destruct Hsame0 as (Heh0 & Hch0 & Hep0 & Hcp0 & Hc0 & Hr0).
  destruct (seriesReleasable b) eqn:Hrel.
  - destruct (release_entries_spec (series b) (s_len (series b)) 0 w0)
      as (w1 & Hrun1 & Htr1 & (Hep1 & Hcp1 & Hc1 & Hr1) & Hz1 & _ & Hcz1 & Hkeep1).
    rewrite (bind_ret_eq _ _ _ _ _ Hrun1).
    assert (Hre : forall k, read_entry w0 (series b) k = read_entry w (series b) k).
    { intros k. unfold read_entry. now rewrite Heh0. }
    assert (Hpool : exists w2,
      (match seriesChunksPool b with
       | Some sp => bind (SlabPool_Release sp) (fun sp' => ret (Some sp'))
       | None => ret None
       end) w1
      = Some (option_map (fun sp => mkSlabPool (slabSize sp) []) (seriesChunksPool b), w2) /\
      trace w2 = trace w1 ++ slab_events b /\
      seriesChunksSlicePool w2 = seriesChunksSlicePool w1 ++ slabs_of b /\
      seriesEntrySlicePool w2 = seriesEntrySlicePool w1 /\
      entryHeap w2 = entryHeap w1 /\ chunkHeap w2 = chunkHeap w1 /\
      poolChoices w2 = poolChoices w1 /\ nextReleaser w2 = nextReleaser w1).
    { unfold slab_events, slabs_of. destruct (seriesChunksPool b) as [sp|].
      - destruct (SlabPool_Release_spec sp w1) as (w2 & Hrun2 & Hrest).
        exists w2. rewrite (bind_ret_eq _ _ _ _ _ Hrun2). split; [reflexivity|exact Hrest].
      - exists w1. simpl. rewrite !app_nil_r. repeat split. }
    destruct Hpool as (w2 & Hrun2 & Htr2 & Hcp2 & Hep2 & Heh2 & Hch2 & Hc2 & Hr2).
    rewrite (bind_ret_eq _ _ _ _ _ Hrun2).
    rewrite reslice_0. simpl of_option. unfold bind at 1. unfold ret at 1.
    unfold bind at 1. unfold seriesEntrySlicePool_Put, modify.
    eexists. split; [reflexivity|]. simpl.
    split.
    { rewrite Htr2, Htr1, Htr0. rewrite <- !app_assoc. do 2 f_equal.
      unfold entries_events. f_equal.
      apply flat_map_ext. intros k. now rewrite Hre. }
    split; [now rewrite Hc2, Hc1|]. split; [now rewrite Hr2, Hr1|].
    unfold released. simpl.
    split; [|split]; [|now rewrite Hep2, Hep1, Hep0|now rewrite Hcp2, Hcp1, Hcp0].
    intros i Hi. split.
    + unfold read_entry. simpl. rewrite Heh2. apply Hz1. lia.
    + intros c Hc. unfold read_chunk. simpl. rewrite Hch2.
      rewrite <- Hre in *. apply Hcz1; [lia|exact Hc].
  - exists w0. split; [reflexivity|].
    split; [now rewrite Htr0, app_nil_r|].
    repeat split; assumption.
Qed.

(** C7. [release] first invokes the chunks releaser when there is one; then,
    for a releasable set only, it resets every chunk of every series entry,
    zeroes every entry, releases the slab pool when one was created and puts
    the series slice, cut to length zero with its capacity kept, back in the
    series-slice pool. After that every entry of the set reads as the zero
    entry. For a set that is not releasable, stores and pools are untouched. *)
Theorem release_in_order (b : seriesChunksSet) (w : world) :
  exists b' w',
    release b w = Some (b', w') /\
    series b' = series b /\
    trace w' = trace w ++ releaser_events b
               ++ (if seriesReleasable b
                   then entries_events w (series b) ++ slab_events b
                        ++ [EvPutSeriesEntrySlice (truncated (series b))]
                   else []) /\
    s_len (truncated (series b)) = 0%nat /\
    s_cap (truncated (series b)) = s_cap (series b) /\
    if seriesReleasable b then released w b w'
    else b' = b /\
         entryHeap w' = entryHeap w /\ chunkHeap w' = chunkHeap w /\
         seriesEntrySlicePool w' = seriesEntrySlicePool w /\
         seriesChunksSlicePool w' = seriesChunksSlicePool w.
Proof.
  destruct (release_run b w) as (w' & Hrun & Htr & _ & _ & Hpost).
  eexists. exists w'. split; [exact Hrun|].
  split; [destruct (seriesReleasable b); reflexivity|].
  split; [exact Htr|].
  split; [reflexivity|]. split; [reflexivity|].
  destruct (seriesReleasable b); [exact Hpost|].
  split; [reflexivity|exact Hpost].
Qed.

(** ** The pools *)

Lemma pool_pick_spec (p : list slice) (c : option nat) :
  (fst (pool_pick p c) = None /\ snd (pool_pick p c) = p) \/
  (exists s, fst (pool_pick p c) = Some s /\ p ≡ₚ s :: snd (pool_pick p c)).
Proof.
  unfold pool_pick. destruct c as [k|]; [|left; split; reflexivity].
  destruct (p !! k) as [s|] eqn:Hk; [|left; split; reflexivity].
  right. exists s. split; [reflexivity|]. simpl.
  now apply delete_Permutation.
Qed.

Lemma next_choice_frame (w : world) :
  entryHeap (snd (next_choice w)) = entryHeap w /\
  chunkHeap (snd (next_choice w)) = chunkHeap w /\
  seriesEntrySlicePool (snd (next_choice w)) = seriesEntrySlicePool w /\
  seriesChunksSlicePool (snd (next_choice w)) = seriesChunksSlicePool w /\
  nextReleaser (snd (next_choice w)) = nextReleaser w /\
  trace (snd (next_choice w)) = trace w.
Proof. unfold next_choice. destruct (poolChoices w); repeat split. Qed.

Lemma seriesEntrySlicePool_Get_run (w : world) :
  exists w',
    seriesEntrySlicePool_Get w = Some (coming_seriesEntrySlice w, w') /\
    seriesEntrySlicePool w'
    = snd (pool_pick (seriesEntrySlicePool w) (fst (next_choice w))) /\
    entryHeap w' = entryHeap w /\ chunkHeap w' = chunkHeap w /\
    seriesChunksSlicePool w' = seriesChunksSlicePool w /\
    nextReleaser w' = nextReleaser w /\ trace w' = trace w.
Proof.
  unfold seriesEntrySlicePool_Get, coming_seriesEntrySlice.
  destruct (next_choice_frame w) as (He & Hc & Hep & Hcp & Hr & Ht).
  destruct (next_choice w) as [c w1]. simpl in *. rewrite Hep.
  destruct (pool_pick (seriesEntrySlicePool w) c) as [r p] eqn:Hp.
  eexists. split; [reflexivity|]. simpl. repeat split; assumption.
Qed.

Lemma seriesChunksSlicePool_Get_run (w : world) :
  exists w',
    seriesChunksSlicePool_Get w
    = Some (fst (pool_pick (seriesChunksSlicePool w) (fst (next_choice w))), w') /\
    seriesChunksSlicePool w'
    = snd (pool_pick (seriesChunksSlicePool w) (fst (next_choice w))) /\
    entryHeap w' = entryHeap w /\ chunkHeap w' = chunkHeap w /\
    seriesEntrySlicePool w' = seriesEntrySlicePool w /\
    nextReleaser w' = nextReleaser w /\ trace w' = trace w.
Proof.
  unfold seriesChunksSlicePool_Get.
  destruct (next_choice_frame w) as (He & Hc & Hep & Hcp & Hr & Ht).
  destruct (next_choice w) as [c w1]. simpl in *. rewrite Hcp.
  destruct (pool_pick (seriesChunksSlicePool w) c) as [r p] eqn:Hp.
  eexists. split; [reflexivity|]. simpl. repeat split; assumption.
Qed.

Lemma make_seriesEntry_run (n c : Z) (w : world) :
  0 <= n <= c ->
  exists l,
    entryHeap w !! l = None /\
    make_seriesEntry n c w
    = Some (Slice (Some l) 0 (Z.to_nat n) (Z.to_nat c),
            set_entryHeap (<[l := replicate (Z.to_nat c) zeroSeriesEntry]> (entryHeap w)) w).
Proof.
  intros Hn. unfold make_seriesEntry.
  destruct (0 <=? n) eqn:E1; [|apply Z.leb_gt in E1; lia].
  destruct (n <=? c) eqn:E2; [|apply Z.leb_gt in E2; lia].
  simpl. exists (fresh (dom (entryHeap w))). split; [|reflexivity].
  apply not_elem_of_dom, is_fresh.
Qed.

Lemma make_AggrChunk_run (n c : Z) (w : world) :
  0 <= n <= c ->
  exists l,
    chunkHeap w !! l = None /\
    make_AggrChunk n c w
    = Some (Slice (Some l) 0 (Z.to_nat n) (Z.to_nat c),
            set_chunkHeap (<[l := replicate (Z.to_nat c) zeroAggrChunk]> (chunkHeap w)) w).
Proof.
  intros Hn. unfold make_AggrChunk.
  destruct (0 <=? n) eqn:E1; [|apply Z.leb_gt in E1; lia].
  destruct (n <=? c) eqn:E2; [|apply Z.leb_gt in E2; lia].
  simpl. exists (fresh (dom (chunkHeap w))). split; [|reflexivity].
  apply not_elem_of_dom, is_fresh.
Qed.

Lemma valid_slice_extends {A : Type} (h h' : gmap loc (list A)) (s : slice) :
  extends_shape h h' -> valid_slice h s -> valid_slice h' s.
Proof.
  intros Hext. unfold valid_slice. destruct (s_ptr s) as [l|]; [|auto].
  intros (Hlen & arr & Hl & Hb). split; [exact Hlen|].
  destruct (Hext l arr Hl) as (arr' & Hl' & Hlen').
  exists arr'. split; [exact Hl'|lia].
Qed.

Lemma extends_shape_refl {A : Type} (h : gmap loc (list A)) : extends_shape h h.
Proof. intros l arr Hl. eauto. Qed.

Lemma extends_shape_trans {A : Type} (h1 h2 h3 : gmap loc (list A)) :
  extends_shape h1 h2 -> extends_shape h2 h3 -> extends_shape h1 h3.
Proof.
  intros H12 H23 l arr Hl.
  destruct (H12 l arr Hl) as (arr2 & Hl2 & Hlen2).
  destruct (H23 l arr2 Hl2) as (arr3 & Hl3 & Hlen3).
  exists arr3. split; [exact Hl3|lia].
Qed.

Lemma extends_shape_insert_fresh {A : Type} (h : gmap loc (list A)) (l : loc) (arr : list A) :
  h !! l = None -> extends_shape h (<[l := arr]> h).
Proof.
  intros Hl l' arr' Hl'. exists arr'. split; [|reflexivity].
  rewrite lookup_insert_ne; [exact Hl'|congruence].
Qed.

Lemma extends_store_insert_fresh {A : Type} (h : gmap loc (list A)) (l : loc) (arr : list A) :
  h !! l = None -> extends_store h (<[l := arr]> h).
Proof.
  intros Hl l' arr' Hl'. rewrite lookup_insert_ne; [exact Hl'|congruence].
Qed.

Lemma extends_shape_write {A : Type} (h : gmap loc (list A)) (s : slice) (i : nat) (v : A) :
  extends_shape h (heap_write h s i v).
Proof.
  intros l arr Hl. unfold heap_write. destruct (s_ptr s) as [l0|]; [|eauto].
  rewrite lookup_alter. destruct (decide (l0 = l)) as [->|]; [|eauto].
  rewrite Hl. simpl. eexists. split; [reflexivity|]. apply length_insert.
Qed.

(** ** newSeriesChunksSet *)

Lemma newSeriesChunksSet_run (seriesCapacity : Z) (releasable : bool) (w : world) :
  0 <= seriesCapacity ->
  exists b w',
    newSeriesChunksSet seriesCapacity releasable w = Some (b, w') /\
    seriesReleasable b = releasable /\
    seriesChunksPool b = None /\ chunksReleaser b = None /\
    chunkHeap w' = chunkHeap w /\
    seriesChunksSlicePool w' = seriesChunksSlicePool w /\
    nextReleaser w' = nextReleaser w /\ trace w' = trace w /\
    let reused := if releasable then coming_seriesEntrySlice w else None in
    seriesEntrySlicePool w'
    = (if releasable
       then snd (pool_pick (seriesEntrySlicePool w) (fst (next_choice w)))
       else seriesEntrySlicePool w) /\
    match reused with
    | Some s =>
        if (cap s <? seriesCapacity) || is_nil_slice s
        then fresh_series w seriesCapacity b w'
        else series b = s /\ entryHeap w' = entryHeap w
    | None => fresh_series w seriesCapacity b w'
    end.
Proof.
  intros Hcap. unfold newSeriesChunksSet.
  destruct releasable.
  - destruct (seriesEntrySlicePool_Get_run w)
      as (w1 & Hget & Hpool & He & Hc & Hcp & Hr & Ht).
    destruct (make_seriesEntry_run 0 seriesCapacity w1) as (l & Hl & Hmk); [lia|].
    unfold bind. rewrite Hget.
    assert (Hfresh : forall b, series b = Slice (Some l) 0 0 (Z.to_nat seriesCapacity) ->
               fresh_series w seriesCapacity b
                 (set_entryHeap (<[l:=replicate (Z.to_nat seriesCapacity) zeroSeriesEntry]> (entryHeap w1)) w1)).
    { intros b Hb. exists l. simpl. rewrite <- He. auto. }
    destruct (coming_seriesEntrySlice w) as [s|] eqn:Hcoming.
    + destruct (cap s <? seriesCapacity) eqn:Hlt.
      * unfold ret at 1. change (is_nil_slice nil_slice) with true. cbv iota. rewrite Hmk.
        eexists. eexists. split; [reflexivity|]. simpl.
        repeat (split; [first [reflexivity | assumption]|]). now apply Hfresh.
      * unfold ret at 1. destruct (is_nil_slice s) eqn:Hnil.
        -- rewrite Hmk. eexists. eexists. split; [reflexivity|]. simpl.
           repeat (split; [first [reflexivity | assumption]|]). now apply Hfresh.
        -- unfold ret. eexists. eexists. split; [reflexivity|]. simpl.
           repeat (split; [first [reflexivity | assumption]|]). assumption.
    + unfold ret at 1. change (is_nil_slice nil_slice) with true. cbv iota. rewrite Hmk.
      eexists. eexists. split; [reflexivity|]. simpl.
      repeat (split; [first [reflexivity | assumption]|]). now apply Hfresh.
  - destruct (make_seriesEntry_run 0 seriesCapacity w) as (l & Hl & Hmk); [lia|].
    unfold bind. unfold ret at 1. change (is_nil_slice nil_slice) with true. cbv iota. rewrite Hmk.
    eexists. eexists. split; [reflexivity|]. simpl.
    repeat (split; [reflexivity|]).
    exists l. repeat split. exact Hl.
Qed.

Lemma fresh_series_shape (w : world) (c : Z) (b : seriesChunksSet) (w' : world) :
  0 <= c -> fresh_series w c b w' -> len (series b) = 0 /\ cap (series b) = c.
Proof.
  intros Hc (l & Hs & _ & _). rewrite Hs. unfold len, cap. simpl. lia.
Qed.

Lemma coming_pooled (w : world) (s : slice) :
  coming_seriesEntrySlice w = Some s ->
  seriesEntrySlicePool w
  ≡ₚ s :: snd (pool_pick (seriesEntrySlicePool w) (fst (next_choice w))).
Proof.
  unfold coming_seriesEntrySlice. intros Hs.
  destruct (pool_pick_spec (seriesEntrySlicePool w) (fst (next_choice w)))
    as [[Hn _]|(s' & Hs' & Hperm)]; [congruence|].
  rewrite Hs in Hs'. now inversion Hs'; subst.
Qed.

(** C5. For a capacity that is not negative, [newSeriesChunksSet] returns a
    set whose series slice has length 0 and a capacity of [seriesCapacity] at
    least; the pool is consulted for a releasable set only, and a pooled
    slice that is too small is dropped for a newly allocated array: it is
    neither grown nor put back. The pool holds slices of length 0, which is
    what [release] puts there. *)
Theorem newSeriesChunksSet_capacity (seriesCapacity : Z) (releasable : bool) (w : world) :
  0 <= seriesCapacity ->
  pooled_lengths_zero w ->
  exists b w',
    newSeriesChunksSet seriesCapacity releasable w = Some (b, w') /\
    len (series b) = 0 /\ seriesCapacity <= cap (series b) /\
    seriesReleasable b = releasable /\
    pooled_lengths_zero w' /\
    (releasable = false ->
       seriesEntrySlicePool w' = seriesEntrySlicePool w /\
       fresh_series w seriesCapacity b w') /\
    (forall s, releasable = true -> coming_seriesEntrySlice w = Some s ->
       cap s < seriesCapacity ->
       fresh_series w seriesCapacity b w' /\ cap (series b) = seriesCapacity /\
       seriesEntrySlicePool w ≡ₚ s :: seriesEntrySlicePool w').
Proof.
  intros Hcap Hzero.
  destruct (newSeriesChunksSet_run seriesCapacity releasable w Hcap)
    as (b & w' & Hrun & Hrel & _ & _ & _ & _ & _ & _ & Hpool & Hcase).
  exists b, w'. split; [exact Hrun|].
  assert (Hzero' : pooled_lengths_zero w').
  { unfold pooled_lengths_zero in *. rewrite Hpool. destruct releasable; [|exact Hzero].
    destruct (pool_pick_spec (seriesEntrySlicePool w) (fst (next_choice w)))
      as [[_ Hsame]|(s & _ & Hperm)]; [now rewrite Hsame|].
    rewrite Hperm in Hzero. now inversion Hzero. }
  assert (Hfresh : fresh_series w seriesCapacity b w' ->
            len (series b) = 0 /\ seriesCapacity <= cap (series b)).
  { intros Hf. destruct (fresh_series_shape _ _ _ _ Hcap Hf). lia. }
  destruct releasable; simpl in Hcase.
  - destruct (coming_seriesEntrySlice w) as [s|] eqn:Hcoming.
    + pose proof (coming_pooled w s Hcoming) as Hperm.
      assert (Hs0 : s_len s = 0%nat).
      { unfold pooled_lengths_zero in Hzero. rewrite Hperm in Hzero. now inversion Hzero. }
      destruct (cap s <? seriesCapacity) eqn:Hlt; simpl in Hcase.
      * destruct (Hfresh Hcase) as [Hl Hc].
        split; [exact Hl|]. split; [exact Hc|]. split; [exact Hrel|].
        split; [exact Hzero'|]. split; [discriminate|].
        intros s' _ Hs' _. inversion Hs'; subst s'.
        split; [exact Hcase|]. split; [apply (fresh_series_shape _ _ _ _ Hcap Hcase)|].
        now rewrite Hpool.
      * apply Z.ltb_ge in Hlt. destruct (is_nil_slice s) eqn:Hnil.
        -- destruct (Hfresh Hcase) as [Hl Hc].
           split; [exact Hl|]. split; [exact Hc|]. split; [exact Hrel|].
           split; [exact Hzero'|]. split; [discriminate|].
           intros s' _ Hs' Hlt'. inversion Hs'; subst s'. lia.
        -- destruct Hcase as [Hser _]. rewrite Hser.
           split; [unfold len; lia|]. split; [exact Hlt|]. split; [exact Hrel|].
           split; [exact Hzero'|]. split; [discriminate|].
           intros s' _ Hs' Hlt'. inversion Hs'; subst s'. lia.
    + destruct (Hfresh Hcase) as [Hl Hc].
      split; [exact Hl|]. split; [exact Hc|]. split; [exact Hrel|].
      split; [exact Hzero'|]. split; [discriminate|].
      intros s' _ Hs' _. discriminate.
  - destruct (Hfresh Hcase) as [Hl Hc].
    split; [exact Hl|]. split; [exact Hc|]. split; [exact Hrel|].
    split; [exact Hzero'|]. split; [intros _; split; [exact Hpool|exact Hcase]|].
    intros s' Hf. discriminate.
Qed.

(** [release] keeps the pooled series slices at length zero. *)
Lemma release_keeps_pooled_lengths_zero (b b' : seriesChunksSet) (w w' : world) :
  pooled_lengths_zero w -> release b w = Some (b', w') -> pooled_lengths_zero w'.
Proof.
  intros Hzero Hrun.
  destruct (release_run b w) as (w1 & Hrun1 & _ & _ & _ & Hpost).
  rewrite Hrun in Hrun1. inversion Hrun1; subst w1. clear Hrun1.
  unfold pooled_lengths_zero in *.
  destruct (seriesReleasable b).
  - destruct Hpost as (_ & Hp & _). rewrite Hp.
    apply Forall_app. split; [exact Hzero|]. constructor; [reflexivity|constructor].
  - destruct Hpost as (_ & _ & Hp & _). now rewrite Hp.
Qed.

(** A negative capacity makes [make] panic. *)
Lemma newSeriesChunksSet_negative_capacity :
  newSeriesChunksSet (-1) false emptyWorld = None.
Proof. reflexivity. Qed.

(** ** The slab pool *)

Lemma NoDup_fmap_inj_in {A B : Type} (f : A -> B) (l : list A) (x y : A) :
  NoDup (f <$> l) -> x ∈ l -> y ∈ l -> f x = f y -> x = y.
Proof.
  induction l as [|a l IH]; simpl; intros Hnd Hx Hy Hf.
  - now apply elem_of_nil in Hx.
  - rewrite ?fmap_cons in Hnd. apply NoDup_cons in Hnd. destruct Hnd as [Hnotin Hnd'].
    apply elem_of_cons in Hx, Hy.
    destruct Hx as [->|Hx], Hy as [->|Hy]; try reflexivity.
    + exfalso. apply Hnotin. rewrite Hf. now apply list_elem_of_fmap_2.
    + exfalso. apply Hnotin. rewrite <- Hf. now apply list_elem_of_fmap_2.
    + now apply IH.
Qed.

Lemma slab_ok_extends (w w' : world) (s : slice) :
  extends_shape (chunkHeap w) (chunkHeap w') -> slab_ok w s -> slab_ok w' s.
Proof.
  intros Hext [Hp Hv]. split; [exact Hp|]. eapply valid_slice_extends; eassumption.
Qed.

Lemma pooled_slab_ok_extends (w w' : world) (s : slice) :
  extends_shape (chunkHeap w) (chunkHeap w') -> pooled_slab_ok w s -> pooled_slab_ok w' s.
Proof.
  intros Hext (Hp & Hv & Hc). split; [exact Hp|]. split; [|exact Hc].
  eapply valid_slice_extends; eassumption.
Qed.

Lemma extends_store_shape {A : Type} (h h' : gmap loc (list A)) :
  extends_store h h' -> extends_shape h h'.
Proof. intros Hs l arr Hl. exists arr. split; [now apply Hs|reflexivity]. Qed.

Lemma slab_ok_in_store (w : world) (s : slice) :
  slab_ok w s ->
  exists l arr, s_ptr s = Some l /\ chunkHeap w !! l = Some arr /\
                (s_len s <= s_cap s)%nat /\ (s_off s + s_cap s <= length arr)%nat.
Proof.
  intros [[l Hl] Hv]. unfold valid_slice in Hv. rewrite Hl in Hv.
  destruct Hv as (Hlen & arr & Harr & Hb). eauto 8.
Qed.

Lemma pooled_slab_is_slab_ok (w : world) (s : slice) :
  pooled_slab_ok w s -> slab_ok w s.
Proof. intros (Ha & Hb & _). split; assumption. Qed.

(** Taking a new slab: from the delegate pool, or allocated. *)
Lemma SlabPool_newSlab_run (sp : SlabPool) (w : world) :
  sp_inv sp w ->
  exists slab0 w',
    SlabPool_newSlab sp w = Some (slab0, w') /\
    s_len slab0 = 0%nat /\ slabSize sp <= cap slab0 /\
    sp_inv (mkSlabPool (slabSize sp) (slabs sp ++ [slab0])) w' /\
    extends_store (chunkHeap w) (chunkHeap w') /\
    entryHeap w' = entryHeap w /\
    seriesEntrySlicePool w' = seriesEntrySlicePool w /\
    nextReleaser w' = nextReleaser w /\ trace w' = trace w /\
    (forall p, p ∈ (s_ptr <$> seriesChunksSlicePool w') ->
               p ∈ (s_ptr <$> seriesChunksSlicePool w)) /\
    (forall l, s_ptr slab0 = Some l ->
               chunkHeap w !! l = None \/ Some l ∈ (s_ptr <$> seriesChunksSlicePool w)).
Proof.
  intros (Hsize & Hslabs & Hpool & Hnd).
  unfold SlabPool_newSlab.
  destruct (seriesChunksSlicePool_Get_run w)
    as (w1 & Hget & Hp1 & He1 & Hc1 & Hep1 & Hr1 & Ht1).
  unfold bind. rewrite Hget.
  destruct (pool_pick_spec (seriesChunksSlicePool w) (fst (next_choice w)))
    as [[Hnone Hsame]|(s & Hsome & Hperm)];
    destruct (pool_pick (seriesChunksSlicePool w) (fst (next_choice w))) as [picked rest];
    simpl in *.
  - (* nothing pooled: a new slab *)
    rewrite Hnone.
    destruct (make_AggrChunk_run 0 (slabSize sp) w1) as (l & Hl & Hmk).
    { rewrite Hsize. unfold seriesChunksSlabSize. lia. }
    rewrite Hmk. eexists. eexists. split; [reflexivity|]. simpl.
    assert (Hext : extends_store (chunkHeap w)
                     (<[l:=replicate (Z.to_nat (slabSize sp)) zeroAggrChunk]> (chunkHeap w1))).
    { rewrite Hc1. apply extends_store_insert_fresh. now rewrite <- Hc1. }
    pose proof (extends_store_shape _ _ Hext) as Hshape.
    split; [reflexivity|]. split; [unfold cap; simpl; lia|].
    split.
    { split; [exact Hsize|]. simpl. rewrite Hp1, Hsame.
      split.
      { apply Forall_app. split.
        - eapply Forall_impl; [exact Hslabs|]. intros x Hx.
          eapply slab_ok_extends; [|exact Hx]. exact Hshape.
        - constructor; [|constructor]. split; [eexists; reflexivity|].
          unfold valid_slice. simpl. split; [lia|].
          eexists. split; [apply lookup_insert_eq|]. rewrite length_replicate. lia. }
      split.
      { eapply Forall_impl; [exact Hpool|]. intros x Hx.
        eapply pooled_slab_ok_extends; [|exact Hx]. exact Hshape. }
      assert (Hfresh_ptr : forall x, slab_ok w x -> s_ptr x <> Some l).
      { intros x Hok Hxl.
        destruct (slab_ok_in_store w x Hok) as (l' & arr & Hl' & Harr & _).
        rewrite Hl' in Hxl. inversion Hxl; subst l'. rewrite <- Hc1 in Harr. congruence. }
      rewrite <- app_assoc. simpl.
      rewrite fmap_app in *. rewrite fmap_cons.
      apply NoDup_app in Hnd. destruct Hnd as (Hnd1 & Hdisj & Hnd2).
      apply NoDup_app. split; [exact Hnd1|]. split.
      - intros p Hp1' Hp2. apply elem_of_cons in Hp2. destruct Hp2 as [Hp2|Hp2].
        + subst p. apply list_elem_of_fmap in Hp1'. destruct Hp1' as (x & Hx & Hin).
          apply (Hfresh_ptr x); [|now symmetry].
          rewrite Forall_forall in Hslabs. now apply Hslabs.
        + now apply (Hdisj p).
      - apply NoDup_cons. split; [|exact Hnd2].
        intros Hin. apply list_elem_of_fmap in Hin. destruct Hin as (x & Hx & Hin).
        apply (Hfresh_ptr x); [|now symmetry].
        apply pooled_slab_is_slab_ok. rewrite Forall_forall in Hpool. now apply Hpool. }
    split; [exact Hext|].
    split; [exact He1|]. split; [exact Hep1|]. split; [exact Hr1|]. split; [exact Ht1|].
    split.
    { intros p. rewrite Hp1, Hsame. auto. }
    { intros l' Hl'. inversion Hl'; subst l'. left. now rewrite <- Hc1. }
  - (* a pooled slab, cut back to length zero *)
    rewrite Hsome. rewrite reslice_0. simpl of_option. unfold ret.
    eexists. eexists. split; [reflexivity|]. simpl.
    assert (Hs_ok : pooled_slab_ok w s).
    { rewrite Forall_forall in Hpool. apply Hpool. rewrite Hperm. now left. }
    destruct Hs_ok as (Hsp & Hsv & Hsc).
    assert (Hext : extends_store (chunkHeap w) (chunkHeap w1)).
    { rewrite Hc1. intros l arr Hl. exact Hl. }
    assert (Hpool' : Forall (pooled_slab_ok w) (s :: seriesChunksSlicePool w1)).
    { rewrite Hp1. now rewrite <- Hperm. }
    split; [reflexivity|]. split; [unfold cap in *; simpl; rewrite Hsize; exact Hsc|].
    split.
    { split; [exact Hsize|]. simpl.
      assert (Hsame_w : forall x, pooled_slab_ok w x -> pooled_slab_ok w1 x).
      { intros x (Ha & Hb & Hc). split; [exact Ha|]. split; [|exact Hc].
        unfold valid_slice in *. now rewrite Hc1. }
      split.
      { apply Forall_app. split.
        - eapply Forall_impl; [exact Hslabs|]. intros x [Ha Hb]. split; [exact Ha|].
          unfold valid_slice in *. now rewrite Hc1.
        - constructor; [|constructor]. split; [exact Hsp|].
          unfold valid_slice in *. simpl. rewrite Hc1.
          destruct (s_ptr s) as [l|]; [|destruct Hsp as [? Hsp]; discriminate].
          destruct Hsv as (_ & arr & Harr & Hb). split; [lia|]. eauto. }
      split.
      { inversion Hpool' as [|? ? _ Hrest]; subst.
        eapply Forall_impl; [exact Hrest|]. exact Hsame_w. }
      rewrite <- app_assoc. simpl.
      assert (Hperm' : s_ptr <$> (slabs sp ++ truncated s :: seriesChunksSlicePool w1)
                       ≡ₚ s_ptr <$> (slabs sp ++ seriesChunksSlicePool w)).
      { rewrite Hp1. rewrite !fmap_app. rewrite fmap_cons. simpl.
        apply Permutation_app_head. rewrite Hperm. reflexivity. }
      rewrite Hperm'. exact Hnd. }
    split; [exact Hext|].
    split; [exact He1|]. split; [exact Hep1|]. split; [exact Hr1|]. split; [exact Ht1|].
    split.
    { intros p Hp. rewrite Hp1 in Hp. rewrite Hperm. rewrite fmap_cons. now right. }
    { intros l Hl. right. simpl in Hl. rewrite <- Hl.
      rewrite Hperm. rewrite fmap_cons. now left. }
Qed.

Lemma region_safe_newSlab (sp : SlabPool) (w w' : world) (slab0 r0 : slice) :
  extends_store (chunkHeap w) (chunkHeap w') ->
  (forall p, p ∈ (s_ptr <$> seriesChunksSlicePool w') ->
             p ∈ (s_ptr <$> seriesChunksSlicePool w)) ->
  (forall l, s_ptr slab0 = Some l ->
             chunkHeap w !! l = None \/ Some l ∈ (s_ptr <$> seriesChunksSlicePool w)) ->
  region_safe sp w r0 ->
  region_safe (mkSlabPool (slabSize sp) (slabs sp ++ [slab0])) w' r0.
Proof.
  intros Hext Hsub Hnew [Hz|(l & arr & Hp & Harr & Hb & Hnp & Hslabs)]; [now left|].
  right. exists l, arr. split; [exact Hp|]. split; [now apply Hext|].
  split; [exact Hb|]. split; [intros Hin; apply Hnp; now apply Hsub|].
  simpl. intros slab Hin Hsl. apply elem_of_app in Hin. destruct Hin as [Hin|Hin].
  - now apply Hslabs.
  - apply list_elem_of_singleton in Hin. subst slab.
    destruct (Hnew l Hsl) as [Hnone|Hpool]; [congruence|contradiction].
Qed.

(** Carving [n] slots out of the last slab. *)
Lemma carve_step (sz : Z) (others : list slice) (slab : slice) (n : nat) (w : world) :
  (n <= s_cap slab - s_len slab)%nat ->
  sp_inv (mkSlabPool sz (others ++ [slab])) w ->
  let sp' := mkSlabPool sz (others ++ [fst (slab_carve slab n)]) in
  let r := snd (slab_carve slab n) in
  s_len r = n /\ s_cap r = n /\
  sp_inv sp' w /\ region_safe sp' w r /\
  forall r0, region_safe (mkSlabPool sz (others ++ [slab])) w r0 ->
             region_safe sp' w r0 /\ disjoint_regions r0 r.
Proof.
  intros Hn (Hsize & Hslabs & Hpool & Hnd). simpl in *.
  assert (Hslab : slab_ok w slab).
  { rewrite Forall_forall in Hslabs. apply Hslabs. apply elem_of_app. right. now left. }
  destruct (slab_ok_in_store w slab Hslab) as (l & arr & Hl & Harr & Hlc & Hb).
  assert (Hptrs : s_ptr <$> (others ++ [Slice (s_ptr slab) (s_off slab) (s_len slab + n) (s_cap slab)])
                  = s_ptr <$> (others ++ [slab])).
  { now rewrite !fmap_app. }
  assert (Hnd' : NoDup (s_ptr <$> ((others ++ [Slice (s_ptr slab) (s_off slab) (s_len slab + n) (s_cap slab)])
                                    ++ seriesChunksSlicePool w))).
  { rewrite fmap_app, Hptrs, <- fmap_app. exact Hnd. }
  split; [lia|]. split; [lia|].
  split.
  { split; [exact Hsize|]. split; [|split; [exact Hpool|exact Hnd']].
    apply Forall_app. split.
    - apply Forall_app in Hslabs. tauto.
    - constructor; [|constructor]. split; [simpl; rewrite Hl; eauto|].
      unfold valid_slice. simpl. rewrite Hl. split; [lia|]. eauto. }
  split.
  { right. exists l, arr. simpl. split; [exact Hl|]. split; [exact Harr|].
    split; [lia|]. split.
    - rewrite fmap_app in Hnd. apply NoDup_app in Hnd. destruct Hnd as (_ & Hdisj & _).
      apply Hdisj. rewrite <- Hl. apply list_elem_of_fmap_2.
      apply elem_of_app. right. now left.
    - intros slab' Hin Hsl.
      assert (Heq : slab' = Slice (s_ptr slab) (s_off slab) (s_len slab + n) (s_cap slab)).
      { rewrite fmap_app in Hnd'. apply NoDup_app in Hnd'. destruct Hnd' as (Hnd1 & _ & _).
        eapply (NoDup_fmap_inj_in s_ptr); [exact Hnd1|exact Hin| |].
        - apply elem_of_app. right. now left.
        - simpl. congruence. }
      subst slab'. simpl. lia. }
  intros r0 [Hz|(l0 & arr0 & Hp0 & Harr0 & Hb0 & Hnp0 & Hslabs0)].
  { split; [now left|now left]. }
  split.
  - right. exists l0, arr0. split; [exact Hp0|]. split; [exact Harr0|].
    split; [exact Hb0|]. split; [exact Hnp0|].
    intros slab' Hin Hsl. apply elem_of_app in Hin. destruct Hin as [Hin|Hin].
    + apply Hslabs0; [|exact Hsl]. apply elem_of_app. now left.
    + apply list_elem_of_singleton in Hin. subst slab'. simpl in *.
      assert (Hold : (s_off r0 + s_len r0 <= s_off slab + s_len slab)%nat).
      { apply Hslabs0; [|exact Hsl]. apply elem_of_app. right. now left. }
      lia.
  - destruct (decide (l0 = l)) as [->|Hne].
    + right. right. right. left. simpl.
      assert (Hold : (s_off r0 + s_len r0 <= s_off slab + s_len slab)%nat).
      { apply Hslabs0; [|exact Hl]. apply elem_of_app. right. now left. }
      lia.
    + right. right. left. simpl. rewrite Hp0, Hl. congruence.
Qed.

(** What the [SlabPool.Get] of the model gives for a size that is not
    negative: a slice of exactly that length and capacity, apart from every
    slice the pool handed out before; the entries and the series-slice pool
    are left alone, and no array of chunks that exists is changed. *)
Lemma SlabPool_Get_run (size : Z) (sp : SlabPool) (w : world) :
  0 <= size -> sp_inv sp w ->
  exists r sp' w',
    SlabPool_Get size sp w = Some ((r, sp'), w') /\
    len r = size /\ cap r = size /\
    sp_inv sp' w' /\ region_safe sp' w' r /\
    (forall r0, region_safe sp w r0 -> region_safe sp' w' r0 /\ disjoint_regions r0 r) /\
    extends_store (chunkHeap w) (chunkHeap w') /\
    entryHeap w' = entryHeap w /\ seriesEntrySlicePool w' = seriesEntrySlicePool w /\
    nextReleaser w' = nextReleaser w /\ trace w' = trace w.
Proof.
  intros Hsize Hinv. unfold SlabPool_Get.
  destruct (size <=? 0) eqn:E0.
  { (* an empty request *)
    apply Z.leb_le in E0. assert (size = 0) by lia. subst size.
    exists nil_slice, sp, w. split; [reflexivity|].
    split; [reflexivity|]. split; [reflexivity|]. split; [exact Hinv|].
    split; [now left|].
    split; [intros r0 Hr0; split; [exact Hr0|right; now left]|].
    split; [intros l arr Hl; exact Hl|]. repeat split. }
  apply Z.leb_gt in E0.
  destruct (slabSize sp <? size) eqn:E1.
  { (* larger than a slab: an array of its own *)
    destruct (make_AggrChunk_run size size w) as (l & Hl & Hmk); [lia|].
    unfold bind. rewrite Hmk. unfold ret.
    eexists. eexists. eexists. split; [reflexivity|]. simpl.
    assert (Hext : extends_store (chunkHeap w)
                     (<[l:=replicate (Z.to_nat size) zeroAggrChunk]> (chunkHeap w))).
    { now apply extends_store_insert_fresh. }
    pose proof (extends_store_shape _ _ Hext) as Hshape.
    destruct Hinv as (Hsz & Hslabs & Hpool & Hnd).
    assert (Hfresh_ptr : forall x, slab_ok w x -> s_ptr x <> Some l).
    { intros x Hok Hxl.
      destruct (slab_ok_in_store w x Hok) as (l' & arr & Hl' & Harr & _).
      rewrite Hl' in Hxl. inversion Hxl; subst l'. congruence. }
    split; [unfold len; simpl; lia|]. split; [unfold cap; simpl; lia|].
    split.
    { split; [exact Hsz|]. simpl. split; [|split; [|exact Hnd]].
      - eapply Forall_impl; [exact Hslabs|]. intros x Hx.
        eapply slab_ok_extends; [exact Hshape|exact Hx].
      - eapply Forall_impl; [exact Hpool|]. intros x Hx.
        eapply pooled_slab_ok_extends; [exact Hshape|exact Hx]. }
    split.
    { right. exists l. eexists. simpl. split; [reflexivity|].
      split; [apply lookup_insert_eq|]. split; [rewrite length_replicate; lia|].
      split.
      - intros Hin. apply list_elem_of_fmap in Hin. destruct Hin as (x & Hx & Hin).
        apply (Hfresh_ptr x); [|now symmetry].
        apply pooled_slab_is_slab_ok. rewrite Forall_forall in Hpool. now apply Hpool.
      - intros slab Hin Hsl. exfalso. apply (Hfresh_ptr slab); [|exact Hsl].
        rewrite Forall_forall in Hslabs. now apply Hslabs. }
    split.
    { intros r0 [Hz|(l0 & arr0 & Hp0 & Harr0 & Hb0 & Hnp0 & Hslabs0)].
      - split; [now left|now left].
      - split.
        + right. exists l0, arr0. split; [exact Hp0|]. split; [now apply Hext|].
          split; [exact Hb0|]. split; [exact Hnp0|exact Hslabs0].
        + right. right. left. simpl. rewrite Hp0. intros Heq. inversion Heq; subst l0.
          congruence. }
    split; [exact Hext|]. repeat split. }
  apply Z.ltb_ge in E1.
  (* carved from the last slab, or from a new one *)
  assert (Hcarve : forall others slab w1,
    sp_inv (mkSlabPool (slabSize sp) (others ++ [slab])) w1 ->
    size <= slab_room slab ->
    (forall r0, region_safe sp w r0 ->
                region_safe (mkSlabPool (slabSize sp) (others ++ [slab])) w1 r0) ->
    extends_store (chunkHeap w) (chunkHeap w1) ->
    entryHeap w1 = entryHeap w -> seriesEntrySlicePool w1 = seriesEntrySlicePool w ->
    nextReleaser w1 = nextReleaser w -> trace w1 = trace w ->
    exists r sp' w',
      (if size <=? slab_room (fst (slab, others)) then
         let (slab', r) := slab_carve (fst (slab, others)) (Z.to_nat size) in
         ret (r, mkSlabPool (slabSize sp) (snd (slab, others) ++ [slab']))
       else panic) w1 = Some ((r, sp'), w') /\
      len r = size /\ cap r = size /\
      sp_inv sp' w' /\ region_safe sp' w' r /\
      (forall r0, region_safe sp w r0 -> region_safe sp' w' r0 /\ disjoint_regions r0 r) /\
      extends_store (chunkHeap w) (chunkHeap w') /\
      entryHeap w' = entryHeap w /\ seriesEntrySlicePool w' = seriesEntrySlicePool w /\
      nextReleaser w' = nextReleaser w /\ trace w' = trace w).
  { intros others slab w1 Hinv1 Hroom Hold Hext He Hep Hr Ht. simpl fst. simpl snd.
    destruct (size <=? slab_room slab) eqn:E2; [|apply Z.leb_gt in E2; lia].
    assert (Hn : (Z.to_nat size <= s_cap slab - s_len slab)%nat).
    { unfold slab_room, cap, len in Hroom. lia. }
    destruct (carve_step (slabSize sp) others slab (Z.to_nat size) w1 Hn Hinv1)
      as (Hlen & Hcap & Hinv' & Hsafe & Hothers).
    destruct (slab_carve slab (Z.to_nat size)) as [slab' r] eqn:Hsc. simpl in *.
    rewrite ?E2. unfold slab_carve in Hsc. inversion Hsc; subst slab' r. clear Hsc.
    unfold ret. eexists. eexists. eexists. split; [reflexivity|].
    split; [unfold len; lia|]. split; [unfold cap; lia|].
    split; [exact Hinv'|]. split; [exact Hsafe|].
    split; [intros r0 Hr0; apply Hothers; now apply Hold|].
    repeat split; assumption. }
  assert (Hnew : exists r sp' w',
    bind (bind (SlabPool_newSlab sp) (fun s => ret (s, slabs sp)))
      (fun cur =>
         if size <=? slab_room (fst cur) then
           let (slab', r) := slab_carve (fst cur) (Z.to_nat size) in
           ret (r, mkSlabPool (slabSize sp) (snd cur ++ [slab']))
         else panic) w = Some ((r, sp'), w') /\
    len r = size /\ cap r = size /\
    sp_inv sp' w' /\ region_safe sp' w' r /\
    (forall r0, region_safe sp w r0 -> region_safe sp' w' r0 /\ disjoint_regions r0 r) /\
    extends_store (chunkHeap w) (chunkHeap w') /\
    entryHeap w' = entryHeap w /\ seriesEntrySlicePool w' = seriesEntrySlicePool w /\
    nextReleaser w' = nextReleaser w /\ trace w' = trace w).
  { destruct (SlabPool_newSlab_run sp w Hinv)
      as (slab0 & w1 & Hrun & Hlen0 & Hcap0 & Hinv1 & Hext & He & Hep & Hr & Ht & Hsub & Hptr).
    unfold bind at 1. unfold bind at 1. rewrite Hrun. unfold ret at 1.
    apply (Hcarve (slabs sp) slab0 w1); try assumption.
    - unfold slab_room, len. rewrite Hlen0. lia.
    - intros r0 Hr0. eapply region_safe_newSlab; eassumption. }
  destruct (last (slabs sp)) as [slab|] eqn:Hlast; [|exact Hnew].
  destruct (size <=? slab_room slab) eqn:E2; [|exact Hnew].
  apply Z.leb_le in E2.
  apply last_Some in Hlast. destruct Hlast as [others Hothers].
  unfold bind at 1. unfold ret at 1.
  rewrite Hothers, removelast_last.
  destruct sp as [sz sl]. simpl in *. subst sl.
  apply (Hcarve others slab w); try assumption; try reflexivity.
  - intros r0 Hr0. exact Hr0.
  - intros l arr Hl. exact Hl.
Qed.

(** ** newSeriesAggrChunkSlice *)

(** C6. For a size [n] that is not negative, [newSeriesAggrChunkSlice]
    returns a slice of length and capacity [n]. For a releasable set the
    slice is the one [SlabPool.Get] carves from the slab pool of the set:
    the pool that the set has, when it has one, and no other; a pool made
    then, when it has none. The set keeps the pool as [Get] left it, so that
    the next slice is carved from this very pool, clear of the first. For a
    set that is not releasable the slice is a newly allocated array, and no
    pool is touched. *)
Theorem newSeriesAggrChunkSlice_size (n : Z) (b : seriesChunksSet) (w : world) :
  0 <= n ->
  (seriesReleasable b = true ->
   sp_inv match seriesChunksPool b with
          | Some sp => sp
          | None => NewSlabPool seriesChunksSlabSize
          end w) ->
  exists s b' w',
    newSeriesAggrChunkSlice n b w = Some ((s, b'), w') /\
    len s = n /\ cap s = n /\
    series b' = series b /\ seriesReleasable b' = seriesReleasable b /\
    chunksReleaser b' = chunksReleaser b /\
    if seriesReleasable b then
      exists sp',
        match seriesChunksPool b with
        | Some sp => SlabPool_Get n sp w = Some ((s, sp'), w')
        | None => SlabPool_Get n (NewSlabPool seriesChunksSlabSize) w = Some ((s, sp'), w')
        end /\
        seriesChunksPool b' = Some sp' /\
        forall m, 0 <= m ->
          exists s2 sp2 b2 w2,
            SlabPool_Get m sp' w' = Some ((s2, sp2), w2) /\
            newSeriesAggrChunkSlice m b' w' = Some ((s2, b2), w2) /\
            seriesChunksPool b2 = Some sp2 /\
            len s2 = m /\ cap s2 = m /\ disjoint_regions s s2
    else
      b' = b /\
      (exists l, s = Slice (Some l) 0 (Z.to_nat n) (Z.to_nat n) /\
                 chunkHeap w !! l = None /\
                 chunkHeap w' = <[l := replicate (Z.to_nat n) zeroAggrChunk]> (chunkHeap w)) /\
      seriesEntrySlicePool w' = seriesEntrySlicePool w /\
      seriesChunksSlicePool w' = seriesChunksSlicePool w /\
      poolChoices w' = poolChoices w.
Proof.
  intros Hn Hinv. unfold newSeriesAggrChunkSlice.
  destruct (seriesReleasable b) eqn:Hrel; cbn [negb]; cbv iota.
  - assert (Hpool : lazy_seriesChunksPool b
                    = match seriesChunksPool b with
                      | Some sp => sp
                      | None => NewSlabPool seriesChunksSlabSize
                      end) by reflexivity.
    destruct (SlabPool_Get_run n (lazy_seriesChunksPool b) w Hn)
      as (r & sp' & w' & Hrun & Hlen & Hcap & Hinv' & Hsafe & _).
    { rewrite Hpool. exact (Hinv eq_refl). }
    unfold bind. cbv beta. rewrite Hrun. unfold ret. simpl.
    eexists. eexists. eexists. split; [reflexivity|]. simpl.
    split; [exact Hlen|]. split; [exact Hcap|].
    split; [reflexivity|]. split; [exact Hrel|]. split; [reflexivity|].
    exists sp'. split; [|split; [reflexivity|]].
    + rewrite Hpool in Hrun. destruct (seriesChunksPool b); exact Hrun.
    + intros m Hm.
      destruct (SlabPool_Get_run m sp' w' Hm Hinv')
        as (s2 & sp2 & w2 & Hrun2 & Hlen2 & Hcap2 & _ & _ & Hclear & _).
      exists s2, sp2, (with_seriesChunksPool (Some sp2) (with_seriesChunksPool (Some sp') b)), w2.
      split; [exact Hrun2|]. split.
      * rewrite Hrel. cbn [negb]. cbv iota.
        change (lazy_seriesChunksPool (with_seriesChunksPool (Some sp') b)) with sp'.
        unfold bind. rewrite Hrun2. reflexivity.
      * split; [reflexivity|]. split; [exact Hlen2|]. split; [exact Hcap2|].
        exact (proj2 (Hclear r Hsafe)).
  - destruct (make_AggrChunk_run n n w) as (l & Hl & Hmk); [lia|].
    unfold bind. cbv beta. rewrite Hmk. unfold ret.
    eexists. eexists. eexists. split; [reflexivity|]. simpl.
    split; [unfold len; simpl; lia|]. split; [unfold cap; simpl; lia|].
    split; [reflexivity|]. split; [exact Hrel|]. split; [reflexivity|].
    split; [reflexivity|]. split; [exists l; auto|]. repeat split.
Qed.

(** A negative size makes [make] panic. *)
Lemma newSeriesAggrChunkSlice_negative_size :
  newSeriesAggrChunkSlice (-1) zeroSeriesChunksSet emptyWorld = None.
Proof. reflexivity. Qed.

(** ** The series adapter *)

Section AdapterFacts.
Context {U : Type} `{SeriesSet.seriesChunksSetIterator U}.

Lemma seriesChunksSet_len_nonneg (b : seriesChunksSet) : 0 <= seriesChunksSet_len b.
Proof. unfold seriesChunksSet_len, len. lia. Qed.

(** C3. [Next] increments the offset. While the offset stays inside the
    current batch, nothing else happens: no release, no call upstream. When
    it reaches the length of the batch, the batch is released, once, and then
    the upstream is advanced; when the upstream has nothing more, the current
    batch becomes the zero set and [Next] is false; else the new batch is
    installed, the offset is zero and [Next] is true. *)
Theorem seriesSet_Next_steps (b : SeriesSet.seriesChunksSeriesSet U) (w : world) :
  let i := int_add (SeriesSet.currOffset b) 1 in
  (i < seriesChunksSet_len (SeriesSet.currSet b) ->
     SeriesSet.Next b w
     = Some ((true, SeriesSet.mkSeriesChunksSeriesSet (SeriesSet.from b)
                      (SeriesSet.currSet b) i), w))
  /\
  (seriesChunksSet_len (SeriesSet.currSet b) <= i ->
     exists cs w1,
       release (SeriesSet.currSet b) w = Some (cs, w1) /\
       trace w1 = trace w ++ release_events w (SeriesSet.currSet b) /\
       (SeriesSet.it_Next (SeriesSet.from b) w1 = None -> SeriesSet.Next b w = None) /\
       (forall u w2,
          SeriesSet.it_Next (SeriesSet.from b) w1 = Some ((false, u), w2) ->
          SeriesSet.Next b w
          = Some ((false, SeriesSet.mkSeriesChunksSeriesSet u zeroSeriesChunksSet i), w2)) /\
       (forall u w2,
          SeriesSet.it_Next (SeriesSet.from b) w1 = Some ((true, u), w2) ->
          SeriesSet.Next b w
          = Some ((true, SeriesSet.mkSeriesChunksSeriesSet u (SeriesSet.it_At u) 0), w2))).
Proof.
  intros i. split.
  - intros Hi. unfold SeriesSet.Next. fold i.
    destruct (seriesChunksSet_len (SeriesSet.currSet b) <=? i) eqn:E; [|reflexivity].
    apply Z.leb_le in E. lia.
  - intros Hi. destruct (release_run (SeriesSet.currSet b) w) as (w1 & Hrun & Htr & _).
    eexists. exists w1. split; [exact Hrun|]. split; [exact Htr|].
    unfold SeriesSet.Next. fold i.
    destruct (seriesChunksSet_len (SeriesSet.currSet b) <=? i) eqn:E;
      [|apply Z.leb_gt in E; lia].
    unfold bind. rewrite Hrun.
    split; [intros Hup; now rewrite Hup|].
    split; intros u w2 Hup; rewrite Hup; reflexivity.
Qed.

Lemma At_guard (b : SeriesSet.seriesChunksSeriesSet U) (w : world) :
  seriesChunksSet_len (SeriesSet.currSet b) <= SeriesSet.currOffset b ->
  SeriesSet.At b w = Some (nil_slice, nil_slice).
Proof.
  intros Hle. unfold SeriesSet.At.
  destruct (seriesChunksSet_len (SeriesSet.currSet b) <=? SeriesSet.currOffset b) eqn:E;
    [reflexivity|]. apply Z.leb_gt in E. lia.
Qed.

Lemma At_inside (b : SeriesSet.seriesChunksSeriesSet U) (w : world) :
  0 <= SeriesSet.currOffset b -> SeriesSet.At b w <> None.
Proof.
  intros Hpos. unfold SeriesSet.At.
  destruct (seriesChunksSet_len (SeriesSet.currSet b) <=? SeriesSet.currOffset b) eqn:E;
    [discriminate|].
  apply Z.leb_gt in E. unfold index_entry.
  destruct (0 <=? SeriesSet.currOffset b) eqn:E1; [|apply Z.leb_gt in E1; lia].
  unfold seriesChunksSet_len in E.
  destruct (SeriesSet.currOffset b <? len (series (SeriesSet.currSet b))) eqn:E2;
    [discriminate|]. apply Z.ltb_ge in E2. lia.
Qed.

Lemma int_add_1 (x : Z) : 0 <= x < int_max -> int_add x 1 = x + 1.
Proof.
  unfold int_max, int_add, int_wrap. intros Hx.
  rewrite Z.mod_small; lia.
Qed.

Lemma Next_inv (b b' : SeriesSet.seriesChunksSeriesSet U) (w w' : world) (ok : bool) :
  SeriesSet.Next b w = Some ((ok, b'), w') ->
  let i := int_add (SeriesSet.currOffset b) 1 in
  (ok = true /\ i < seriesChunksSet_len (SeriesSet.currSet b) /\
   SeriesSet.currSet b' = SeriesSet.currSet b /\ SeriesSet.currOffset b' = i) \/
  (ok = true /\ seriesChunksSet_len (SeriesSet.currSet b) <= i /\
   SeriesSet.currOffset b' = 0) \/
  (ok = false /\ seriesChunksSet_len (SeriesSet.currSet b) <= i /\
   SeriesSet.currSet b' = zeroSeriesChunksSet /\ SeriesSet.currOffset b' = i).
Proof.
  intros Hrun i. unfold SeriesSet.Next in Hrun. fold i in Hrun.
  destruct (seriesChunksSet_len (SeriesSet.currSet b) <=? i) eqn:E.
  - apply Z.leb_le in E. apply bind_Some in Hrun. destruct Hrun as (cs & w1 & _ & Hrun).
    apply bind_Some in Hrun. destruct Hrun as ([ok' u] & w2 & _ & Hrun).
    simpl in Hrun. destruct ok'; simpl in Hrun; inversion Hrun; subst; simpl.
    + right. left. auto.
    + right. right. auto.
  - apply Z.leb_gt in E. inversion Hrun; subst. simpl. left. auto.
Qed.

Lemma adapter_reachable_offset (b : SeriesSet.seriesChunksSeriesSet U) :
  adapter_reachable b -> 0 <= SeriesSet.currOffset b.
Proof.
  induction 1 as [from|b b' w w' ok Hreach IH Hmax Hrun]; [simpl; lia|].
  pose proof (Next_inv _ _ _ _ _ Hrun) as Hcases. simpl in Hcases.
  rewrite int_add_1 in Hcases by lia.
  destruct Hcases as [(_ & _ & _ & Ho)|[(_ & _ & Ho)|(_ & _ & _ & Ho)]]; lia.
Qed.

(** C10. [At] is guarded: whenever the offset is at or past the length of
    the current batch it returns (nil, nil) and indexes nothing. That is the
    case before the first [Next], after a [Next] that returned false, and
    after a [Next] that installed an empty batch. In every state that calls
    of [Next] lead to, [At] returns without a panic. *)
Theorem seriesSet_At_guarded (b : SeriesSet.seriesChunksSeriesSet U) (w : world) :
  adapter_reachable b ->
  SeriesSet.At b w <> None /\
  (seriesChunksSet_len (SeriesSet.currSet b) <= SeriesSet.currOffset b ->
     SeriesSet.At b w = Some (nil_slice, nil_slice)) /\
  (forall from : U, SeriesSet.At (SeriesSet.newSeriesChunksSeriesSet from) w
                    = Some (nil_slice, nil_slice)) /\
  (forall w0 b' w',
     SeriesSet.Next b w0 = Some ((false, b'), w') ->
     SeriesSet.At b' w = Some (nil_slice, nil_slice)) /\
  (forall w0 b' w',
     SeriesSet.currOffset b < int_max ->
     SeriesSet.Next b w0 = Some ((true, b'), w') ->
     seriesChunksSet_len (SeriesSet.currSet b') = 0 ->
     SeriesSet.At b' w = Some (nil_slice, nil_slice)).
Proof.
  intros Hreach. pose proof (adapter_reachable_offset b Hreach) as Hpos.
  split; [now apply At_inside|].
  split; [apply At_guard|].
  split; [intros from; apply At_guard; simpl; unfold seriesChunksSet_len, len; simpl; lia|].
  split.
  { intros w0 b' w' Hrun. apply At_guard.
    pose proof (seriesChunksSet_len_nonneg (SeriesSet.currSet b)) as Hlen.
    destruct (Next_inv _ _ _ _ _ Hrun) as [(Hf & _)|[(Hf & _)|(_ & Hle & Hcs & Ho)]];
      try discriminate.
    rewrite Hcs, Ho. unfold seriesChunksSet_len, len. simpl. lia. }
  intros w0 b' w' Hmax Hrun Hempty. apply At_guard. rewrite Hempty.
  apply (adapter_reachable_offset b').
  eapply reachable_Next; eassumption.
Qed.

End AdapterFacts.

(** ** The loading iterator: errors and exhaustion *)

Section LoaderFacts.
Context {U R : Type} `{Loading.seriesChunkRefsSetIterator U}
        `{Loading.bucketChunkReaders R}.

Lemma newSeriesAggrChunkSlice_set (size : Z) (b b' : seriesChunksSet) (s : slice)
    (w w' : world) :
  newSeriesAggrChunkSlice size b w = Some ((s, b'), w') ->
  series b' = series b /\ seriesReleasable b' = seriesReleasable b /\
  chunksReleaser b' = chunksReleaser b.
Proof.
  unfold newSeriesAggrChunkSlice. intros Hrun.
  destruct (negb (seriesReleasable b)).
  - apply bind_Some in Hrun. destruct Hrun as (s0 & w0 & _ & Hret).
    inversion Hret; subst. auto.
  - apply bind_Some in Hrun. destruct Hrun as (r0 & w0 & _ & Hret).
    inversion Hret; subst. auto.
Qed.

Lemma populate_series_set (ss : list seriesChunkRefs) :
  forall (ns ns' : seriesChunksSet) (i : nat) (r r' : R) (e : error) (w w' : world),
    Loading.populate_series ns ss i r w = Some ((e, r', ns'), w') ->
    series ns' = series ns /\ seriesReleasable ns' = seriesReleasable ns /\
    chunksReleaser ns' = chunksReleaser ns.
Proof.
  induction ss as [|s ss IH]; intros ns ns' i r r' e w w' Hrun; simpl in Hrun.
  - inversion Hrun; subst. auto.
  - apply bind_Some in Hrun. destruct Hrun as (e0 & w0 & _ & Hrun).
    apply bind_Some in Hrun. destruct Hrun as (u0 & w1 & _ & Hrun).
    apply bind_Some in Hrun. destruct Hrun as ([sl b1] & w2 & Hslice & Hrun).
    apply bind_Some in Hrun. destruct Hrun as (e1 & w3 & _ & Hrun).
    apply bind_Some in Hrun. destruct Hrun as (u1 & w4 & _ & Hrun).
    apply bind_Some in Hrun. destruct Hrun as ([e2 r2] & w5 & _ & Hrun).
    apply newSeriesAggrChunkSlice_set in Hslice. simpl in *.
    destruct e2 as [e2|].
    + inversion Hrun; subst. exact Hslice.
    + apply IH in Hrun. destruct Hrun as (H1 & H2 & H3), Hslice as (G1 & G2 & G3).
      repeat split; congruence.
Qed.

Lemma Next_latched (c : Loading.loadingSeriesChunksSetIterator U R) (w : world) :
  Loading.err c <> None -> Loading.Next c w = Some ((false, c), w).
Proof.
  intros Herr. unfold Loading.Next.
  destruct (Loading.err c); [reflexivity|congruence].
Qed.

Lemma Next_exhausted (c : Loading.loadingSeriesChunksSetIterator U R) (w : world) (u' : U) :
  Loading.err c = None -> Loading.refs_Next (Loading.from c) = (false, u') ->
  Loading.Next c w
  = Some ((false, Loading.mkLoading (Loading.chunkReaders c) u' (Loading.fromBatchSize c)
                    (Loading.current c) (Loading.refs_Err u')), w).
Proof.
  intros Herr Hup. unfold Loading.Next. rewrite Herr, Hup. reflexivity.
Qed.

Lemma deferred_true (c : Loading.loadingSeriesChunksSetIterator U R)
    (ns : seriesChunksSet) (u : seriesChunkRefsSet) (w : world) :
  Loading.deferred true c ns u w = Some ((true, c), log (EvRefsSetRelease u) w).
Proof. reflexivity. Qed.

Lemma deferred_false (c : Loading.loadingSeriesChunksSetIterator U R)
    (ns : seriesChunksSet) (u : seriesChunkRefsSet) (w : world) :
  Loading.err c <> None ->
  exists ns' w',
    release ns w = Some (ns', w') /\
    trace w' = trace w ++ release_events w ns /\
    (seriesReleasable ns = true -> released w ns w') /\
    Loading.deferred false c ns u w = Some ((false, c), log (EvRefsSetRelease u) w').
Proof.
  intros Herr. destruct (release_run ns w) as (w' & Hrun & Htr & _ & _ & Hpost).
  eexists. exists w'. split; [exact Hrun|]. split; [exact Htr|].
  split; [intros Hrel; now rewrite Hrel in Hpost|].
  unfold Loading.deferred. destruct (Loading.err c); [|congruence].
  simpl. unfold bind. rewrite Hrun. reflexivity.
Qed.

(** What a [Next] that goes on to convert a batch runs through. *)
Lemma Next_converting (c : Loading.loadingSeriesChunksSetIterator U R) (w : world)
    (b : bool) (c1 : Loading.loadingSeriesChunksSetIterator U R) (w1 : world) (u' : U) :
  Loading.err c = None -> Loading.refs_Next (Loading.from c) = (true, u') ->
  Loading.Next c w = Some ((b, c1), w1) ->
  let nextUnloaded := Loading.refs_At u' in
  let n := Z.of_nat (length (refs_series nextUnloaded)) in
  exists ns wa ser e r ns2 wb,
    newSeriesChunksSet (util_math_Max (Loading.fromBatchSize c) n) true w = Some (ns, wa) /\
    reslice (series ns) n = Some ser /\
    Loading.populate_series (with_series ser ns) (refs_series nextUnloaded) 0
      (Loading.readers_reset (Loading.chunkReaders c)) wa = Some ((e, r, ns2), wb) /\
    match e with
    | Some _ =>
        Loading.deferred false
          (Loading.mkLoading r u' (Loading.fromBatchSize c) (Loading.current c)
             (errors_Wrap e "preloading chunks")) ns2 nextUnloaded wb
        = Some ((b, c1), w1)
    | None =>
        exists wc,
          Loading.store_loaded (series ns2) (fst (fst (Loading.readers_load r)))
            (set_nextReleaser (Pos.succ (nextReleaser wb)) wb) = Some (tt, wc) /\
          match snd (fst (Loading.readers_load r)) with
          | Some _ =>
              Loading.deferred false
                (Loading.mkLoading (snd (Loading.readers_load r)) u'
                   (Loading.fromBatchSize c) (Loading.current c)
                   (errors_Wrap (snd (fst (Loading.readers_load r))) "loading chunks"))
                ns2 nextUnloaded wc
              = Some ((b, c1), w1)
          | None =>
              b = true /\
              c1 = Loading.mkLoading (snd (Loading.readers_load r)) u'
                     (Loading.fromBatchSize c)
                     (with_chunksReleaser (Some (nextReleaser wb)) ns2) (Loading.err c) /\
              w1 = log (EvRefsSetRelease nextUnloaded) wc
          end
    end.
Proof.
  intros Herr Hup Hrun. unfold Loading.Next in Hrun. rewrite Herr, Hup in Hrun.
  simpl in Hrun.
  apply bind_Some in Hrun. destruct Hrun as (ns & wa & Hns & Hrun).
  apply bind_Some in Hrun. destruct Hrun as (ser & wa' & Hser & Hrun).
  assert (Hser' : reslice (series ns) (Z.of_nat (length (refs_series (Loading.refs_At u')))) = Some ser
                  /\ wa' = wa).
  { unfold of_option in Hser. destruct (reslice _ _); [|discriminate].
    inversion Hser; subst. auto. }
  destruct Hser' as [Hres ->].
  apply bind_Some in Hrun. destruct Hrun as ([[e r] ns2] & wb & Hpop & Hrun).
  simpl in Hrun.
  exists ns, wa, ser, e, r, ns2, wb. split; [exact Hns|]. split; [exact Hres|].
  split; [exact Hpop|].
  destruct e as [e|]; [exact Hrun|].
  apply bind_Some in Hrun. destruct Hrun as (rel & wb' & Hnew & Hrun).
  unfold Loading.new_BatchBytes in Hnew. inversion Hnew; subst rel wb'. clear Hnew.
  destruct (Loading.readers_load r) as [[loaded e'] r'] eqn:Hload. simpl.
  apply bind_Some in Hrun. destruct Hrun as ([] & wc & Hstore & Hrun).
  exists wc. split; [exact Hstore|].
  destruct e' as [e'|]; [exact Hrun|].
  rewrite deferred_true in Hrun. inversion Hrun; subst. rewrite Herr. auto.
Qed.

(** [Next] returned false: an error is latched, or the upstream is
    exhausted without an error. *)
Lemma Next_false_cases (c c1 : Loading.loadingSeriesChunksSetIterator U R) (w w1 : world) :
  Loading.Next c w = Some ((false, c1), w1) ->
  Loading.err c1 <> None \/
  (Loading.err c1 = None /\
   exists u0, Loading.refs_Next u0 = (false, Loading.from c1) /\
              Loading.refs_Err (Loading.from c1) = None).
Proof.
  intros Hrun.
  destruct (Loading.err c) as [e|] eqn:Herr.
  { rewrite Next_latched in Hrun by congruence. inversion Hrun; subst. left. congruence. }
  destruct (Loading.refs_Next (Loading.from c)) as [ok u'] eqn:Hup.
  destruct ok.
  - left.
    destruct (Next_converting c w false c1 w1 u' Herr Hup Hrun)
      as (ns & wa & ser & e & r & ns2 & wb & _ & _ & _ & Hcase).
    destruct e as [e|].
    + destruct (deferred_false
                  (Loading.mkLoading r u' (Loading.fromBatchSize c) (Loading.current c)
                     (errors_Wrap (Some e) "preloading chunks")) ns2
                  (Loading.refs_At u') wb) as (ns' & w' & _ & _ & _ & Hdef);
        [simpl; discriminate|].
      rewrite Hdef in Hcase. inversion Hcase; subst. simpl. discriminate.
    + destruct Hcase as (wc & _ & Hcase).
      destruct (snd (fst (Loading.readers_load r))) as [e'|] eqn:He'.
      * destruct (deferred_false
                    (Loading.mkLoading (snd (Loading.readers_load r)) u'
                       (Loading.fromBatchSize c) (Loading.current c)
                       (errors_Wrap (Some e') "loading chunks")) ns2
                    (Loading.refs_At u') wc) as (ns' & w' & _ & _ & _ & Hdef);
          [simpl; discriminate|].
        rewrite Hdef in Hcase. inversion Hcase; subst. simpl. discriminate.
      * destruct Hcase as (Hb & _). discriminate.
  - rewrite (Next_exhausted c w u' Herr Hup) in Hrun. inversion Hrun; subst. simpl.
    destruct (Loading.refs_Err u') eqn:He; [left; discriminate|].
    right. split; [reflexivity|]. exists (Loading.from c). auto.
Qed.

Lemma loader_stays_exhausted (c1 : Loading.loadingSeriesChunksSetIterator U R) :
  refs_exhaustion_law U ->
  (Loading.err c1 <> None \/
   (Loading.err c1 = None /\
    exists u0, Loading.refs_Next u0 = (false, Loading.from c1) /\
               Loading.refs_Err (Loading.from c1) = None)) ->
  forall ws, Forall (fun r => r = Some (false, Loading.Err c1)) (loader_Next_again c1 ws).
Proof.
  intros Hlaw Hex ws. revert c1 Hex.
  induction ws as [|w ws IH]; intros c1 Hex; simpl; [constructor|].
  destruct Hex as [Hlatched|(Hnil & u0 & Hu0 & Herr0)].
  - rewrite Next_latched by exact Hlatched.
    constructor; [reflexivity|]. apply IH. now left.
  - destruct (Hlaw u0 (Loading.from c1) Hu0) as (u2 & Hu2 & Herr2).
    rewrite (Next_exhausted c1 w u2 Hnil Hu2).
    assert (Heq : Loading.Err (Loading.mkLoading (Loading.chunkReaders c1) u2
                                 (Loading.fromBatchSize c1) (Loading.current c1)
                                 (Loading.refs_Err u2)) = Loading.Err c1).
    { unfold Loading.Err. simpl. congruence. }
    constructor; [now rewrite Heq|].
    rewrite <- Heq. apply IH. right. simpl. split; [congruence|].
    exists (Loading.from c1). split; [exact Hu2|congruence].
Qed.

End LoaderFacts.

(** ** The preloading iterator *)

Section PreloadingFacts.
Context {U T : Type} `{Preloading.genericIterator U T} (zeroT : T).

Local Abbreviation iterator := (Preloading.preloadingSetIterator U T).

Lemma new_preloading_inv (done : bool) (n : Z) (from : U) (p0 : iterator) :
  Preloading.newPreloadingSetIterator zeroT done n from = Some p0 ->
  preloading_inv p0 /\
  0 <= int_sub n 1 /\
  Preloading.ch_cap (Preloading.preloaded p0) = Z.to_nat (int_sub n 1) /\
  Preloading.ch_buf (Preloading.preloaded p0) = [] /\
  Preloading.ch_closed (Preloading.preloaded p0) = false /\
  Preloading.goroutine p0 = Preloading.AtNext /\
  Preloading.sent p0 = [] /\ Preloading.err p0 = None.
Proof.
  unfold Preloading.newPreloadingSetIterator, Preloading.make_chan.
  destruct (0 <=? int_sub n 1) eqn:E; [|discriminate].
  apply Z.leb_le in E. intros Hp0. inversion Hp0; subst p0. simpl.
  split; [|repeat split; auto].
  unfold preloading_inv. simpl.
  split; [lia|]. split; [split; discriminate|].
  split; [intros i v Hi; rewrite lookup_nil in Hi; discriminate|].
  split; discriminate.
Qed.

Lemma buffered_send_inv (v : Preloading.preloadedSeriesChunksSet T)
    (g : Preloading.producer T) (p q : iterator) :
  Preloading.buffered_send v g p = Some q ->
  Preloading.ch_buf (Preloading.preloaded q) = Preloading.ch_buf (Preloading.preloaded p) ++ [v] /\
  (length (Preloading.ch_buf (Preloading.preloaded p))
   < Preloading.ch_cap (Preloading.preloaded p))%nat /\
  Preloading.ch_cap (Preloading.preloaded q) = Preloading.ch_cap (Preloading.preloaded p) /\
  Preloading.ch_closed (Preloading.preloaded q) = Preloading.ch_closed (Preloading.preloaded p) /\
  Preloading.goroutine q = g /\ Preloading.sent q = Preloading.sent p ++ [v] /\
  Preloading.err q = Preloading.err p /\ Preloading.from q = Preloading.from p /\
  Preloading.current q = Preloading.current p /\
  Preloading.ctx_done q = Preloading.ctx_done p.
Proof.
  unfold Preloading.buffered_send, Preloading.has_room.
  destruct (_ <? _)%nat eqn:E; [|discriminate].
  apply Nat.ltb_lt in E. intros Hq. inversion Hq; subst q. simpl. repeat split. exact E.
Qed.

Lemma preload_step_inv (p q : iterator) :
  preloading_inv p -> Preloading.preload_step zeroT p = Some q -> preloading_inv q.
Proof.
  intros (Hcap & Hclosed & Herrs & Hsel & Hsend) Hstep.
  unfold Preloading.preload_step in Hstep.
  destruct (Preloading.goroutine p) as [|v|v| |] eqn:Hg.
  - (* the call of Next *)
    assert (Hclean : forall i v, Preloading.ch_buf (Preloading.preloaded p) !! i = Some v ->
                                 Preloading.perr v <> None -> False).
    { intros i v Hi Hv. destruct (Herrs i v Hi Hv) as [_ [Hw|Hw]]; congruence. }
    assert (Hopen : Preloading.ch_closed (Preloading.preloaded p) = true -> False).
    { intros Hc. apply Hclosed in Hc. congruence. }
    destruct (Preloading.gi_Next (Preloading.from p)) as [ok u'].
    inversion Hstep; subst q. clear Hstep. unfold preloading_inv, winding_down. simpl.
    split; [exact Hcap|].
    split.
    { split; [intros Hc; now apply Hopen in Hc|].
      destruct ok; [discriminate|]. destruct (Preloading.gi_Err u'); discriminate. }
    split; [intros i v Hi Hv; exfalso; eapply Hclean; eassumption|].
    split.
    { intros v Hv. destruct ok; [now inversion Hv|].
      destruct (Preloading.gi_Err u'); discriminate. }
    { intros v Hv. destruct ok; [discriminate|].
      destruct (Preloading.gi_Err u') eqn:He; [|discriminate].
      inversion Hv; subst v. simpl. discriminate. }
  - (* a send of the select *)
    apply buffered_send_inv in Hstep.
    destruct Hstep as (Hbuf & Hroom & Hc & Hcl & Hg' & _).
    unfold preloading_inv, winding_down. rewrite Hbuf, Hc, Hcl, Hg'.
    split; [rewrite length_app; simpl; lia|].
    split; [split; [intros Hx; apply Hclosed in Hx; congruence|discriminate]|].
    split.
    { intros i x Hi Hx. exfalso.
      apply lookup_app_Some in Hi. destruct Hi as [Hi|[_ Hi]].
      - destruct (Herrs i x Hi Hx) as [_ [Hw|Hw]]; congruence.
      - apply list_lookup_singleton_Some in Hi. destruct Hi as [_ <-].
        apply Hx. now apply Hsel. }
    split; discriminate.
  - (* the send of the error *)
    apply buffered_send_inv in Hstep.
    destruct Hstep as (Hbuf & Hroom & Hc & Hcl & Hg' & _).
    unfold preloading_inv, winding_down. rewrite Hbuf, Hc, Hcl, Hg'.
    split; [rewrite length_app; simpl; lia|].
    split; [split; [intros Hx; apply Hclosed in Hx; congruence|discriminate]|].
    split.
    { intros i x Hi Hx.
      apply lookup_app_Some in Hi. destruct Hi as [Hi|[Hge Hi]].
      - exfalso. destruct (Herrs i x Hi Hx) as [_ [Hw|Hw]]; congruence.
      - apply list_lookup_singleton_Some in Hi. destruct Hi as [Hi <-].
        split; [rewrite length_app; simpl; lia|now left]. }
    split; discriminate.
  - (* the close *)
    inversion Hstep; subst q. clear Hstep. unfold preloading_inv, winding_down. simpl.
    split; [exact Hcap|]. split; [split; reflexivity|].
    split; [intros i v Hi Hv; split; [now apply (Herrs i v)|now right]|].
    split; discriminate.
  - discriminate.
Qed.

Lemma preload_ctxDone_inv (p q : iterator) :
  preloading_inv p -> Preloading.preload_ctxDone p = Some q -> preloading_inv q.
Proof.
  intros (Hcap & Hclosed & Herrs & Hsel & Hsend) Hstep.
  unfold Preloading.preload_ctxDone in Hstep.
  destruct (Preloading.goroutine p) as [|v|v| |] eqn:Hg; try discriminate.
  destruct (Preloading.ctx_done p); [|discriminate].
  inversion Hstep; subst q. clear Hstep. unfold preloading_inv, winding_down. simpl.
  split; [exact Hcap|].
  split; [split; [intros Hx; apply Hclosed in Hx; congruence|discriminate]|].
  split; [intros i x Hi Hx; split; [now apply (Herrs i x)|now left]|].
  split; discriminate.
Qed.

Lemma cancel_inv (p : iterator) : preloading_inv p -> preloading_inv (Preloading.cancel p).
Proof. intros Hinv. exact Hinv. Qed.

(** What a receive does to the channel and the producer. *)
Lemma receive_cases (p q : iterator) (r : option (Preloading.preloadedSeriesChunksSet T)) :
  Preloading.receive p = Some (r, q) ->
  Preloading.err q = Preloading.err p /\ Preloading.current q = Preloading.current p /\
  Preloading.from q = Preloading.from p /\ Preloading.ctx_done q = Preloading.ctx_done p /\
  Preloading.ch_cap (Preloading.preloaded q) = Preloading.ch_cap (Preloading.preloaded p) /\
  Preloading.ch_closed (Preloading.preloaded q) = Preloading.ch_closed (Preloading.preloaded p) /\
  ((exists v, r = Some v /\
      Preloading.ch_buf (Preloading.preloaded p) = v :: Preloading.ch_buf (Preloading.preloaded q) /\
      Preloading.goroutine q = Preloading.goroutine p /\
      Preloading.sent q = Preloading.sent p) \/
   (exists v, r = Some v /\
      Preloading.ch_buf (Preloading.preloaded p) = [] /\
      Preloading.ch_buf (Preloading.preloaded q) = [] /\
      Preloading.sent q = Preloading.sent p ++ [v] /\
      ((Preloading.goroutine p = Preloading.AtSelect v /\
        Preloading.goroutine q = Preloading.AtNext) \/
       (Preloading.goroutine p = Preloading.AtSendErr v /\
        Preloading.goroutine q = Preloading.AtClose))) \/
   (r = None /\ q = p /\
      Preloading.ch_buf (Preloading.preloaded p) = [] /\
      Preloading.ch_closed (Preloading.preloaded p) = true)).
Proof.
  unfold Preloading.receive. intros Hrecv.
  destruct (Preloading.ch_buf (Preloading.preloaded p)) as [|v rest] eqn:Hbuf.
  - destruct (Preloading.goroutine p) as [|v|v| |] eqn:Hg;
      try (destruct (Preloading.ch_closed (Preloading.preloaded p)) eqn:Hc; [|discriminate]);
      inversion Hrecv; subst; simpl;
      repeat (split; [first [reflexivity|assumption]|]);
      try (right; right; repeat split; first [reflexivity|assumption]).
    + right. left. exists v. repeat split; auto.
    + right. left. exists v. repeat split; auto.
  - inversion Hrecv; subst. simpl. repeat (split; [reflexivity|]).
    left. exists v. repeat split.
Qed.

Lemma receive_inv (p q : iterator) (r : option (Preloading.preloadedSeriesChunksSet T)) :
  preloading_inv p -> Preloading.receive p = Some (r, q) -> preloading_inv q.
Proof.
  intros Hinv Hrecv. pose proof Hinv as (Hcap & Hclosed & Herrs & Hsel & Hsend).
  destruct (receive_cases p q r Hrecv)
    as (_ & _ & _ & _ & Hc & Hcl & [(v & _ & Hbuf & Hg & _)|[(v & _ & Hb & Hbq & _ & Hg)|(_ & -> & _)]]).
  - unfold preloading_inv, winding_down. rewrite Hc, Hcl, Hg.
    rewrite Hbuf in Hcap, Herrs. simpl in Hcap.
    split; [lia|]. split; [exact Hclosed|].
    split; [|split; assumption].
    intros i x Hi Hx. destruct (Herrs (S i) x Hi Hx) as [Hlen Hw].
    simpl in Hlen. split; [lia|exact Hw].
  - unfold preloading_inv, winding_down. rewrite Hc, Hcl, Hbq.
    split; [simpl; lia|].
    destruct Hg as [[Hgp Hgq]|[Hgp Hgq]]; rewrite Hgq.
    + split; [split; [intros Hx; apply Hclosed in Hx; congruence|discriminate]|].
      split; [intros i x Hi; rewrite lookup_nil in Hi; discriminate|].
      split; discriminate.
    + split; [split; [intros Hx; apply Hclosed in Hx; congruence|discriminate]|].
      split; [intros i x Hi; rewrite lookup_nil in Hi; discriminate|].
      split; discriminate.
  - exact Hinv.
Qed.

(** [Next] in terms of the receive. *)
Lemma Next_receive (p q : iterator) (b : bool) :
  Preloading.Next p = Some (b, q) ->
  (exists q0, Preloading.receive p = Some (None, q0) /\ b = false /\ q = q0) \/
  (exists v q0,
     Preloading.receive p = Some (Some v, q0) /\
     b = is_nil_error (Preloading.perr v) /\
     Preloading.err q = Preloading.perr v /\ Preloading.current q = Preloading.set v /\
     Preloading.preloaded q = Preloading.preloaded q0 /\
     Preloading.goroutine q = Preloading.goroutine q0 /\
     Preloading.sent q = Preloading.sent q0 /\ Preloading.from q = Preloading.from q0 /\
     Preloading.ctx_done q = Preloading.ctx_done q0).
Proof.
  unfold Preloading.Next. destruct (Preloading.receive p) as [[[v|] q0]|]; intros Hn;
    inversion Hn; subst; [right|left]; eauto 12.
Qed.

Lemma Next_inv_preloading (p q : iterator) (b : bool) :
  preloading_inv p -> Preloading.Next p = Some (b, q) -> preloading_inv q.
Proof.
  intros Hinv Hn.
  destruct (Next_receive p q b Hn) as [(q0 & Hr & _ & ->)|(v & q0 & Hr & _ & _ & _ & Hp & Hg & _)].
  - eapply receive_inv; eassumption.
  - pose proof (receive_inv p q0 _ Hinv Hr) as Hinv0.
    unfold preloading_inv, winding_down in *. rewrite Hp, Hg. exact Hinv0.
Qed.

Lemma step_inv (p q : iterator) :
  preloading_inv p -> Preloading.step zeroT p q -> preloading_inv q.
Proof.
  intros Hinv Hstep. destruct Hstep.
  - eapply preload_step_inv; eassumption.
  - eapply preload_ctxDone_inv; eassumption.
  - now apply cancel_inv.
  - eapply Next_inv_preloading; eassumption.
Qed.

Lemma steps_inv (p q : iterator) :
  preloading_inv p -> Preloading.steps zeroT p q -> preloading_inv q.
Proof.
  intros Hinv Hsteps. induction Hsteps; [exact Hinv|].
  eapply step_inv; [|eassumption]. now apply IHHsteps.
Qed.

Lemma reachable_inv (p : iterator) : Preloading.reachable zeroT p -> preloading_inv p.
Proof.
  intros (done & n & from & p0 & Hnew & Hsteps).
  eapply steps_inv; [|exact Hsteps].
  now apply (new_preloading_inv done n from).
Qed.


Lemma step_cap (p q : iterator) :
  Preloading.step zeroT p q ->
  Preloading.ch_cap (Preloading.preloaded q) = Preloading.ch_cap (Preloading.preloaded p).
Proof.
  intros Hstep. destruct Hstep as [p p' Hs|p p' Hs|p|p b p' Hs].
  - unfold Preloading.preload_step in Hs.
    destruct (Preloading.goroutine p) as [|v|v| |].
    + destruct (Preloading.gi_Next (Preloading.from p)). now inversion Hs.
    + apply buffered_send_inv in Hs. tauto.
    + apply buffered_send_inv in Hs. tauto.
    + now inversion Hs.
    + discriminate.
  - unfold Preloading.preload_ctxDone in Hs.
    destruct (Preloading.goroutine p); try discriminate.
    destruct (Preloading.ctx_done p); [|discriminate]. now inversion Hs.
  - reflexivity.
  - destruct (Next_receive p p' b Hs) as [(q0 & Hr & _ & ->)|(v & q0 & Hr & _ & _ & _ & Hp & _)].
    + apply receive_cases in Hr. tauto.
    + rewrite Hp. apply receive_cases in Hr. tauto.
Qed.

(** *** After the upstream is exhausted *)




(** *** After [Next] has returned false *)

Lemma Next_false_drained (p p1 : iterator) :
  preloading_inv p -> Preloading.Next p = Some (false, p1) -> drained p1.
Proof.
  intros (Hcap & Hclosed & Herrs & Hsel & Hsend) Hn. unfold drained, winding_down.
  destruct (Next_receive p p1 false Hn)
    as [(q0 & Hr & _ & ->)|(v & q0 & Hr & Hb & _ & _ & Hp & Hg & _)].
  - destruct (receive_cases p q0 None Hr)
      as (_ & _ & _ & _ & _ & _ & [(v & Hv & _)|[(v & Hv & _)|(_ & -> & Hbuf & Hc)]]);
      try discriminate.
    split; [exact Hbuf|]. right. now apply Hclosed.
  - assert (Hv : Preloading.perr v <> None).
    { destruct (Preloading.perr v); [discriminate|]. simpl in Hb. discriminate. }
    rewrite Hp, Hg.
    destruct (receive_cases p q0 (Some v) Hr)
      as (_ & _ & _ & _ & _ & _ &
          [(v' & Hv' & Hbuf & Hg0 & _)|[(v' & Hv' & _ & Hbq & _ & Hg0)|(Hnone & _)]]);
      try discriminate.
    + inversion Hv'; subst v'. clear Hv'.
      destruct (Herrs 0%nat v) as [Hlen Hw]; [now rewrite Hbuf|exact Hv|].
      rewrite Hbuf in Hlen. simpl in Hlen.
      split; [|unfold winding_down in Hw; now rewrite Hg0].
      destruct (Preloading.ch_buf (Preloading.preloaded q0)); [reflexivity|simpl in Hlen; lia].
    + inversion Hv'; subst v'. clear Hv'.
      split; [exact Hbq|].
      destruct Hg0 as [[Hgp _]|[_ Hgq]]; [|now left].
      exfalso. apply Hv. now apply Hsel.
Qed.

Lemma drained_Next (q q' : iterator) (b : bool) :
  drained q -> Preloading.Next q = Some (b, q') -> b = false /\ q' = q.
Proof.
  intros [Hbuf Hw] Hn. unfold Preloading.Next, Preloading.receive in Hn.
  rewrite Hbuf in Hn.
  destruct Hw as [Hg|Hg]; rewrite Hg in Hn;
    destruct (Preloading.ch_closed (Preloading.preloaded q)); inversion Hn; auto.
Qed.

Lemma drained_step (q q' : iterator) :
  drained q -> Preloading.step zeroT q q' ->
  drained q' /\ Preloading.err q' = Preloading.err q.
Proof.
  intros Hd Hstep. pose proof Hd as [Hbuf Hw].
  destruct Hstep as [q q' Hs|q q' Hs|q|q b q' Hs].
  - unfold Preloading.preload_step in Hs.
    destruct Hw as [Hg|Hg]; rewrite Hg in Hs; [|discriminate].
    inversion Hs; subst q'. unfold drained, winding_down. simpl. auto.
  - unfold Preloading.preload_ctxDone in Hs.
    destruct Hw as [Hg|Hg]; rewrite Hg in Hs; discriminate.
  - unfold drained, winding_down. simpl. auto.
  - destruct (drained_Next q q' b Hd Hs) as [_ ->]. auto.
Qed.

Lemma drained_steps (q q' : iterator) :
  drained q -> Preloading.steps zeroT q q' ->
  drained q' /\ Preloading.err q' = Preloading.err q.
Proof.
  intros Hd Hsteps. induction Hsteps; [auto|].
  destruct (IHHsteps Hd) as [Hd' He'].
  destruct (drained_step _ _ Hd' H0) as [Hd'' He'']. split; [exact Hd''|congruence].
Qed.

(** A drained iterator answers [Next] with false, at once or as soon as the
    producer has closed the channel. *)
Lemma drained_answers (q : iterator) :
  preloading_inv q -> drained q ->
  Preloading.Next q = Some (false, q) \/
  exists q1, Preloading.preload_step zeroT q = Some q1 /\
             Preloading.Next q1 = Some (false, q1).
Proof.
  intros (_ & Hclosed & _) [Hbuf [Hg|Hg]].
  - right. unfold Preloading.preload_step. rewrite Hg. eexists. split; [reflexivity|].
    unfold Preloading.Next, Preloading.receive. simpl. rewrite Hbuf. reflexivity.
  - left. unfold Preloading.Next, Preloading.receive. rewrite Hbuf, Hg.
    rewrite (proj2 Hclosed Hg). reflexivity.
Qed.

End PreloadingFacts.

(** ** Exhaustion *)

Section Exhaustion.
Context {U R : Type} `{Loading.seriesChunkRefsSetIterator U}
        `{Loading.bucketChunkReaders R}.
Context {V T : Type} `{Preloading.genericIterator V T} (zeroT : T).

(** C9. Once [Next] has returned false, every later [Next] returns false and
    [Err] stays what it was. For the loading iterator this rests on the same
    law for its upstream; each later call returns, in whatever world it is
    made. For the preloading iterator it holds through every interleaving of
    the producer, the caller and the consumer: [Err] does not move, a [Next]
    that returns is false, and [Next] does return, at once or as soon as the
    producer has closed the channel. *)
Theorem idempotent_exhaustion :
  refs_exhaustion_law U ->
  (forall (c c1 : Loading.loadingSeriesChunksSetIterator U R) (w w1 : world),
     Loading.Next c w = Some ((false, c1), w1) ->
     forall ws,
       Forall (fun r => r = Some (false, Loading.Err c1)) (loader_Next_again c1 ws)) /\
  (forall (p p1 : Preloading.preloadingSetIterator V T),
     Preloading.reachable zeroT p ->
     Preloading.Next p = Some (false, p1) ->
     forall q,
       Preloading.steps zeroT p1 q ->
       Preloading.Err q = Preloading.Err p1 /\
       (forall b q', Preloading.Next q = Some (b, q') ->
                     b = false /\ Preloading.Err q' = Preloading.Err p1) /\
       (Preloading.Next q = Some (false, q) \/
        exists q1, Preloading.preload_step zeroT q = Some q1 /\
                   Preloading.Next q1 = Some (false, q1))).
Proof.
  intros Hlaw. split.
  - intros c c1 w w1 Hrun ws. apply loader_stays_exhausted; [exact Hlaw|].
    eapply Next_false_cases. exact Hrun.
  - intros p p1 Hreach Hn q Hsteps.
    pose proof (reachable_inv zeroT p Hreach) as Hinv.
    pose proof (Next_inv_preloading p p1 false Hinv Hn) as Hinv1.
    pose proof (Next_false_drained p p1 Hinv Hn) as Hd1.
    destruct (drained_steps zeroT p1 q Hd1 Hsteps) as [Hdq Heq].
    pose proof (steps_inv zeroT p1 q Hinv1 Hsteps) as Hinvq.
    split; [exact Heq|]. split.
    + intros b q' Hn'. destruct (drained_Next q q' b Hdq Hn') as [-> ->]. auto.
    + now apply drained_answers.
Qed.

End Exhaustion.

(** ** The cache adapter *)

Section CacheFacts.
Context {C : Type} `{Cache.RemoteCacheClient C}.

(** Whatever the client, [Fetch] adds the number of keys to the requests,
    the number of entries it returns to the hits, and returns what
    [GetMulti] returned. *)
Lemma Fetch_counters (c : Cache.MemcachedCache C) (keys : list string) :
  fst (Cache.Fetch c keys) = fst (Cache.GetMulti (Cache.memcached c) keys) /\
  Cache.requests (snd (Cache.Fetch c keys))
  = Cache.requests c + Z.of_nat (length keys) /\
  Cache.hits (snd (Cache.Fetch c keys))
  = Cache.hits c + Z.of_nat (size (fst (Cache.Fetch c keys))) /\
  Cache.memcached (snd (Cache.Fetch c keys)) = snd (Cache.GetMulti (Cache.memcached c) keys) /\
  Cache.name (snd (Cache.Fetch c keys)) = Cache.name c.
Proof.
  unfold Cache.Fetch. destruct (Cache.GetMulti (Cache.memcached c) keys) as [res cl].
  simpl. repeat split.
Qed.
End CacheFacts.

Lemma hits_of_lookup (keys : list string) (items : gmap string bytes) (k : string) (v : bytes) :
  Cache.hits_of keys items !! k = Some v <-> k ∈ keys /\ items !! k = Some v.
Proof.
  unfold Cache.hits_of. rewrite map_lookup_filter_Some. simpl. tauto.
Qed.

(** C8. [Fetch] adds [len(keys)] to the requests counter and the number of
    entries of the map it returns to the hits counter; the map it returns is
    the one the client gave, which holds requested keys that the server has,
    and is empty when the round trip failed: [Fetch] has no error to return. *)
Theorem Fetch_counts_hits (c : Cache.MemcachedCache Cache.memcachedClient)
    (keys : list string) :
  let result := fst (Cache.Fetch c keys) in
  let c' := snd (Cache.Fetch c keys) in
  let met := Cache.network (Cache.memcached c) (Cache.trips (Cache.memcached c)) in
  Cache.requests c' = Cache.requests c + Z.of_nat (length keys) /\
  Cache.hits c' = Cache.hits c + Z.of_nat (size result) /\
  result = fst (Cache.GetMulti (Cache.memcached c) keys) /\
  (forall (k : string) (v : bytes), result !! k = Some v ->
     k ∈ keys /\ exists items, met = Cache.ServerHolds items /\ items !! k = Some v) /\
  (forall items (k : string) (v : bytes),
     met = Cache.ServerHolds items -> k ∈ keys -> items !! k = Some v ->
     result !! k = Some v) /\
  (forall e, met = Cache.TransportError e -> result = ∅).
Proof.
  intros result c' met.
  destruct (Fetch_counters c keys) as (Hres & Hreq & Hhits & _).
  split; [exact Hreq|]. split; [exact Hhits|]. split; [exact Hres|].
  assert (Hresult : result = match met with
                             | Cache.TransportError _ => ∅
                             | Cache.ServerHolds items => Cache.hits_of keys items
                             end).
  { unfold result. rewrite Hres. simpl. unfold Cache.memcachedClient_GetMulti.
    fold met. destruct met; reflexivity. }
  split.
  { intros k v Hk. rewrite Hresult in Hk. destruct met as [e|items].
    - rewrite lookup_empty in Hk. discriminate.
    - apply hits_of_lookup in Hk. destruct Hk as [Hin Hit]. split; [exact Hin|]. eauto. }
  split.
  { intros items k v Hmet Hin Hit. rewrite Hresult, Hmet. apply hits_of_lookup. auto. }
  intros e Hmet. rewrite Hresult, Hmet. reflexivity.
Qed.

(** ** The loading iterator: what it asks of the chunk readers *)

Section LoaderPlan.
Context {U R : Type} `{Loading.seriesChunkRefsSetIterator U}
        `{Loading.bucketChunkReaders R}.

Lemma populate_chunks_plan (ser : slice) (i : nat) (cs : list seriesChunkRef) :
  forall (j : nat) (r r' : R) (e : error) (w w' : world),
    Loading.populate_chunks ser i cs j r w = Some ((e, r'), w') ->
    addLoads_chunks i cs j r = (e, r').
Proof.
  induction cs as [|chunk cs IH]; intros j r r' e w w' Hrun; simpl in Hrun |- *.
  - now inversion Hrun.
  - apply bind_Some in Hrun. destruct Hrun as ([] & w1 & _ & Hrun).
    apply bind_Some in Hrun. destruct Hrun as ([] & w2 & _ & Hrun).
    destruct (Loading.readers_addLoad (blockID chunk) (ref chunk) i j r) as [[e1|] r1].
    + now inversion Hrun.
    + eapply IH. exact Hrun.
Qed.

Lemma populate_series_plan (ss : list seriesChunkRefs) :
  forall (ns ns' : seriesChunksSet) (i : nat) (r r' : R) (e : error) (w w' : world),
    Loading.populate_series ns ss i r w = Some ((e, r', ns'), w') ->
    addLoads_series ss i r = (e, r').
Proof.
  induction ss as [|s ss IH]; intros ns ns' i r r' e w w' Hrun; simpl in Hrun |- *.
  - now inversion Hrun.
  - apply bind_Some in Hrun. destruct Hrun as (e0 & w0 & _ & Hrun).
    apply bind_Some in Hrun. destruct Hrun as ([] & w1 & _ & Hrun).
    apply bind_Some in Hrun. destruct Hrun as ([a ns1] & w2 & _ & Hrun).
    apply bind_Some in Hrun. destruct Hrun as (e1 & w3 & _ & Hrun).
    apply bind_Some in Hrun. destruct Hrun as ([] & w4 & _ & Hrun).
    apply bind_Some in Hrun. destruct Hrun as ([e2 r2] & w5 & Hpop & Hrun).
    rewrite (populate_chunks_plan _ _ _ _ _ _ _ _ _ Hpop).
    simpl in Hrun. destruct e2 as [e2|].
    + now inversion Hrun.
    + eapply IH. exact Hrun.
Qed.

End LoaderPlan.

(** ** Chunk fidelity of the loading iterator *)

Lemma heap_read_same_cell {A : Type} (zero : A) (h : gmap loc (list A)) (s s' : slice)
    (i j : nat) :
  s_ptr s = s_ptr s' -> (s_off s + i)%nat = (s_off s' + j)%nat ->
  heap_read zero h s i = heap_read zero h s' j.
Proof. intros Hp Ho. unfold heap_read. now rewrite Hp, Ho. Qed.

(** A write changes at most the cell it is made to. *)
Lemma heap_read_write_cases {A : Type} (zero : A) (h : gmap loc (list A)) (s s' : slice)
    (i j : nat) (v : A) :
  heap_read zero (heap_write h s i v) s' j = heap_read zero h s' j \/
  (heap_read zero (heap_write h s i v) s' j = v /\
   heap_read zero h s' j = heap_read zero h s i).
Proof.
  destruct (decide (s_ptr s = s_ptr s' /\ (s_off s + i)%nat = (s_off s' + j)%nat))
    as [[Hp Ho]|Hne].
  - rewrite <- (heap_read_same_cell zero _ s s' i j Hp Ho).
    rewrite <- (heap_read_same_cell zero h s s' i j Hp Ho).
    unfold heap_read, heap_write. destruct (s_ptr s) as [l|]; [|now left].
    rewrite lookup_alter. destruct (decide (l = l)) as [_|]; [|congruence].
    destruct (h !! l) as [arr|]; simpl; [|now left].
    destruct (decide (s_off s + i < length arr)%nat) as [Hlt|Hge].
    + right. now rewrite list_lookup_insert_eq.
    + left. now rewrite list_insert_ge by lia.
  - left. apply heap_read_write_other.
    destruct (decide (s_ptr s = s_ptr s')); [right|left]; [|assumption].
    intros Ho. apply Hne. split; assumption.
Qed.

Lemma entries_valid_write (w : world) (ser s : slice) (i : nat) (e : seriesEntry) :
  entries_valid w ser ->
  entries_valid (set_entryHeap (heap_write (entryHeap w) s i e) w) ser.
Proof.
  intros (le & arr & Hp & Harr & Hb). simpl.
  destruct (extends_shape_write (entryHeap w) s i e le arr Harr) as (arr' & Harr' & Hlen).
  exists le, arr'. split; [exact Hp|]. split; [exact Harr'|lia].
Qed.

Lemma read_write_entry (w : world) (ser : slice) (i : nat) (e : seriesEntry) :
  entries_valid w ser -> (i < s_len ser)%nat ->
  read_entry (set_entryHeap (heap_write (entryHeap w) ser i e) w) ser i = e.
Proof.
  intros (le & arr & Hp & Harr & Hb) Hi. unfold read_entry. simpl.
  eapply heap_read_write_eq; [exact Hp|exact Harr|lia].
Qed.

Lemma read_write_entry_other (w : world) (ser : slice) (i k : nat) (e : seriesEntry) :
  k <> i ->
  read_entry (set_entryHeap (heap_write (entryHeap w) ser i e) w) ser k
  = read_entry w ser k.
Proof.
  intros Hne. unfold read_entry. simpl. apply heap_read_write_other. right. lia.
Qed.

Section FidelityFacts.
Context {U R : Type} `{Loading.seriesChunkRefsSetIterator U}
        `{Loading.bucketChunkReaders R}.

Lemma series_at_inv (ser : slice) (i : nat) (w w' : world) (e : seriesEntry) :
  Loading.series_at ser i w = Some (e, w') ->
  (i < s_len ser)%nat /\ e = read_entry w ser i /\ w' = w.
Proof.
  unfold Loading.series_at, index_entry, len.
  destruct (0 <=? Z.of_nat i) eqn:E1; simpl; [|discriminate].
  destruct (Z.of_nat i <? Z.of_nat (s_len ser)) eqn:E2; [|discriminate].
  apply Z.ltb_lt in E2. rewrite Nat2Z.id. intros Heq. inversion Heq; subst.
  repeat split. lia.
Qed.

Lemma set_chunk_field_inv (f : AggrChunk -> AggrChunk) (ser : slice) (i j : nat)
    (w w' : world) :
  Loading.set_chunk_field f ser i j w = Some (tt, w') ->
  (i < s_len ser)%nat /\
  (j < s_len (chks (read_entry w ser i)))%nat /\
  w' = set_chunkHeap
         (heap_write (chunkHeap w) (chks (read_entry w ser i)) j
            (f (read_chunk w (chks (read_entry w ser i)) j))) w.
Proof.
  unfold Loading.set_chunk_field. intros Hrun.
  apply bind_Some in Hrun. destruct Hrun as (e & w0 & Hat & Hrun).
  apply series_at_inv in Hat. destruct Hat as (Hi & -> & ->).
  destruct (j <? s_len (chks (read_entry w ser i)))%nat eqn:E; [|discriminate].
  apply Nat.ltb_lt in E. split; [exact Hi|]. split; [exact E|].
  unfold bind, gets, write_chunk, modify in Hrun. now inversion Hrun.
Qed.

Lemma chunks_valid_shape (w w' : world) (rg : slice) :
  extends_shape (chunkHeap w) (chunkHeap w') -> chunks_valid w rg -> chunks_valid w' rg.
Proof.
  intros Hext (l & arr & Hp & Harr & Hb).
  destruct (Hext l arr Harr) as (arr' & Harr' & Hlen).
  exists l, arr'. split; [exact Hp|]. split; [exact Harr'|lia].
Qed.

(** The loop over the chunks of one series: it writes the cells from [j] on
    of the chunk slice of entry [i], and nothing else. *)
Lemma populate_chunks_run (ser : slice) (i : nat) (cs : list seriesChunkRef) :
  forall (j : nat) (r r' : R) (e : error) (w w' : world),
    Loading.populate_chunks ser i cs j r w = Some ((e, r'), w') ->
    let rg := chks (read_entry w ser i) in
    (cs = [] \/ chunks_valid w rg) ->
    entryHeap w' = entryHeap w /\ same_pools w w' /\ trace w' = trace w /\
    extends_shape (chunkHeap w) (chunkHeap w') /\
    (forall s' k,
       (s_ptr s' <> s_ptr rg \/ (s_off s' + k < s_off rg + j)%nat \/
        (s_off rg + j + length cs <= s_off s' + k)%nat) ->
       read_chunk w' s' k = read_chunk w s' k) /\
    (e = None ->
     forall k c, cs !! k = Some c ->
       MinTime (read_chunk w' rg (j + k)) = minTime c /\
       MaxTime (read_chunk w' rg (j + k)) = maxTime c).
Proof.
  induction cs as [|chunk cs IH]; intros j r r' e w w' Hrun rg Hvalid.
  - simpl in Hrun. inversion Hrun; subst.
    split; [reflexivity|]. split; [apply same_pools_refl|]. split; [reflexivity|].
    split; [apply extends_shape_refl|]. split; [reflexivity|].
    intros _ k c Hk. rewrite lookup_nil in Hk. discriminate.
  - destruct Hvalid as [Hnil|Hvalid]; [discriminate|].
    simpl in Hrun.
    apply bind_Some in Hrun. destruct Hrun as ([] & w1 & Hmin & Hrun).
    apply bind_Some in Hrun. destruct Hrun as ([] & w2 & Hmax & Hrun).
    apply set_chunk_field_inv in Hmin. destruct Hmin as (Hi & Hj & Hw1).
    fold rg in Hj, Hw1.
    assert (He1 : entryHeap w1 = entryHeap w) by (subst w1; reflexivity).
    assert (Hrg1 : chks (read_entry w1 ser i) = rg).
    { unfold rg, read_entry. now rewrite He1. }
    apply set_chunk_field_inv in Hmax. destruct Hmax as (_ & _ & Hw2).
    rewrite Hrg1 in Hw2.
    assert (He2 : entryHeap w2 = entryHeap w) by (subst w2; simpl; exact He1).
    assert (Hrg2 : chks (read_entry w2 ser i) = rg).
    { unfold rg, read_entry. now rewrite He2. }
    destruct Hvalid as (l & arr & Hp & Harr & Hb).
    (* the cell written, after the two writes *)
    assert (Hcell1 : read_chunk w1 rg j = with_MinTime (minTime chunk) (read_chunk w rg j)).
    { subst w1. unfold read_chunk. simpl.
      eapply heap_read_write_eq; [exact Hp|exact Harr|lia]. }
    assert (Hshape1 : extends_shape (chunkHeap w) (chunkHeap w1)).
    { subst w1. simpl. apply extends_shape_write. }
    assert (Hshape2 : extends_shape (chunkHeap w1) (chunkHeap w2)).
    { subst w2. simpl. apply extends_shape_write. }
    destruct (Hshape1 l arr Harr) as (arr1 & Harr1 & Hlen1).
    assert (Hcell2 : read_chunk w2 rg j
                     = with_MaxTime (maxTime chunk)
                         (with_MinTime (minTime chunk) (read_chunk w rg j))).
    { subst w2. unfold read_chunk at 1. simpl. rewrite Hcell1.
      eapply heap_read_write_eq; [exact Hp|exact Harr1|lia]. }
    assert (Hframe2 : forall s' k,
              (s_ptr s' <> s_ptr rg \/ (s_off s' + k)%nat <> (s_off rg + j)%nat) ->
              read_chunk w2 s' k = read_chunk w s' k).
    { intros s' k Hne. subst w2 w1. unfold read_chunk. simpl.
      rewrite !heap_read_write_other; [reflexivity| |];
        (destruct Hne as [Hne|Hne]; [left; congruence|right; lia]). }
    assert (Hpools2 : same_pools w w2).
    { subst w2 w1. repeat split. }
    assert (Htr2 : trace w2 = trace w) by (subst w2 w1; reflexivity).
    destruct (Loading.readers_addLoad (blockID chunk) (ref chunk) i j r) as [e1 r1].
    destruct e1 as [e1|].
    + inversion Hrun; subst.
      split; [exact He2|]. split; [exact Hpools2|]. split; [exact Htr2|].
      split; [eapply extends_shape_trans; eassumption|].
      split; [|discriminate].
      intros s' k Hout. apply Hframe2. simpl in Hout.
      destruct Hout as [Hout|[Hout|Hout]]; [now left|right; lia|right; lia].
    + specialize (IH (S j) r1 r' e w2 w' Hrun).
      cbv zeta in IH. rewrite Hrg2 in IH.
      destruct IH as (He' & Hpools' & Htr' & Hshape' & Hframe' & Hfid').
      { right. eapply chunks_valid_shape; [exact Hshape2|].
        eapply chunks_valid_shape; [exact Hshape1|]. exists l, arr. auto. }
      split; [congruence|]. split; [eapply same_pools_trans; eassumption|].
      split; [congruence|].
      split; [eapply extends_shape_trans; [|exact Hshape'];
              eapply extends_shape_trans; eassumption|].
      split.
      * intros s' k Hout. simpl in Hout.
        rewrite Hframe'; [apply Hframe2|];
          (destruct Hout as [Hout|[Hout|Hout]]; [now left|right; lia|right; lia]).
      * intros Hnone. pose proof (Hfid' Hnone) as Hcells.
        intros k c Hk. destruct k as [|k]; simpl in Hk.
        -- inversion Hk; subst c. rewrite Nat.add_0_r.
           rewrite Hframe' by (right; left; lia). rewrite Hcell2. split; reflexivity.
        -- replace (j + S k)%nat with (S j + k)%nat by lia. now apply Hcells.
Qed.


Lemma sp_inv_frame (sp : SlabPool) (w w' : world) :
  extends_shape (chunkHeap w) (chunkHeap w') ->
  seriesChunksSlicePool w' = seriesChunksSlicePool w ->
  sp_inv sp w -> sp_inv sp w'.
Proof.
  intros Hext Hpool (Hsz & Hslabs & Hpooled & Hnd). unfold sp_inv. rewrite Hpool.
  split; [exact Hsz|]. split; [|split; [|exact Hnd]].
  - eapply Forall_impl; [exact Hslabs|]. intros x Hx. eapply slab_ok_extends; eassumption.
  - eapply Forall_impl; [exact Hpooled|]. intros x Hx.
    eapply pooled_slab_ok_extends; eassumption.
Qed.

Lemma region_safe_frame (sp : SlabPool) (w w' : world) (r0 : slice) :
  extends_shape (chunkHeap w) (chunkHeap w') ->
  seriesChunksSlicePool w' = seriesChunksSlicePool w ->
  region_safe sp w r0 -> region_safe sp w' r0.
Proof.
  intros Hext Hpool [Hz|(l & arr & Hp & Harr & Hb & Hnp & Hslabs)]; [now left|].
  destruct (Hext l arr Harr) as (arr' & Harr' & Hlen).
  right. exists l, arr'. rewrite Hpool.
  split; [exact Hp|]. split; [exact Harr'|]. split; [lia|]. split; assumption.
Qed.

Lemma region_safe_valid (sp : SlabPool) (w : world) (r0 : slice) :
  region_safe sp w r0 -> s_len r0 = 0%nat \/ chunks_valid w r0.
Proof.
  intros [Hz|(l & arr & Hp & Harr & Hb & _)]; [now left|right].
  exists l, arr. auto.
Qed.

Lemma extends_store_read_chunk (w w' : world) (r0 : slice) (j : nat) :
  extends_store (chunkHeap w) (chunkHeap w') -> chunks_valid w r0 ->
  read_chunk w' r0 j = read_chunk w r0 j.
Proof.
  intros Hext (l & arr & Hp & Harr & _). unfold read_chunk, heap_read.
  rewrite Hp, Harr. now rewrite (Hext l arr Harr).
Qed.

(** The loop over the series of a batch, from series [i] on. The cells of
    the chunk slices handed out before are left as they are, and so are the
    entries before [i]; when no [addLoad] fails, every entry from [i] on is
    the conversion of its series of references. *)
Lemma populate_series_run (ss : list seriesChunkRefs) :
  forall (ns ns' : seriesChunksSet) (i : nat) (r r' : R) (e : error) (w w' : world),
    Loading.populate_series ns ss i r w = Some ((e, r', ns'), w') ->
    seriesReleasable ns = true ->
    sp_inv (lazy_seriesChunksPool ns) w ->
    entries_valid w (series ns) ->
    (forall r0, region_safe (lazy_seriesChunksPool ns) w r0 ->
                forall j, (j < s_len r0)%nat -> read_chunk w' r0 j = read_chunk w r0 j) /\
    (forall k, (k < i)%nat -> read_entry w' (series ns) k = read_entry w (series ns) k) /\
    (e = None ->
     forall k s, ss !! k = Some s ->
       entry_converts w' s (read_entry w' (series ns) (i + k))).
Proof.
  induction ss as [|s ss IH]; intros ns ns' i r r' e w w' Hrun Hrel Hinv Hvalid.
  - simpl in Hrun. inversion Hrun; subst.
    split; [reflexivity|]. split; [reflexivity|].
    intros _ k s Hk. rewrite lookup_nil in Hk. discriminate.
  - simpl in Hrun.
    apply bind_Some in Hrun. destruct Hrun as (e0 & w0 & Hat0 & Hrun).
    apply series_at_inv in Hat0. destruct Hat0 as (Hi & -> & ->).
    apply bind_Some in Hrun. destruct Hrun as ([] & w1 & Hw1 & Hrun).
    unfold write_entry, modify in Hw1. inversion Hw1 as [Hw1']. clear Hw1.
    apply bind_Some in Hrun. destruct Hrun as ([a ns1] & w2 & Hslice & Hrun).
    (* the chunk slice comes from the slab pool *)
    assert (Hinv1 : sp_inv (lazy_seriesChunksPool ns) w1) by (subst w1; exact Hinv).
    destruct (SlabPool_Get_run (Z.of_nat (length (chunks s))) (lazy_seriesChunksPool ns) w1)
      as (a' & sp' & w2' & Hget & Hlen & Hcap & Hinv2 & Hsafe_a & Hold & Hstore & He2 & _);
      [lia|exact Hinv1|].
    unfold newSeriesAggrChunkSlice in Hslice. rewrite Hrel in Hslice. simpl in Hslice.
    unfold bind in Hslice. rewrite Hget in Hslice. unfold ret in Hslice. simpl in Hslice.
    inversion Hslice; subst a' ns1 w2'. clear Hslice.
    assert (Hlazy1 : lazy_seriesChunksPool (with_seriesChunksPool (Some sp') ns) = sp')
      by reflexivity.
    apply bind_Some in Hrun. destruct Hrun as (e1 & w2'' & Hat1 & Hrun).
    apply series_at_inv in Hat1. destruct Hat1 as (_ & -> & ->).
    apply bind_Some in Hrun. destruct Hrun as ([] & w3 & Hw3 & Hrun).
    unfold write_entry, modify in Hw3. inversion Hw3 as [Hw3']. clear Hw3.
    apply bind_Some in Hrun. destruct Hrun as ([e2 r2] & w4 & Hpop & Hrun).
    simpl in Hrun, Hw3', Hpop.
    (* the entries on the way *)
    assert (Hvalid1 : entries_valid w1 (series ns)).
    { subst w1. now apply entries_valid_write. }
    assert (Hvalid2 : entries_valid w2 (series ns)).
    { destruct Hvalid1 as (le & arr & Hp & Harr & Hb). exists le, arr.
      rewrite He2. auto. }
    assert (Hentry1 : read_entry w2 (series ns) i
                      = mkSeriesEntry (refs_lset s) (chks (read_entry w (series ns) i))).
    { unfold read_entry. rewrite He2. subst w1. now apply read_write_entry. }
    assert (Hvalid3 : entries_valid w3 (series ns)).
    { subst w3. now apply entries_valid_write. }
    assert (Hentry3 : read_entry w3 (series ns) i = mkSeriesEntry (refs_lset s) a).
    { subst w3. rewrite read_write_entry by assumption. now rewrite Hentry1. }
    assert (Hc3 : chunkHeap w3 = chunkHeap w2) by (subst w3; reflexivity).
    assert (Hp3 : seriesChunksSlicePool w3 = seriesChunksSlicePool w2)
      by (subst w3; reflexivity).
    (* the chunks of the series *)
    pose proof (populate_chunks_run (series ns) i (chunks s) 0 r r2 e2 w3 w4 Hpop) as Hchunks.
    cbv zeta in Hchunks. rewrite Hentry3 in Hchunks. simpl chks in Hchunks.
    destruct Hchunks as (He4 & Hpools4 & _ & Hshape4 & Hframe4 & Hfid4).
    { destruct (region_safe_valid sp' w2 a Hsafe_a) as [Hz|Hv].
      - left. unfold len in Hlen. destruct (chunks s); [reflexivity|simpl in Hlen; lia].
      - right. destruct Hv as (l & arr & Hv). exists l, arr. now rewrite Hc3. }
    assert (Hshape24 : extends_shape (chunkHeap w2) (chunkHeap w4)) by now rewrite <- Hc3.
    assert (Hpool24 : seriesChunksSlicePool w4 = seriesChunksSlicePool w2).
    { destruct Hpools4 as (_ & Hcp & _). now rewrite Hcp. }
    assert (Hentries4 : forall k, read_entry w4 (series ns) k = read_entry w3 (series ns) k).
    { intros k. unfold read_entry. now rewrite He4. }
    (* a slice handed out before is apart from the new one *)
    assert (Hkeep : forall r0, region_safe (lazy_seriesChunksPool ns) w r0 ->
              region_safe sp' w4 r0 /\
              forall j, (j < s_len r0)%nat -> read_chunk w4 r0 j = read_chunk w r0 j).
    { intros r0 Hr0.
      assert (Hr01 : region_safe (lazy_seriesChunksPool ns) w1 r0) by (subst w1; exact Hr0).
      destruct (Hold r0 Hr01) as [Hr02 Hdisj].
      split; [eapply region_safe_frame; eassumption|].
      intros j Hj.
      destruct (region_safe_valid _ _ _ Hr0) as [Hz|Hv0]; [lia|].
      assert (Hv01 : chunks_valid w1 r0) by (subst w1; exact Hv0).
      transitivity (read_chunk w3 r0 j).
      - apply Hframe4.
        destruct Hdisj as [Hz|[Hz|[Hne|[Hlt|Hge]]]].
        + lia.
        + unfold len in Hlen. right.
          destruct (decide (s_off r0 + j < s_off a + 0)%nat); [now left|right; lia].
        + now left.
        + right. left. lia.
        + right. right. unfold len in Hlen. lia.
      - transitivity (read_chunk w2 r0 j); [subst w3; reflexivity|].
        transitivity (read_chunk w1 r0 j); [|subst w1; reflexivity].
        now apply extends_store_read_chunk. }
    destruct e2 as [e2|].
    + inversion Hrun; subst. split; [|split; [|discriminate]].
      * intros r0 Hr0. apply (Hkeep r0 Hr0).
      * intros k Hk. rewrite Hentries4.
        rewrite read_write_entry_other by lia.
        unfold read_entry. rewrite He2. fold (read_entry (set_entryHeap
          (heap_write (entryHeap w) (series ns) i
             (mkSeriesEntry (refs_lset s) (chks (read_entry w (series ns) i)))) w) (series ns) k).
        apply read_write_entry_other. lia.
    + specialize (IH (with_seriesChunksPool (Some sp') ns) ns' (S i) r2 r' e w4 w' Hrun).
      simpl series in IH. rewrite Hlazy1 in IH.
      destruct IH as (Hcells & Hentries & Hconv).
      { exact Hrel. }
      { eapply sp_inv_frame; eassumption. }
      { destruct Hvalid3 as (le & arr & Hp & Harr & Hb). exists le, arr.
        rewrite He4. auto. }
      assert (Hbefore : forall k, (k < i)%nat ->
                read_entry w4 (series ns) k = read_entry w (series ns) k).
      { intros k Hk. rewrite Hentries4. subst w3.
        rewrite read_write_entry_other by lia.
        unfold read_entry. rewrite He2. subst w1. simpl.
        apply heap_read_write_other. right. lia. }
      split; [|split].
      * intros r0 Hr0 j Hj. destruct (Hkeep r0 Hr0) as [Hsafe4 Hsame4].
        rewrite (Hcells r0 Hsafe4 j Hj). now apply Hsame4.
      * intros k Hk. rewrite Hentries by lia. now apply Hbefore.
      * intros Hnone k s' Hk. destruct k as [|k]; simpl in Hk.
        -- inversion Hk; subst s'. rewrite Nat.add_0_r.
           rewrite Hentries by lia. rewrite Hentries4, Hentry3.
           unfold entry_converts. simpl.
           split; [reflexivity|]. split; [exact Hlen|].
           intros j c Hj.
           assert (Hjlen : (j < s_len a)%nat).
           { apply lookup_lt_Some in Hj. unfold len in Hlen. lia. }
           rewrite (Hcells a); [| |exact Hjlen].
           ++ specialize (Hfid4 eq_refl j c Hj). simpl in Hfid4. exact Hfid4.
           ++ eapply region_safe_frame; eassumption.
        -- replace (i + S k)%nat with (S i + k)%nat by lia. now apply Hconv.
Qed.

(** [load] fills payloads: times and entries stay. *)
Lemma store_loaded_times (ser : slice) (ls : list Loading.loadedChunk) :
  forall (w w' : world),
    Loading.store_loaded ser ls w = Some (tt, w') ->
    entryHeap w' = entryHeap w /\
    forall s j, MinTime (read_chunk w' s j) = MinTime (read_chunk w s j) /\
                MaxTime (read_chunk w' s j) = MaxTime (read_chunk w s j).
Proof.
  induction ls as [|l ls IH]; intros w w' Hrun; simpl in Hrun.
  - inversion Hrun; subst. auto.
  - apply bind_Some in Hrun. destruct Hrun as (e & w0 & Hat & Hrun).
    assert (Hw0 : w0 = w).
    { destruct (index_entry w ser (Z.of_nat (Loading.l_series l))); [|discriminate].
      now inversion Hat. }
    subst w0.
    destruct (Loading.l_chunk l <? s_len (chks e))%nat; [|discriminate].
    unfold bind at 1 in Hrun. unfold gets at 1 in Hrun.
    unfold bind at 1 in Hrun. unfold write_chunk, modify in Hrun.
    apply IH in Hrun. destruct Hrun as [He Ht]. simpl in He.
    split; [exact He|]. intros s j. destruct (Ht s j) as [Hmin Hmax].
    rewrite Hmin, Hmax. unfold read_chunk. simpl.
    destruct (heap_read_write_cases zeroAggrChunk (chunkHeap w) (chks e) s
                (Loading.l_chunk l) j
                (Loading.with_payload l (heap_read zeroAggrChunk (chunkHeap w) (chks e)
                                           (Loading.l_chunk l))))
      as [Hsame|[Hnew Hold]].
    + now rewrite Hsame.
    + rewrite Hnew, Hold. split; reflexivity.
Qed.

End FidelityFacts.

Section Fidelity.
Context {U R : Type} `{Loading.seriesChunkRefsSetIterator U}
        `{Loading.bucketChunkReaders R}.

Lemma wf_world_new_slab_pool (w wa : world) :
  wf_world w -> chunkHeap wa = chunkHeap w ->
  seriesChunksSlicePool wa = seriesChunksSlicePool w ->
  sp_inv (NewSlabPool seriesChunksSlabSize) wa.
Proof.
  intros (_ & Hpool & Hnd) Hc Hp. unfold sp_inv, pooled_slab_ok. simpl.
  rewrite Hp, Hc. split; [reflexivity|]. split; [constructor|]. split; assumption.
Qed.

(** The series slice [Next] works on, a new one or a pooled one, has its
    cells. *)
Lemma new_series_valid (seriesCapacity n : Z) (w wa : world) (ns : seriesChunksSet)
    (ser : slice) :
  wf_world w -> 0 <= seriesCapacity ->
  newSeriesChunksSet seriesCapacity true w = Some (ns, wa) ->
  reslice (series ns) n = Some ser ->
  entries_valid wa ser /\ len ser = n /\
  seriesReleasable ns = true /\ seriesChunksPool ns = None /\
  chunkHeap wa = chunkHeap w /\ seriesChunksSlicePool wa = seriesChunksSlicePool w.
Proof.
  intros (Hentries & _) Hcap Hnew Hres.
  destruct (newSeriesChunksSet_run seriesCapacity true w Hcap)
    as (b & w' & Hrun & Hrel & Hpool & _ & Hc & Hcp & _ & _ & _ & Hcase).
  rewrite Hnew in Hrun. inversion Hrun; subst b w'. clear Hrun.
  unfold reslice in Hres.
  destruct ((0 <=? n) && (n <=? cap (series ns))) eqn:E; [|discriminate].
  apply andb_true_iff in E. destruct E as [E1 E2].
  apply Z.leb_le in E1, E2. inversion Hres; subst ser. clear Hres.
  split; [|split; [unfold len; simpl; lia|auto]].
  unfold entries_valid. simpl.
  assert (Hfresh : fresh_series w seriesCapacity ns wa ->
            exists le arr, s_ptr (series ns) = Some le /\ entryHeap wa !! le = Some arr /\
                           (s_off (series ns) + Z.to_nat n <= length arr)%nat).
  { intros (l & Hs & _ & Hheap). exists l. eexists.
    rewrite Hs in *. simpl. split; [reflexivity|].
    split; [rewrite Hheap; apply lookup_insert_eq|].
    rewrite length_replicate. unfold cap in E2. simpl in E2. lia. }
  simpl in Hcase.
  destruct (coming_seriesEntrySlice w) as [s|] eqn:Hcoming; [|now apply Hfresh].
  destruct ((cap s <? seriesCapacity) || is_nil_slice s) eqn:Hdrop; [now apply Hfresh|].
  destruct Hcase as [Hs Hheap]. rewrite Hs in *.
  apply orb_false_iff in Hdrop. destruct Hdrop as [_ Hnil].
  assert (Hok : pooled_entries_ok w s).
  { rewrite Forall_forall in Hentries. apply Hentries.
    rewrite (coming_pooled w s Hcoming). now left. }
  destruct Hok as [_ Hv]. unfold valid_slice in Hv. unfold is_nil_slice in Hnil.
  destruct (s_ptr s) as [l|]; [|discriminate].
  destruct Hv as (_ & arr & Harr & Hb).
  exists l, arr. split; [reflexivity|]. split; [now rewrite Hheap|].
  unfold cap in E2. lia.
Qed.

(** C1. Chunk fidelity. When [Next] has converted a batch of references, the
    set it returns has one entry for each series of the batch, in order;
    the entry has the label set of its series, the very same slice; it has
    as many chunks as the series has references; and each chunk has the
    [MinTime] and [MaxTime] of its reference. *)
Theorem loader_chunk_fidelity (c c1 : Loading.loadingSeriesChunksSetIterator U R)
    (w w1 : world) :
  wf_world w ->
  Loading.Next c w = Some ((true, c1), w1) ->
  let nextUnloaded := Loading.refs_At (snd (Loading.refs_Next (Loading.from c))) in
  let out := Loading.At c1 in
  len (series out) = Z.of_nat (length (refs_series nextUnloaded)) /\
  forall i s,
    refs_series nextUnloaded !! i = Some s ->
    entry_converts w1 s (read_entry w1 (series out) i).
Proof.
  intros Hwf Hrun nextUnloaded out.
  destruct (Loading.err c) as [e0|] eqn:Herr.
  { rewrite Next_latched in Hrun by congruence. inversion Hrun. }
  destruct (Loading.refs_Next (Loading.from c)) as [ok u'] eqn:Hup.
  destruct ok; [|rewrite (Next_exhausted c w u' Herr Hup) in Hrun; inversion Hrun].
  simpl in nextUnloaded.
  destruct (Next_converting c w true c1 w1 u' Herr Hup Hrun)
    as (ns & wa & ser & e & r & ns2 & wb & Hns & Hser & Hpop & Hcase).
  fold nextUnloaded in Hns, Hser, Hpop, Hcase.
  set (n := Z.of_nat (length (refs_series nextUnloaded))) in *.
  assert (Hmax : 0 <= util_math_Max (Loading.fromBatchSize c) n).
  { unfold util_math_Max. destruct (_ <? _) eqn:E; [apply Z.ltb_lt in E|]; unfold n; lia. }
  destruct (new_series_valid _ n w wa ns ser Hwf Hmax Hns Hser)
    as (Hvalid & Hlen & Hrel & Hnopool & Hc & Hp).
  assert (Hsuccess : e = None /\ exists wc,
            Loading.store_loaded (series ns2) (fst (fst (Loading.readers_load r)))
              (set_nextReleaser (Pos.succ (nextReleaser wb)) wb) = Some (tt, wc) /\
            c1 = Loading.mkLoading (snd (Loading.readers_load r)) u'
                   (Loading.fromBatchSize c)
                   (with_chunksReleaser (Some (nextReleaser wb)) ns2) (Loading.err c) /\
            w1 = log (EvRefsSetRelease nextUnloaded) wc).
  { destruct e as [e|].
    - exfalso.
      destruct (deferred_false
                  (Loading.mkLoading r u' (Loading.fromBatchSize c) (Loading.current c)
                     (errors_Wrap (Some e) "preloading chunks")) ns2 nextUnloaded wb)
        as (ns' & w' & _ & _ & _ & Hdef); [simpl; discriminate|].
      rewrite Hdef in Hcase. inversion Hcase.
    - split; [reflexivity|]. destruct Hcase as (wc & Hstore & Hcase). exists wc.
      split; [exact Hstore|].
      destruct (snd (fst (Loading.readers_load r))) as [e'|].
      + exfalso.
        destruct (deferred_false
                    (Loading.mkLoading (snd (Loading.readers_load r)) u'
                       (Loading.fromBatchSize c) (Loading.current c)
                       (errors_Wrap (Some e') "loading chunks")) ns2 nextUnloaded wc)
          as (ns' & w' & _ & _ & _ & Hdef); [simpl; discriminate|].
        rewrite Hdef in Hcase. inversion Hcase.
      + tauto. }
  destruct Hsuccess as (-> & wc & Hstore & -> & ->).
  destruct (populate_series_set _ _ _ _ _ _ _ _ _ Hpop) as (Hser2 & _).
  simpl in Hser2.
  destruct (populate_series_run _ _ _ _ _ _ _ _ _ Hpop) as (_ & _ & Hconv).
  { exact Hrel. }
  { unfold lazy_seriesChunksPool. simpl. rewrite Hnopool.
    now apply (wf_world_new_slab_pool w). }
  { exact Hvalid. }
  destruct (store_loaded_times _ _ _ _ Hstore) as [Hentries Htimes].
  unfold out, Loading.At. simpl. rewrite Hser2.
  split; [exact Hlen|].
  intros i s Hi. specialize (Hconv eq_refl i s Hi). simpl in Hconv.
  destruct Hconv as (Hlset & Hchks & Hcells).
  assert (Hread : read_entry (log (EvRefsSetRelease nextUnloaded) wc) ser i
                  = read_entry wb ser i).
  { unfold read_entry. simpl. now rewrite Hentries. }
  unfold entry_converts. rewrite Hread.
  split; [exact Hlset|]. split; [exact Hchks|].
  intros j ch Hj.
  destruct (Htimes (chks (read_entry wb ser i)) j) as [Hmin Hmaxt].
  destruct (Hcells j ch Hj) as [Hlo Hhi].
  split.
  - transitivity (MinTime (read_chunk wc (chks (read_entry wb ser i)) j));
      [reflexivity|]. rewrite Hmin. exact Hlo.
  - transitivity (MaxTime (read_chunk wc (chks (read_entry wb ser i)) j));
      [reflexivity|]. rewrite Hmaxt. exact Hhi.
Qed.

End Fidelity.

(** ** The loading iterator returns *)

Section LoaderReturns.
Context {U R : Type} `{Loading.seriesChunkRefsSetIterator U}
        `{Loading.bucketChunkReaders R}.

Lemma series_at_run (ser : slice) (i : nat) (w : world) :
  (i < s_len ser)%nat ->
  Loading.series_at ser i w = Some (read_entry w ser i, w).
Proof.
  intros Hi. unfold Loading.series_at, index_entry, len.
  destruct (0 <=? Z.of_nat i) eqn:E1; [|apply Z.leb_gt in E1; lia].
  destruct (Z.of_nat i <? Z.of_nat (s_len ser)) eqn:E2; [|apply Z.ltb_ge in E2; lia].
  simpl. now rewrite Nat2Z.id.
Qed.

Lemma set_chunk_field_run (f : AggrChunk -> AggrChunk) (ser : slice) (i j : nat)
    (w : world) :
  (i < s_len ser)%nat -> (j < s_len (chks (read_entry w ser i)))%nat ->
  Loading.set_chunk_field f ser i j w
  = Some (tt, set_chunkHeap
                (heap_write (chunkHeap w) (chks (read_entry w ser i)) j
                   (f (read_chunk w (chks (read_entry w ser i)) j))) w).
Proof.
  intros Hi Hj. unfold Loading.set_chunk_field.
  rewrite (bind_ret_eq _ _ _ _ _ (series_at_run ser i w Hi)).
  apply Nat.ltb_lt in Hj. rewrite Hj. reflexivity.
Qed.

(** The loop over the chunks of a series does not panic when the chunk
    slice of the entry has a cell for each. *)
Lemma populate_chunks_returns (ser : slice) (i : nat) (cs : list seriesChunkRef) :
  forall (j : nat) (r : R) (w : world),
    (i < s_len ser)%nat ->
    (j + length cs <= s_len (chks (read_entry w ser i)))%nat ->
    exists res w', Loading.populate_chunks ser i cs j r w = Some (res, w').
Proof.
  induction cs as [|chunk cs IH]; intros j r w Hi Hj; simpl.
  - eexists. eexists. reflexivity.
  - simpl in Hj.
    rewrite (bind_ret_eq _ _ _ _ _ (set_chunk_field_run _ ser i j w Hi ltac:(lia))).
    match goal with |- context [bind _ _ ?w1] => set (wmin := w1) end.
    assert (Hsame : read_entry wmin ser i = read_entry w ser i) by reflexivity.
    rewrite (bind_ret_eq _ _ _ _ _
               (set_chunk_field_run _ ser i j wmin Hi ltac:(rewrite Hsame; lia))).
    destruct (Loading.readers_addLoad (blockID chunk) (ref chunk) i j r) as [[e|] r1].
    + eexists. eexists. reflexivity.
    + apply IH; [exact Hi|]. 
      match goal with |- context [read_entry ?w2 ser i] =>
        change (read_entry w2 ser i) with (read_entry w ser i) end. lia.
Qed.

Lemma bind_write_entry {B : Type} (ser : slice) (i : nat) (e : seriesEntry)
    (k : unit -> M B) (w : world) :
  bind (write_entry ser i e) k w
  = k tt (set_entryHeap (heap_write (entryHeap w) ser i e) w).
Proof. reflexivity. Qed.

(** The loop over the series of a batch does not panic when the series
    slice has an entry for each. *)
Lemma populate_series_returns (ss : list seriesChunkRefs) :
  forall (ns : seriesChunksSet) (i : nat) (r : R) (w : world),
    seriesReleasable ns = true ->
    sp_inv (lazy_seriesChunksPool ns) w ->
    entries_valid w (series ns) ->
    (i + length ss <= s_len (series ns))%nat ->
    exists res w', Loading.populate_series ns ss i r w = Some (res, w').
Proof.
  induction ss as [|s ss IH]; intros ns i r w Hrel Hinv Hvalid Hi; simpl.
  - eexists. eexists. reflexivity.
  - simpl in Hi.
    rewrite (bind_ret_eq _ _ _ _ _ (series_at_run (series ns) i w ltac:(lia))).
    rewrite bind_write_entry.
    match goal with |- context [bind _ _ ?w0] => set (w1 := w0) end.
    assert (Hvalid1 : entries_valid w1 (series ns)) by now apply entries_valid_write.
    destruct (SlabPool_Get_run (Z.of_nat (length (chunks s))) (lazy_seriesChunksPool ns) w1)
      as (a & sp' & w2 & Hget & Hlen & _ & Hinv2 & Hsafe_a & _ & _ & He2 & _);
      [lia|exact Hinv|].
    assert (Hslice : newSeriesAggrChunkSlice (Z.of_nat (length (chunks s))) ns w1
                     = Some ((a, with_seriesChunksPool (Some sp') ns), w2)).
    { unfold newSeriesAggrChunkSlice. rewrite Hrel. simpl.
      unfold bind. rewrite Hget. reflexivity. }
    rewrite (bind_ret_eq _ _ _ _ _ Hslice).
    rewrite (bind_ret_eq _ _ _ _ _ (series_at_run (series ns) i w2 ltac:(lia))).
    rewrite bind_write_entry. simpl fst. simpl snd.
    match goal with |- context [bind _ _ ?w0] => set (w3 := w0) end.
    assert (Hvalid2 : entries_valid w2 (series ns)).
    { destruct Hvalid1 as (le & arr & Hp & Harr & Hb). exists le, arr.
      rewrite He2. auto. }
    assert (Hvalid3 : entries_valid w3 (series ns)) by now apply entries_valid_write.
    assert (Hentry3 : chks (read_entry w3 (series ns) i) = a).
    { unfold w3. rewrite read_write_entry; [reflexivity|exact Hvalid2|lia]. }
    destruct (populate_chunks_returns (series ns) i (chunks s) 0 r w3)
      as ([e2 r2] & w4 & Hpop); [lia|rewrite Hentry3; unfold len in Hlen; lia|].
    rewrite (bind_ret_eq _ _ _ _ _ Hpop). simpl.
    destruct e2 as [e2|]; [eexists; eexists; reflexivity|].
    pose proof (populate_chunks_run (series ns) i (chunks s) 0 r r2 None w3 w4 Hpop)
      as Hchunks.
    cbv zeta in Hchunks. rewrite Hentry3 in Hchunks.
    destruct Hchunks as (He4 & Hpools4 & _ & Hshape4 & _).
    { destruct (region_safe_valid sp' w2 a Hsafe_a) as [Hz|Hv].
      - left. unfold len in Hlen. destruct (chunks s); [reflexivity|simpl in Hlen; lia].
      - right. exact Hv. }
    apply IH.
    + exact Hrel.
    + apply (sp_inv_frame sp' w2 w4); [exact Hshape4| |exact Hinv2].
      destruct Hpools4 as (_ & Hcp & _). exact Hcp.
    + destruct Hvalid3 as (le & arr & Hp & Harr & Hb). exists le, arr.
      rewrite He4. auto.
    + simpl. lia.
Qed.

(** The writes of [load] do not panic when each goes to a cell that is
    there. *)
Lemma store_loaded_returns (ser : slice) (ls : list Loading.loadedChunk) :
  forall w : world,
    Forall (fun l => (Loading.l_series l < s_len ser)%nat /\
                     (Loading.l_chunk l
                      < s_len (chks (read_entry w ser (Loading.l_series l))))%nat) ls ->
    exists w', Loading.store_loaded ser ls w = Some (tt, w').
Proof.
  induction ls as [|l ls IH]; intros w Hin; simpl.
  - eexists. reflexivity.
  - inversion Hin as [|l0 ls0 [Hs Hc] Hrest]; subst.
    unfold bind at 1. unfold index_entry, len.
    destruct (0 <=? Z.of_nat (Loading.l_series l)) eqn:E1; [|apply Z.leb_gt in E1; lia].
    destruct (Z.of_nat (Loading.l_series l) <? Z.of_nat (s_len ser)) eqn:E2;
      [|apply Z.ltb_ge in E2; lia].
    simpl. rewrite Nat2Z.id. apply Nat.ltb_lt in Hc. rewrite Hc.
    unfold bind, gets, write_chunk, modify. apply IH. exact Hrest.
Qed.

(** The series slice of a new set can be cut to any length up to the
    capacity asked for. *)
Lemma new_series_reslice (seriesCapacity n : Z) (w wa : world) (ns : seriesChunksSet) :
  0 <= n <= seriesCapacity ->
  newSeriesChunksSet seriesCapacity true w = Some (ns, wa) ->
  exists ser, reslice (series ns) n = Some ser.
Proof.
  intros Hn Hnew.
  assert (Hnonneg : 0 <= seriesCapacity) by lia.
  destruct (newSeriesChunksSet_run seriesCapacity true w Hnonneg)
    as (b & w' & Hrun & _ & _ & _ & _ & _ & _ & _ & _ & Hcase).
  rewrite Hnew in Hrun. inversion Hrun; subst b w'. clear Hrun.
  assert (Hcap : seriesCapacity <= cap (series ns)).
  { assert (Hfresh : fresh_series w seriesCapacity ns wa ->
                     seriesCapacity <= cap (series ns)).
    { intros Hf. destruct (fresh_series_shape _ _ _ _ Hnonneg Hf). lia. }
    simpl in Hcase.
    destruct (coming_seriesEntrySlice w) as [s|]; [|now apply Hfresh].
    destruct (cap s <? seriesCapacity) eqn:Hlt; simpl in Hcase; [now apply Hfresh|].
    apply Z.ltb_ge in Hlt.
    destruct (is_nil_slice s); [now apply Hfresh|].
    destruct Hcase as [-> _]. exact Hlt. }
  unfold reslice.
  destruct (0 <=? n) eqn:E1; [|apply Z.leb_gt in E1; lia].
  destruct (n <=? cap (series ns)) eqn:E2; [|apply Z.leb_gt in E2; lia].
  eexists. reflexivity.
Qed.

(** [Next] returns: in a well-formed world, with readers that write where
    they were asked to load, no step of it panics. *)
Lemma loader_Next_returns (c : Loading.loadingSeriesChunksSetIterator U R) (w : world)
    (u' : U) :
  wf_world w -> Loading.err c = None ->
  Loading.refs_Next (Loading.from c) = (true, u') ->
  (fst (addLoads_series (refs_series (Loading.refs_At u')) 0
          (Loading.readers_reset (Loading.chunkReaders c))) = None ->
   loaded_in_range (refs_series (Loading.refs_At u'))
     (fst (fst (Loading.readers_load
                  (snd (addLoads_series (refs_series (Loading.refs_At u')) 0
                          (Loading.readers_reset (Loading.chunkReaders c)))))))) ->
  exists b c1 w1, Loading.Next c w = Some ((b, c1), w1).
Proof.
  intros Hwf Herr Hup Hrange.
  set (ss := refs_series (Loading.refs_At u')) in *.
  set (n := Z.of_nat (length ss)).
  assert (Hmax : 0 <= n <= util_math_Max (Loading.fromBatchSize c) n).
  { unfold util_math_Max. destruct (_ <? _) eqn:E; [apply Z.ltb_lt in E|]; unfold n; lia. }
  destruct (newSeriesChunksSet_run (util_math_Max (Loading.fromBatchSize c) n) true w)
    as (ns & wa & Hns & _); [lia|].
  destruct (new_series_reslice _ n w wa ns Hmax Hns) as (ser & Hser).
  destruct (new_series_valid _ n w wa ns ser Hwf (Z.le_trans _ _ _ (proj1 Hmax) (proj2 Hmax)) Hns Hser)
    as (Hvalid & Hlen & Hrel & Hnopool & Hc & Hp).
  assert (Hinv : sp_inv (lazy_seriesChunksPool (with_series ser ns)) wa).
  { unfold lazy_seriesChunksPool. simpl. rewrite Hnopool.
    now apply (wf_world_new_slab_pool w). }
  assert (Hslen : s_len ser = length ss) by (unfold len, n in Hlen; lia).
  destruct (populate_series_returns ss (with_series ser ns) 0
              (Loading.readers_reset (Loading.chunkReaders c)) wa Hrel Hinv Hvalid)
    as ([[e r] ns2] & wb & Hpop); [simpl; lia|].
  unfold Loading.Next. rewrite Herr, Hup. simpl. fold ss. fold n.
  rewrite (bind_ret_eq _ _ _ _ _ Hns).
  unfold of_option at 1. unfold bind at 1. rewrite Hser.
  unfold ret at 1. cbv beta iota.
  rewrite (bind_ret_eq _ _ _ _ _ Hpop). simpl.
  destruct e as [e|].
  { destruct (deferred_false
                (Loading.mkLoading r u' (Loading.fromBatchSize c) (Loading.current c)
                   (errors_Wrap (Some e) "preloading chunks")) ns2
                (Loading.refs_At u') wb) as (ns3 & wd & _ & _ & _ & Hdef);
      [simpl; discriminate|].
    rewrite Hdef. eauto. }
  destruct (populate_series_set _ _ _ _ _ _ _ _ _ Hpop) as (Hser2 & _).
  simpl in Hser2.
  destruct (populate_series_run _ _ _ _ _ _ _ _ _ Hpop Hrel Hinv Hvalid)
    as (_ & _ & Hconv).
  specialize (Hconv eq_refl). simpl in Hconv.
  unfold Loading.new_BatchBytes at 1. unfold bind at 1.
  rewrite (populate_series_plan _ _ _ _ _ _ _ _ _ Hpop) in Hrange.
  specialize (Hrange eq_refl). cbn [fst snd] in Hrange.
  destruct (Loading.readers_load r) as [[loaded e'] r'] eqn:Hload. simpl in Hrange.
  destruct (store_loaded_returns (series ns2) loaded
              (set_nextReleaser (Pos.succ (nextReleaser wb)) wb)) as (wc & Hstore).
  { eapply Forall_impl; [exact Hrange|]. intros l (s & Hs & Hl). simpl in Hs, Hl.
    rewrite Hser2. split; [apply lookup_lt_Some in Hs; lia|].
    destruct (Hconv _ _ Hs) as (_ & Hchks & _).
    change (read_entry (set_nextReleaser (Pos.succ (nextReleaser wb)) wb) ser
              (Loading.l_series l))
      with (read_entry wb ser (Loading.l_series l)).
    unfold len in Hchks. lia. }
  rewrite (bind_ret_eq _ _ _ _ _ Hstore).
  destruct e' as [e'|].
  - destruct (deferred_false
                (Loading.mkLoading r' u' (Loading.fromBatchSize c) (Loading.current c)
                   (errors_Wrap (Some e') "loading chunks")) ns2
                (Loading.refs_At u') wc) as (ns3 & wd & _ & _ & _ & Hdef);
      [simpl; discriminate|].
    rewrite Hdef. eauto.
  - rewrite deferred_true. eauto.
Qed.

(** C2. The errors of [Next]. With an error latched, [Next] is false and
    nothing moves: neither the upstream nor the world. When the upstream has
    nothing more, its error, nil or not, is latched and [Next] is false. On
    a batch, [Next] returns (in a well-formed world, when [load], if it is
    called, writes where it was asked to load); the error [e] of the
    preloading is that of the first [addLoad] that fails, the references
    taken series after series and chunk after chunk; when [addLoad] or
    [load] fails, the set under construction is released, the error is
    latched wrapped, [Next] is false and the current set stays the one it
    was. *)
Theorem loader_Next_errors (c : Loading.loadingSeriesChunksSetIterator U R) (w : world) :
  (Loading.err c <> None -> Loading.Next c w = Some ((false, c), w)) /\
  (forall u',
     Loading.err c = None -> Loading.refs_Next (Loading.from c) = (false, u') ->
     Loading.Next c w
     = Some ((false, Loading.mkLoading (Loading.chunkReaders c) u'
                       (Loading.fromBatchSize c) (Loading.current c)
                       (Loading.refs_Err u')), w)) /\
  (forall u',
     wf_world w -> Loading.err c = None ->
     Loading.refs_Next (Loading.from c) = (true, u') ->
     let plan := addLoads_series (refs_series (Loading.refs_At u')) 0
                   (Loading.readers_reset (Loading.chunkReaders c)) in
     (fst plan = None ->
      loaded_in_range (refs_series (Loading.refs_At u'))
        (fst (fst (Loading.readers_load (snd plan))))) ->
     exists b c1 w1, Loading.Next c w = Some ((b, c1), w1)) /\
  (forall u' b c1 w1,
     Loading.err c = None -> Loading.refs_Next (Loading.from c) = (true, u') ->
     Loading.Next c w = Some ((b, c1), w1) ->
     let nextUnloaded := Loading.refs_At u' in
     let n := Z.of_nat (length (refs_series nextUnloaded)) in
     exists ns wa ser e r ns2 wb,
       newSeriesChunksSet (util_math_Max (Loading.fromBatchSize c) n) true w
       = Some (ns, wa) /\
       reslice (series ns) n = Some ser /\
       Loading.populate_series (with_series ser ns) (refs_series nextUnloaded) 0
         (Loading.readers_reset (Loading.chunkReaders c)) wa = Some ((e, r, ns2), wb) /\
       addLoads_series (refs_series nextUnloaded) 0
         (Loading.readers_reset (Loading.chunkReaders c)) = (e, r) /\
       exists wc,
         (e = None ->
          Loading.store_loaded (series ns2) (fst (fst (Loading.readers_load r)))
            (set_nextReleaser (Pos.succ (nextReleaser wb)) wb) = Some (tt, wc)) /\
         (e <> None -> wc = wb) /\
         let failure :=
           match e with
           | Some _ => errors_Wrap e "preloading chunks"
           | None => errors_Wrap (snd (fst (Loading.readers_load r))) "loading chunks"
           end in
         (failure <> None ->
          exists ns3 wd,
            release ns2 wc = Some (ns3, wd) /\ released wc ns2 wd /\
            trace wd = trace wc ++ release_events wc ns2 /\
            b = false /\
            Loading.err c1 = failure /\
            Loading.current c1 = Loading.current c /\
            Loading.from c1 = u' /\
            w1 = log (EvRefsSetRelease nextUnloaded) wd) /\
         (failure = None ->
          b = true /\ Loading.err c1 = None /\
          series (Loading.current c1) = series ns2)).
Proof.
  split; [apply Next_latched|].
  split; [intros u'; apply Next_exhausted|].
  split; [intros u' Hwf Herr Hup plan Hrange; exact (loader_Next_returns c w u' Hwf Herr Hup Hrange)|].
  intros u' b c1 w1 Herr Hup Hrun nextUnloaded n.
  destruct (Next_converting c w b c1 w1 u' Herr Hup Hrun)
    as (ns & wa & ser & e & r & ns2 & wb & Hns & Hser & Hpop & Hcase).
  exists ns, wa, ser, e, r, ns2, wb.
  split; [exact Hns|]. split; [exact Hser|]. split; [exact Hpop|].
  split; [exact (populate_series_plan _ _ _ _ _ _ _ _ _ Hpop)|].
  assert (Hrel : seriesReleasable ns2 = true).
  { destruct (populate_series_set _ _ _ _ _ _ _ _ _ Hpop) as (_ & Hr2 & _).
    rewrite Hr2. simpl.
    destruct (newSeriesChunksSet_run (util_math_Max (Loading.fromBatchSize c) n) true w)
      as (ns' & wa' & Hns' & Hr' & _).
    { unfold util_math_Max. destruct (_ <? _) eqn:E; [apply Z.ltb_lt in E|]; unfold n; lia. }
    fold nextUnloaded in Hns. fold n in Hns. rewrite Hns in Hns'.
    inversion Hns'; subst. exact Hr'. }
  destruct e as [e|].
  - exists wb. split; [discriminate|]. split; [reflexivity|]. simpl.
    split; [|discriminate]. intros _.
    destruct (deferred_false
                (Loading.mkLoading r u' (Loading.fromBatchSize c) (Loading.current c)
                   (errors_Wrap (Some e) "preloading chunks")) ns2
                (Loading.refs_At u') wb) as (ns3 & wd & Hrelease & Htr & Hreleased & Hdef);
      [simpl; discriminate|].
    rewrite Hdef in Hcase. inversion Hcase; subst.
    exists ns3, wd. split; [exact Hrelease|]. split; [now apply Hreleased|].
    split; [exact Htr|]. repeat split.
  - destruct Hcase as (wc & Hstore & Hcase).
    exists wc. split; [intros _; exact Hstore|]. split; [congruence|]. simpl.
    destruct (snd (fst (Loading.readers_load r))) as [e'|] eqn:He'.
    + split; [|discriminate]. intros _.
      destruct (deferred_false
                  (Loading.mkLoading (snd (Loading.readers_load r)) u'
                     (Loading.fromBatchSize c) (Loading.current c)
                     (errors_Wrap (Some e') "loading chunks")) ns2
                  (Loading.refs_At u') wc) as (ns3 & wd & Hrelease & Htr & Hreleased & Hdef);
        [simpl; discriminate|].
      rewrite Hdef in Hcase. inversion Hcase; subst.
      exists ns3, wd. split; [exact Hrelease|]. split; [now apply Hreleased|].
      split; [exact Htr|]. repeat split.
    + split; [intros Hf; exfalso; apply Hf; reflexivity|]. intros _.
      destruct Hcase as (Hb & Hc1 & _). subst b c1. simpl. auto.
Qed.


End LoaderReturns.

(** * Runs on concrete inputs *)

Lemma wf_emptyWorld : wf_world emptyWorld.
Proof. repeat split; constructor. Qed.

Lemma listRefs_exhaustion_law : refs_exhaustion_law listRefs.
Proof.
  intros u u1 Hnext. simpl in Hnext. unfold listRefs_Next in Hnext.
  destruct (lr_pending u) as [|b rest]; [|discriminate].
  inversion Hnext; subst u1. clear Hnext.
  eexists. split; reflexivity.
Qed.

Lemma loader_chunk_fidelity_witness :
  wf_world emptyWorld /\
  Loading.Next sample_loader emptyWorld
  = Some ((true, fst sample_loaded), snd sample_loaded) /\
  len (series (Loading.At (fst sample_loaded))) = 2 /\
  forall i s,
    refs_series sample_refs !! i = Some s ->
    entry_converts (snd sample_loaded) s
      (read_entry (snd sample_loaded) (series (Loading.At (fst sample_loaded))) i).
Proof.
  assert (Hrun : Loading.Next sample_loader emptyWorld
                 = Some ((true, fst sample_loaded), snd sample_loaded))
    by (vm_compute; reflexivity).
  split; [exact wf_emptyWorld|]. split; [exact Hrun|].
  exact (loader_chunk_fidelity sample_loader _ emptyWorld _ wf_emptyWorld Hrun).
Defined.

Lemma loader_Next_errors_witness :
  wf_world emptyWorld /\
  (let plan := addLoads_series (refs_series sample_refs) 0
                 (Loading.readers_reset (Loading.chunkReaders sample_loader)) in
   fst plan = None /\
   loaded_in_range (refs_series sample_refs)
     (fst (fst (Loading.readers_load (snd plan))))) /\
  (exists b c1 w1, Loading.Next sample_loader emptyWorld = Some ((b, c1), w1)) /\
  exists c1 w1 e,
    Loading.Next failing_loader emptyWorld = Some ((false, c1), w1) /\
    fst (addLoads_series (refs_series failing_refs) 0
           (Loading.readers_reset (Loading.chunkReaders failing_loader))) = Some e /\
    Loading.Err c1 = errors_Wrap (Some e) "preloading chunks" /\
    Loading.current c1 = Loading.current failing_loader.
Proof.
  assert (Hplan : fst (addLoads_series (refs_series sample_refs) 0
                         (Loading.readers_reset (Loading.chunkReaders sample_loader)))
                  = None) by (vm_compute; reflexivity).
  assert (Hrange : loaded_in_range (refs_series sample_refs)
                     (fst (fst (Loading.readers_load
                                  (snd (addLoads_series (refs_series sample_refs) 0
                                          (Loading.readers_reset
                                             (Loading.chunkReaders sample_loader)))))))).
  { unfold loaded_in_range.
    match goal with
    | |- Forall _ ?l => let l' := eval vm_compute in l in change l with l'
    end.
    repeat (constructor; [eexists; split; [reflexivity|simpl; lia]|]). constructor. }
  split; [exact wf_emptyWorld|]. split; [split; [exact Hplan|exact Hrange]|].
  split.
  - destruct (loader_Next_errors sample_loader emptyWorld) as (_ & _ & Hreturns & _).
    exact (Hreturns _ wf_emptyWorld eq_refl eq_refl (fun _ => Hrange)).
  - destruct (Loading.Next failing_loader emptyWorld) as [[[b c1] w1]|] eqn:Hrun;
      [|vm_compute in Hrun; discriminate].
    destruct (loader_Next_errors failing_loader emptyWorld) as (_ & _ & _ & Hfails).
    destruct (Hfails _ b c1 w1 eq_refl eq_refl Hrun)
      as (ns & wa & ser & e & r & ns2 & wb & _ & _ & _ & Hloads & wc & _ & _ & Hfail & _).
    assert (He : e = Some (ErrNew "unknown block"))
      by (apply (f_equal fst) in Hloads; vm_compute in Hloads; congruence).
    subst e. cbv zeta in Hfail.
    destruct Hfail as (ns3 & wd & _ & _ & _ & Hb & Herr & Hcur & _);
      [simpl; discriminate|].
    subst b. exists c1, w1, (ErrNew "unknown block").
    split; [reflexivity|]. split; [vm_compute; reflexivity|].
    split; [exact Herr|exact Hcur].
Defined.

Lemma newSeriesChunksSet_capacity_witness :
  0 <= 4 /\ pooled_lengths_zero pooled_world /\
  exists b w',
    newSeriesChunksSet 4 true pooled_world = Some (b, w') /\
    len (series b) = 0 /\ cap (series b) = 4 /\
    seriesEntrySlicePool pooled_world ≡ₚ Slice (Some 1%positive) 0 0 2 :: seriesEntrySlicePool w'.
Proof.
  assert (Hzero : pooled_lengths_zero pooled_world).
  { constructor; [reflexivity|constructor]. }
  split; [lia|]. split; [exact Hzero|].
  destruct (newSeriesChunksSet_capacity 4 true pooled_world ltac:(lia) Hzero)
    as (b & w' & Hrun & Hlen & _ & _ & _ & _ & Hsmall).
  destruct (Hsmall (Slice (Some 1%positive) 0 0 2) eq_refl eq_refl)
    as (_ & Hcap & Hpool); [unfold cap; simpl; lia|].
  exists b, w'. auto.
Defined.

Lemma newSeriesAggrChunkSlice_size_witness :
  0 <= 3 /\ sp_inv (NewSlabPool seriesChunksSlabSize) emptyWorld /\
  exists s b' w' sp',
    newSeriesAggrChunkSlice 3 releasable_set emptyWorld = Some ((s, b'), w') /\
    len s = 3 /\ cap s = 3 /\ seriesChunksPool b' = Some sp' /\
    exists s2 sp2 b2 w2,
      newSeriesAggrChunkSlice 2 b' w' = Some ((s2, b2), w2) /\
      SlabPool_Get 2 sp' w' = Some ((s2, sp2), w2) /\
      seriesChunksPool b2 = Some sp2 /\
      len s2 = 2 /\ disjoint_regions s s2.
Proof.
  assert (Hinv : sp_inv (NewSlabPool seriesChunksSlabSize) emptyWorld).
  { split; [reflexivity|]. repeat split; constructor. }
  split; [lia|]. split; [exact Hinv|].
  destruct (newSeriesAggrChunkSlice_size 3 releasable_set emptyWorld ltac:(lia)
              (fun _ => Hinv))
    as (s & b' & w' & Hrun & Hlen & Hcap & _ & _ & _ & Hpool).
  simpl in Hpool. destruct Hpool as (sp' & _ & Hsp & Hnext).
  destruct (Hnext 2 ltac:(lia)) as (s2 & sp2 & b2 & w2 & Hget & Hrun2 & Hsp2 & Hlen2 & _ & Hclear).
  exists s, b', w', sp'. split; [exact Hrun|]. split; [exact Hlen|]. split; [exact Hcap|].
  split; [exact Hsp|]. exists s2, sp2, b2, w2. auto 10.
Defined.

Lemma idempotent_exhaustion_witness :
  refs_exhaustion_law listRefs /\
  Loading.Next drained_loader emptyWorld
  = Some ((false, fst drained_loaded), snd drained_loaded) /\
  Forall (fun r => r = Some (false, Loading.Err (fst drained_loaded)))
    (loader_Next_again (fst drained_loaded) [emptyWorld; pooled_world; emptyWorld]).
Proof.
  assert (Hrun : Loading.Next drained_loader emptyWorld
                 = Some ((false, fst drained_loaded), snd drained_loaded))
    by (vm_compute; reflexivity).
  split; [exact listRefs_exhaustion_law|]. split; [exact Hrun|].
  exact (proj1 (idempotent_exhaustion (V := listNumbers) 0 listRefs_exhaustion_law)
           drained_loader _ emptyWorld _ Hrun _).
Defined.

Lemma seriesSet_At_guarded_witness :
  adapter_reachable sample_adapter /\
  SeriesSet.At sample_adapter emptyWorld = Some (nil_slice, nil_slice).
Proof.
  assert (Hreach : adapter_reachable sample_adapter) by apply reachable_new.
  split; [exact Hreach|].
  destruct (seriesSet_At_guarded sample_adapter emptyWorld Hreach) as (_ & Hguard & _).
  apply Hguard. unfold seriesChunksSet_len, len. simpl. lia.
Defined.

(** ** Runs *)

(** The first [Next] of the sample loader: two entries, the chunks carved one
    after the other from one slab, the time ranges of the references, and
    the bytes that [load] wrote. *)
Example loader_Next_converts :
  let w1 := snd sample_loaded in
  let out := Loading.At (fst sample_loaded) in
  read_entry w1 (series out) 1
  = mkSeriesEntry (Slice (Some 8%positive) 0 1 1) (Slice (Some 1%positive) 2 1 1) /\
  MinTime (read_chunk w1 (chks (read_entry w1 (series out) 0)) 1) = 201 /\
  Raw (read_chunk w1 (chks (read_entry w1 (series out) 1)) 0) = Some [Byte.x01] /\
  trace w1 = [EvRefsSetRelease sample_refs].
Proof. vm_compute. repeat split. Qed.

(** [addLoad] fails on the second reference: [Next] is false, the error is
    wrapped and latched, the set under construction has been released (its
    series slice is back in the pool) before the batch of references is, and
    [current] is what it was. *)
Example loader_Next_addLoad_fails :
  match Loading.Next failing_loader emptyWorld with
  | Some ((b, c1), w1) =>
      b = false /\
      Loading.Err c1 = Some (ErrWrap (ErrNew "unknown block") "preloading chunks") /\
      Loading.current c1 = zeroSeriesChunksSet /\
      seriesEntrySlicePool w1 = [Slice (Some 1%positive) 0 0 1] /\
      trace w1 = [EvChunkReset (Some 1%positive) 0; EvChunkReset (Some 1%positive) 1;
                  EvSlabPoolRelease;
                  EvPutSeriesChunksSlice (Slice (Some 1%positive) 0 2 1000);
                  EvPutSeriesEntrySlice (Slice (Some 1%positive) 0 0 1);
                  EvRefsSetRelease failing_refs]
  | None => False
  end.
Proof. vm_compute. repeat split. Qed.

(** Releasing what the sample loader returned: the releaser first, then the
    chunks, the slab pool and the series slice; the cells are zero after. *)
Example release_after_load :
  match release (Loading.At (fst sample_loaded)) (snd sample_loaded) with
  | Some (b, w) =>
      trace w = [EvRefsSetRelease sample_refs; EvChunksRelease 1%positive;
                 EvChunkReset (Some 1%positive) 0; EvChunkReset (Some 1%positive) 1;
                 EvChunkReset (Some 1%positive) 2; EvSlabPoolRelease;
                 EvPutSeriesChunksSlice (Slice (Some 1%positive) 0 3 1000);
                 EvPutSeriesEntrySlice (Slice (Some 1%positive) 0 0 2)] /\
      seriesEntrySlicePool w = [Slice (Some 1%positive) 0 0 2] /\
      read_entry w (Slice (Some 1%positive) 0 2 2) 0 = zeroSeriesEntry /\
      read_chunk w (Slice (Some 1%positive) 0 3 3) 1 = zeroAggrChunk
  | None => False
  end.
Proof. vm_compute. repeat split. Qed.

(** Three keys asked, two of them held by the server. *)
Example Fetch_two_of_three :
  let r := Cache.Fetch (sample_cache (Cache.ServerHolds sample_items)) ["a"; "b"; "c"] in
  Cache.requests (snd r) = 3 /\ Cache.hits (snd r) = 2 /\
  fst r !! "a" = Some [Byte.x01] /\ fst r !! "c" = None /\ fst r !! "z" = None.
Proof. vm_compute. repeat split. Qed.

Example Fetch_transport_error :
  let r := Cache.Fetch (sample_cache (Cache.TransportError (ErrNew "timeout"))) ["a"; "b"] in
  Cache.requests (snd r) = 2 /\ Cache.hits (snd r) = 0 /\ fst r = ∅.
Proof. vm_compute. repeat split. Qed.

(** The producer fills the channel and blocks on the error payload; the
    consumer takes the value; the producer sends the error and closes; the
    consumer's next [Next] is false with the error, and so is the one after,
    on the closed channel. *)
Example preloading_run :
  let filled :=
    produce (produce (produce
      (Preloading.newPreloadingSetIterator 0 false 2 numbers_upstream))) in
  let taken := consume filled in
  let closed := produce (produce (option_map snd taken)) in
  let last := consume closed in
  let again := consume (option_map snd last) in
  produce filled = None /\
  option_map fst taken = Some true /\
  option_map (fun r => Preloading.At (snd r)) taken = Some 7 /\
  option_map Preloading.goroutine closed = Some Preloading.Finished /\
  option_map fst last = Some false /\
  option_map (fun r => Preloading.Err (snd r)) last = Some (Some (ErrNew "upstream")) /\
  option_map fst again = Some false /\
  option_map (fun r => Preloading.Err (snd r)) again = Some (Some (ErrNew "upstream")).
Proof. vm_compute. repeat split. Qed.

(** * More of the pipeline: properties

    ** The preloading iterator: order, lookahead, errors *)

Section PreloadingOrderFacts.
Context {U T : Type} `{Preloading.genericIterator U T} (zeroT : T).

Local Abbreviation piterator := (Preloading.preloadingSetIterator U T).

Lemma upstream_after_S (u : U) (k : nat) :
  upstream_after u (S k) = snd (Preloading.gi_Next (upstream_after u k)).
Proof.
  revert u. induction k as [|k IH]; intros u; [reflexivity|].
  change (upstream_after u (S (S k)))
    with (upstream_after (snd (Preloading.gi_Next u)) (S k)).
  rewrite IH. reflexivity.
Qed.

Lemma upstream_values_unfold (u : U) (k : nat) :
  upstream_values u (S k)
  = if fst (Preloading.gi_Next u)
    then Preloading.gi_At (snd (Preloading.gi_Next u))
         :: upstream_values (snd (Preloading.gi_Next u)) k
    else [].
Proof. simpl. destruct (Preloading.gi_Next u) as [[] u']; reflexivity. Qed.

(** One more round of the loop that is true adds its value at the end. *)
Lemma upstream_values_S (u u' : U) (k : nat) :
  length (upstream_values u k) = k ->
  Preloading.gi_Next (upstream_after u k) = (true, u') ->
  upstream_values u (S k) = upstream_values u k ++ [Preloading.gi_At u'] /\
  length (upstream_values u (S k)) = S k.
Proof.
  revert u. induction k as [|k IH]; intros u Hlen Hnext.
  - simpl in *. rewrite Hnext. split; reflexivity.
  - rewrite (upstream_values_unfold u (S k)).
    rewrite (upstream_values_unfold u k) in Hlen |- *.
    change (upstream_after u (S k))
      with (upstream_after (snd (Preloading.gi_Next u)) k) in Hnext.
    destruct (fst (Preloading.gi_Next u)); [|simpl in Hlen; discriminate].
    simpl in Hlen. injection Hlen as Hlen.
    destruct (IH _ Hlen Hnext) as [Heq Hl]. rewrite Heq.
    split; [reflexivity|]. simpl. rewrite length_app, Hlen. simpl. lia.
Qed.

Lemma last_set_snoc (l : list (Preloading.preloadedSeriesChunksSet T))
    (v : Preloading.preloadedSeriesChunksSet T) :
  last_set zeroT (l ++ [v]) = Preloading.set v /\ last_err (l ++ [v]) = Preloading.perr v.
Proof. unfold last_set, last_err. rewrite last_snoc. split; reflexivity. Qed.

Lemma new_order_inv (done : bool) (n : Z) (from0 : U) (p0 : piterator) :
  Preloading.newPreloadingSetIterator zeroT done n from0 = Some p0 ->
  order_inv zeroT from0 p0 /\ Preloading.from p0 = from0.
Proof.
  unfold Preloading.newPreloadingSetIterator.
  destruct (Preloading.make_chan (int_sub n 1)) as [c|] eqn:Hc; [|discriminate].
  unfold Preloading.make_chan in Hc.
  destruct (0 <=? int_sub n 1); [|discriminate]. inversion Hc; subst c.
  intros Hp0. inversion Hp0; subst p0. split; [|reflexivity].
  exists 0%nat, []. simpl. repeat split.
Qed.

Lemma buffered_send_order (from0 : U) (v : Preloading.preloadedSeriesChunksSet T)
    (g : Preloading.producer T) (p q : piterator) :
  Preloading.buffered_send v g p = Some q ->
  Preloading.goroutine q = g /\ Preloading.from q = Preloading.from p /\
  Preloading.sent q = Preloading.sent p ++ [v] /\
  Preloading.ch_buf (Preloading.preloaded q) = Preloading.ch_buf (Preloading.preloaded p) ++ [v] /\
  Preloading.current q = Preloading.current p /\ Preloading.err q = Preloading.err p.
Proof.
  unfold Preloading.buffered_send.
  destruct (Preloading.has_room (Preloading.preloaded p)); [|discriminate].
  intros Hq. inversion Hq; subst q. simpl. repeat split.
Qed.

Lemma preload_step_order (from0 : U) (p q : piterator) :
  order_inv zeroT from0 p -> Preloading.preload_step zeroT p = Some q ->
  order_inv zeroT from0 q.
Proof.
  intros (k & received & Hsent & Hlen & Hcur & Herr & Hg) Hstep.
  unfold Preloading.preload_step in Hstep.
  destruct (Preloading.goroutine p) as [|v|v| |] eqn:Hgo.
  - (* the call of Next *)
    destruct Hg as [Hs Hfrom].
    destruct (Preloading.gi_Next (Preloading.from p)) as [ok u'] eqn:Hnext.
    rewrite Hfrom in Hnext.
    inversion Hstep; subst q. clear Hstep.
    exists k, received. simpl.
    split; [exact Hsent|]. split; [exact Hlen|]. split; [exact Hcur|]. split; [exact Herr|].
    destruct ok.
    + simpl. auto.
    + destruct (Preloading.gi_Err u') as [e|] eqn:He; simpl.
      * split; [exact Hs|]. split; [exact Hnext|].
        split; [unfold error_payload; now rewrite He|discriminate].
      * rewrite Hnext. simpl. auto.
  - (* the send of a value *)
    destruct Hg as (Hs & Hnext & Hv).
    destruct (buffered_send_order from0 _ _ _ _ Hstep) as (Hgq & Hfq & Hsq & Hbq & Hcq & Heq).
    destruct (upstream_values_S from0 (Preloading.from p) k Hlen Hnext) as [Hvals Hlen'].
    exists (S k), received.
    rewrite Hsq, Hbq, Hcq, Heq, Hgq, Hfq.
    split; [rewrite Hsent; now rewrite app_assoc|]. split; [exact Hlen'|].
    split; [exact Hcur|]. split; [exact Herr|].
    split.
    + rewrite Hvals, fmap_app, Hs, Hv. reflexivity.
    + rewrite upstream_after_S, Hnext. reflexivity.
  - (* the send of the error *)
    destruct Hg as (Hs & Hnext & Hv & He).
    destruct (buffered_send_order from0 _ _ _ _ Hstep) as (Hgq & Hfq & Hsq & Hbq & Hcq & Heq).
    exists k, received.
    rewrite Hsq, Hbq, Hcq, Heq, Hgq, Hfq.
    split; [rewrite Hsent; now rewrite app_assoc|]. split; [exact Hlen|].
    split; [exact Hcur|]. split; [exact Herr|].
    split; [now rewrite Hnext|]. right. rewrite Hs, Hv, Hnext. auto.
  - (* the close *)
    inversion Hstep; subst q. clear Hstep.
    exists k, received. simpl. auto.
  - discriminate.
Qed.

Lemma preload_ctxDone_order (from0 : U) (p q : piterator) :
  order_inv zeroT from0 p -> Preloading.preload_ctxDone p = Some q ->
  order_inv zeroT from0 q.
Proof.
  intros (k & received & Hsent & Hlen & Hcur & Herr & Hg) Hstep.
  unfold Preloading.preload_ctxDone in Hstep.
  destruct (Preloading.goroutine p) as [|v|v| |] eqn:Hgo; try discriminate.
  destruct (Preloading.ctx_done p); [|discriminate].
  inversion Hstep; subst q. clear Hstep.
  destruct Hg as (Hs & Hnext & Hv).
  exists k, received. simpl.
  split; [exact Hsent|]. split; [exact Hlen|]. split; [exact Hcur|]. split; [exact Herr|].
  split; [now rewrite Hnext|]. now left.
Qed.

Lemma cancel_order (from0 : U) (p : piterator) :
  order_inv zeroT from0 p -> order_inv zeroT from0 (Preloading.cancel p).
Proof.
  intros (k & received & Hinv). exists k, received. exact Hinv.
Qed.

Lemma Next_order (from0 : U) (p q : piterator) (b : bool) :
  order_inv zeroT from0 p -> Preloading.Next p = Some (b, q) ->
  order_inv zeroT from0 q.
Proof.
  intros (k & received & Hsent & Hlen & Hcur & Herr & Hg) Hn.
  unfold Preloading.Next, Preloading.receive in Hn.
  destruct (Preloading.ch_buf (Preloading.preloaded p)) as [|v rest] eqn:Hbuf.
  - rewrite app_nil_r in Hsent.
    destruct (Preloading.goroutine p) as [|v|v| |] eqn:Hgo.
    + destruct (Preloading.ch_closed (Preloading.preloaded p)); [|discriminate].
      inversion Hn; subst q. exists k, received.
      rewrite Hbuf, app_nil_r, Hgo. auto.
    + (* handed over by the producer in its select *)
      inversion Hn; subst q. clear Hn.
      destruct Hg as (Hs & Hnext & Hv).
      destruct (upstream_values_S from0 (Preloading.from p) k Hlen Hnext) as [Hvals Hlen'].
      exists (S k), (received ++ [v]). cbn -[upstream_values upstream_after].
      rewrite Hbuf, app_nil_r.
      destruct (last_set_snoc received v) as [Hls Hle].
      split; [now rewrite Hsent|]. split; [exact Hlen'|].
      split; [now rewrite Hls|]. split; [now rewrite Hle|].
      split.
      * rewrite Hvals, fmap_app, Hs, Hv. reflexivity.
      * rewrite upstream_after_S, Hnext. reflexivity.
    + (* handed over by the producer in its last send *)
      inversion Hn; subst q. clear Hn.
      destruct Hg as (Hs & Hnext & Hv & He).
      exists k, (received ++ [v]). simpl. rewrite Hbuf, app_nil_r.
      destruct (last_set_snoc received v) as [Hls Hle].
      split; [now rewrite Hsent|]. split; [exact Hlen|].
      split; [now rewrite Hls|]. split; [now rewrite Hle|].
      split; [now rewrite Hnext|]. right. rewrite Hs, Hv, Hnext. auto.
    + destruct (Preloading.ch_closed (Preloading.preloaded p)); [|discriminate].
      inversion Hn; subst q. exists k, received.
      rewrite Hbuf, app_nil_r, Hgo. auto.
    + destruct (Preloading.ch_closed (Preloading.preloaded p)); [|discriminate].
      inversion Hn; subst q. exists k, received.
      rewrite Hbuf, app_nil_r, Hgo. auto.
  - inversion Hn; subst q. clear Hn.
    exists k, (received ++ [v]). simpl.
    destruct (last_set_snoc received v) as [Hls Hle].
    split; [rewrite Hsent; now rewrite <- app_assoc|]. split; [exact Hlen|].
    split; [now rewrite Hls|]. split; [now rewrite Hle|].
    exact Hg.
Qed.

Lemma step_order (from0 : U) (p q : piterator) :
  order_inv zeroT from0 p -> Preloading.step zeroT p q -> order_inv zeroT from0 q.
Proof.
  intros Hinv Hstep. destruct Hstep as [p p' Hs|p p' Hs|p|p b p' Hs].
  - eapply preload_step_order; eassumption.
  - eapply preload_ctxDone_order; eassumption.
  - now apply cancel_order.
  - eapply Next_order; eassumption.
Qed.

Lemma steps_order (from0 : U) (p q : piterator) :
  order_inv zeroT from0 p -> Preloading.steps zeroT p q -> order_inv zeroT from0 q.
Proof.
  intros Hinv Hsteps. induction Hsteps as [p|p q r _ IH Hstep]; [exact Hinv|].
  eapply step_order; [|exact Hstep]. now apply IH.
Qed.

Lemma reached_order (done : bool) (n : Z) (from0 : U) (p0 p : piterator) :
  Preloading.newPreloadingSetIterator zeroT done n from0 = Some p0 ->
  Preloading.steps zeroT p0 p ->
  order_inv zeroT from0 p.
Proof.
  intros Hnew Hsteps. eapply steps_order; [|exact Hsteps].
  apply (new_order_inv done n from0 p0 Hnew).
Qed.

Lemma value_payload_no_error (vals : list T) (v : Preloading.preloadedSeriesChunksSet T) :
  v ∈ (value_payload <$> vals) -> Preloading.perr v = None.
Proof.
  intros Hin. apply list_elem_of_fmap in Hin. destruct Hin as (t & -> & _). reflexivity.
Qed.

(** What the invariant says of what went through the channel. *)
Lemma order_inv_sent (from0 : U) (p : piterator) :
  order_inv zeroT from0 p ->
  exists k received tail,
    Preloading.sent p = received ++ Preloading.ch_buf (Preloading.preloaded p) /\
    Preloading.sent p = (value_payload <$> upstream_values from0 k) ++ tail /\
    length (upstream_values from0 k) = k /\
    (tail = [] \/
     (tail = [error_payload zeroT (Preloading.from p)] /\
      Preloading.gi_Err (Preloading.from p) <> None /\
      Preloading.gi_Next (upstream_after from0 k) = (false, Preloading.from p) /\
      winding_down p)) /\
    Preloading.current p = last_set zeroT received /\
    Preloading.err p = last_err received.
Proof.
  intros (k & received & Hsent & Hlen & Hcur & Herr & Hg).
  destruct (Preloading.goroutine p) as [|v|v| |] eqn:Hgo.
  - exists k, received, []. rewrite app_nil_r. destruct Hg as [Hs _]. auto 10.
  - exists k, received, []. rewrite app_nil_r. destruct Hg as (Hs & _). auto 10.
  - exists k, received, []. rewrite app_nil_r. destruct Hg as (Hs & _). auto 10.
  - destruct Hg as (Hfrom & [Hs|(Hs & Hfalse & He)]).
    + exists k, received, []. rewrite app_nil_r. auto 10.
    + exists k, received, [error_payload zeroT (Preloading.from p)].
      split; [exact Hsent|]. split; [exact Hs|]. split; [exact Hlen|].
      split; [|auto]. right. split; [reflexivity|]. split; [exact He|].
      split; [|left; exact Hgo].
      rewrite Hfrom. destruct (Preloading.gi_Next (upstream_after from0 k)) as [ok u'].
      simpl in *. now subst ok.
  - destruct Hg as (Hfrom & [Hs|(Hs & Hfalse & He)]).
    + exists k, received, []. rewrite app_nil_r. auto 10.
    + exists k, received, [error_payload zeroT (Preloading.from p)].
      split; [exact Hsent|]. split; [exact Hs|]. split; [exact Hlen|].
      split; [|auto]. right. split; [reflexivity|]. split; [exact He|].
      split; [|right; exact Hgo].
      rewrite Hfrom. destruct (Preloading.gi_Next (upstream_after from0 k)) as [ok u'].
      simpl in *. now subst ok.
Qed.

(** X1. Order. Through every interleaving of producer, consumer and
    cancellation, what has gone through the channel is the first [k] values
    of the upstream, in the order the upstream gave them, each once, and
    after them at most the one error payload; the consumer has received a
    prefix of that, [At] and [Err] are those of the payload it received
    last, and a [Next] that is true makes [At] the upstream value that
    comes next. *)
Theorem preloading_in_order (done : bool) (n : Z) (from0 : U) (p0 p : piterator) :
  Preloading.newPreloadingSetIterator zeroT done n from0 = Some p0 ->
  Preloading.steps zeroT p0 p ->
  exists k received tail,
    Preloading.sent p = received ++ Preloading.ch_buf (Preloading.preloaded p) /\
    Preloading.sent p = (value_payload <$> upstream_values from0 k) ++ tail /\
    length (upstream_values from0 k) = k /\
    (tail = [] \/ tail = [error_payload zeroT (Preloading.from p)]) /\
    Preloading.At p = last_set zeroT received /\
    Preloading.Err p = last_err received /\
    forall q, Preloading.Next p = Some (true, q) ->
      exists k', upstream_values from0 k' !! length received = Some (Preloading.At q).
Proof.
  intros Hnew Hsteps.
  pose proof (reached_order done n from0 p0 p Hnew Hsteps) as Hinv.
  destruct (order_inv_sent from0 p Hinv)
    as (k & received & tail & Hsent & Hs & Hlen & Htail & Hcur & Herr).
  exists k, received, tail.
  split; [exact Hsent|]. split; [exact Hs|]. split; [exact Hlen|].
  split; [destruct Htail as [Ht|(Ht & _)]; auto|].
  split; [exact Hcur|]. split; [exact Herr|].
  intros q Hn.
  unfold Preloading.Next, Preloading.receive in Hn.
  destruct (Preloading.ch_buf (Preloading.preloaded p)) as [|v rest] eqn:Hbuf.
  - (* handed over by the producer *)
    rewrite app_nil_r in Hsent.
    destruct Hinv as (k1 & received1 & Hsent1 & Hlen1 & _ & _ & Hg).
    rewrite Hbuf, app_nil_r in Hsent1.
    destruct (Preloading.goroutine p) as [|v|v| |] eqn:Hgo;
      try (destruct (Preloading.ch_closed (Preloading.preloaded p)); discriminate).
    + destruct Hg as (Hs1 & Hnext & Hv).
      inversion Hn as [[Hb Hq]]. unfold Preloading.At. simpl.
      destruct (upstream_values_S from0 (Preloading.from p) k1 Hlen1 Hnext) as [Hvals _].
      exists (S k1). rewrite Hvals.
      assert (Hk : length received = k1).
      { rewrite <- Hsent, Hs1, length_fmap. exact Hlen1. }
      rewrite Hk, lookup_app_r by lia. rewrite Hlen1, Nat.sub_diag, Hv. reflexivity.
    + destruct Hg as (_ & _ & Hv & He).
      inversion Hn as [[Hb Hq]]. subst v. unfold error_payload in Hb. simpl in Hb.
      destruct (Preloading.gi_Err (Preloading.from p)); [discriminate|congruence].
  - (* taken from the buffer *)
    inversion Hn as [[Hb Hq]]. unfold Preloading.At. simpl.
    assert (Hnone : Preloading.perr v = None).
    { destruct (Preloading.perr v); [discriminate|reflexivity]. }
    assert (Hat : ((value_payload <$> upstream_values from0 k) ++ tail) !! length received
                  = Some v).
    { rewrite <- Hs, Hsent. rewrite lookup_app_r by lia. now rewrite Nat.sub_diag. }
    destruct (decide (length received < length (upstream_values from0 k))%nat) as [Hlt|Hge].
    + rewrite lookup_app_l in Hat by (rewrite length_fmap; exact Hlt).
      rewrite list_lookup_fmap in Hat.
      destruct (upstream_values from0 k !! length received) as [t|] eqn:Ht; [|discriminate].
      simpl in Hat. inversion Hat; subst v. exists k. exact Ht.
    + exfalso. rewrite lookup_app_r in Hat by (rewrite length_fmap; lia).
      apply list_elem_of_lookup_2 in Hat.
      destruct Htail as [->|(-> & He & _)]; [now apply not_elem_of_nil in Hat|].
      apply list_elem_of_singleton in Hat. subst v. exact (He Hnone).
Qed.

(** X2. Lookahead. The producer never has the upstream more than
    [preloadedSetsCount] calls of [Next] ahead of what the consumer has
    received: what is in the channel is within its capacity,
    [preloadedSetsCount - 1], and one more value can wait in the producer. *)
Theorem preloading_lookahead (done : bool) (n : Z) (from0 : U) (p0 p : piterator) :
  Preloading.newPreloadingSetIterator zeroT done n from0 = Some p0 ->
  Preloading.steps zeroT p0 p ->
  exists j received,
    Preloading.sent p = received ++ Preloading.ch_buf (Preloading.preloaded p) /\
    Preloading.from p = upstream_after from0 j /\
    Z.of_nat j <= Z.of_nat (length received) + (int_sub n 1 + 1).
Proof.
  intros Hnew Hsteps.
  destruct (new_preloading_inv zeroT done n from0 p0 Hnew)
    as (Hinv0 & Hn & Hcap0 & _).
  assert (Hcap : Preloading.ch_cap (Preloading.preloaded p)
                 = Preloading.ch_cap (Preloading.preloaded p0)).
  { clear - Hsteps. induction Hsteps as [p|p q r _ IH Hstep]; [reflexivity|].
    rewrite (step_cap zeroT q r Hstep). exact IH. }
  destruct (steps_inv zeroT p0 p Hinv0 Hsteps) as (Hroom & _).
  rewrite Hcap, Hcap0 in Hroom.
  destruct (reached_order done n from0 p0 p Hnew Hsteps)
    as (k & received & Hsent & Hlen & _ & _ & Hg).
  assert (Hcount : forall tail,
            Preloading.sent p = (value_payload <$> upstream_values from0 k) ++ tail ->
            (k <= length received + Z.to_nat (int_sub n 1))%nat).
  { intros tail Hs. rewrite Hsent in Hs. apply (f_equal length) in Hs.
    rewrite !length_app, length_fmap, Hlen in Hs. lia. }
  destruct (Preloading.goroutine p) as [|v|v| |].
  - destruct Hg as [Hs Hfrom]. exists k, received.
    split; [exact Hsent|]. split; [exact Hfrom|].
    specialize (Hcount []). rewrite app_nil_r in Hcount. specialize (Hcount Hs). lia.
  - destruct Hg as (Hs & Hnext & _). exists (S k), received.
    split; [exact Hsent|]. split; [now rewrite upstream_after_S, Hnext|].
    specialize (Hcount []). rewrite app_nil_r in Hcount. specialize (Hcount Hs). lia.
  - destruct Hg as (Hs & Hnext & _). exists (S k), received.
    split; [exact Hsent|]. split; [now rewrite upstream_after_S, Hnext|].
    specialize (Hcount []). rewrite app_nil_r in Hcount. specialize (Hcount Hs). lia.
  - destruct Hg as (Hfrom & Hs). exists (S k), received.
    split; [exact Hsent|]. split; [now rewrite upstream_after_S|].
    destruct Hs as [Hs|(Hs & _)].
    + specialize (Hcount []). rewrite app_nil_r in Hcount. specialize (Hcount Hs). lia.
    + specialize (Hcount _ Hs). lia.
  - destruct Hg as (Hfrom & Hs). exists (S k), received.
    split; [exact Hsent|]. split; [now rewrite upstream_after_S|].
    destruct Hs as [Hs|(Hs & _)].
    + specialize (Hcount []). rewrite app_nil_r in Hcount. specialize (Hcount Hs). lia.
    + specialize (Hcount _ Hs). lia.
Qed.

(** X3. Where an error comes from. [Err] is not nil only when the upstream
    has answered a [Next] with false and has this very error; the producer
    is then past its last send and [At] is the zero value. A cancelled
    context never shows as an error. *)
Theorem preloading_Err_from_upstream (done : bool) (n : Z) (from0 : U) (p0 p : piterator)
    (e : errorValue) :
  Preloading.newPreloadingSetIterator zeroT done n from0 = Some p0 ->
  Preloading.steps zeroT p0 p ->
  Preloading.Err p = Some e ->
  Preloading.gi_Err (Preloading.from p) = Some e /\
  (exists k, length (upstream_values from0 k) = k /\
             Preloading.gi_Next (upstream_after from0 k) = (false, Preloading.from p)) /\
  Preloading.At p = zeroT /\
  winding_down p.
Proof.
  intros Hnew Hsteps He.
  pose proof (reached_order done n from0 p0 p Hnew Hsteps) as Hinv.
  destruct (order_inv_sent from0 p Hinv)
    as (k & received & tail & Hsent & Hs & Hlen & Htail & Hcur & Herr).
  unfold Preloading.Err in He. rewrite Herr in He. unfold last_err in He.
  destruct (last received) as [v|] eqn:Hlast; [|discriminate]. simpl in He.
  apply last_Some in Hlast. destruct Hlast as (received' & ->).
  assert (Hin : v ∈ (value_payload <$> upstream_values from0 k) ++ tail).
  { rewrite <- Hs, Hsent. apply elem_of_app. left. apply elem_of_app. right.
    now apply list_elem_of_singleton. }
  apply elem_of_app in Hin. destruct Hin as [Hin|Hin].
  { apply value_payload_no_error in Hin. congruence. }
  destruct Htail as [->|(-> & Herr' & Hnext & Hwind)]; [now apply not_elem_of_nil in Hin|].
  apply list_elem_of_singleton in Hin. subst v. unfold error_payload in He. simpl in He.
  split; [exact He|]. split; [exists k; auto|]. split; [|exact Hwind].
  unfold Preloading.At. rewrite Hcur. unfold last_set. rewrite last_snoc. reflexivity.
Qed.

(** X19. No deadlock. In every state the iterator can reach, the producer
    can take a step or the consumer's [Next] returns: the two are never both
    blocked. *)
Theorem preloading_never_stuck (p : piterator) :
  Preloading.reachable zeroT p ->
  (exists q, Preloading.preload_step zeroT p = Some q) \/
  (exists b q, Preloading.Next p = Some (b, q)).
Proof.
  intros Hreach. destruct (reachable_inv zeroT p Hreach) as (_ & Hclosed & _).
  assert (Hrecv : (exists r q, Preloading.receive p = Some (r, q)) ->
                  exists b q, Preloading.Next p = Some (b, q)).
  { intros (r & q & Hr). unfold Preloading.Next. rewrite Hr.
    destruct r as [v|]; eauto. }
  unfold Preloading.preload_step, Preloading.buffered_send.
  destruct (Preloading.goroutine p) as [|v|v| |] eqn:Hg.
  - left. destruct (Preloading.gi_Next (Preloading.from p)) as [ok u']. eauto.
  - destruct (Preloading.has_room (Preloading.preloaded p)); [left; eauto|].
    right. apply Hrecv. unfold Preloading.receive. rewrite Hg.
    destruct (Preloading.ch_buf (Preloading.preloaded p)); eauto.
  - destruct (Preloading.has_room (Preloading.preloaded p)); [left; eauto|].
    right. apply Hrecv. unfold Preloading.receive. rewrite Hg.
    destruct (Preloading.ch_buf (Preloading.preloaded p)); eauto.
  - left. eauto.
  - right. apply Hrecv. unfold Preloading.receive. rewrite Hg.
    rewrite (proj2 Hclosed eq_refl).
    destruct (Preloading.ch_buf (Preloading.preloaded p)); eauto.
Qed.

(** X20. The last send does not watch the context. A producer that waits
    to send the error of the upstream, with no room in the channel, stays
    there whatever it or the caller does, cancelling included, and the
    channel stays open: only a receive by the consumer lets it go on. A
    producer that waits in its select to send a value is let go by a
    cancelled context: it can close the channel without the consumer. *)
Theorem error_send_ignores_cancel (p : piterator)
    (v : Preloading.preloadedSeriesChunksSet T) :
  Preloading.has_room (Preloading.preloaded p) = false ->
  (Preloading.goroutine p = Preloading.AtSendErr v ->
   forall q, unattended zeroT p q ->
     Preloading.goroutine q = Preloading.AtSendErr v /\
     Preloading.preloaded q = Preloading.preloaded p /\
     Preloading.preload_step zeroT q = None /\
     Preloading.preload_ctxDone q = None) /\
  (Preloading.goroutine p = Preloading.AtSelect v ->
   Preloading.preload_step zeroT p = None /\
   exists q, unattended zeroT p q /\
             Preloading.goroutine q = Preloading.Finished /\
             Preloading.ch_closed (Preloading.preloaded q) = true /\
             Preloading.sent q = Preloading.sent p).
Proof.
  intros Hroom. split.
  - intros Hg q Hq.
    assert (Hstay : Preloading.goroutine q = Preloading.AtSendErr v /\
                    Preloading.preloaded q = Preloading.preloaded p).
    { induction Hq as [p|p q r _ IH Hstep|p q r _ IH Hstep|p q _ IH].
      - auto.
      - destruct (IH Hroom Hg) as [Hgq Hpq].
        unfold Preloading.preload_step, Preloading.buffered_send in Hstep.
        rewrite Hgq, Hpq, Hroom in Hstep. discriminate.
      - destruct (IH Hroom Hg) as [Hgq Hpq].
        unfold Preloading.preload_ctxDone in Hstep. rewrite Hgq in Hstep. discriminate.
      - destruct (IH Hroom Hg) as [Hgq Hpq]. simpl. auto. }
    destruct Hstay as [Hgq Hpq].
    split; [exact Hgq|]. split; [exact Hpq|].
    unfold Preloading.preload_step, Preloading.buffered_send, Preloading.preload_ctxDone.
    rewrite Hgq, Hpq, Hroom. auto.
  - intros Hg. split.
    + unfold Preloading.preload_step, Preloading.buffered_send. now rewrite Hg, Hroom.
    + eexists. split.
      * eapply unattended_preload.
        -- eapply unattended_ctxDone; [apply unattended_cancel, unattended_refl|].
           unfold Preloading.preload_ctxDone. simpl. rewrite Hg. reflexivity.
        -- reflexivity.
      * simpl. auto.
Qed.

End PreloadingOrderFacts.

(** ** The preloading iterator: termination and the way of the error *)

Section PreloadingTermination.
Context {U T : Type} `{Preloading.genericIterator U T} (zeroT : T).

Local Abbreviation iterator := (Preloading.preloadingSetIterator U T).





End PreloadingTermination.


(** ** The series adapter: walking a batch, staying exhausted *)

Section AdapterRunFacts.
Context {U : Type} `{SeriesSet.seriesChunksSetIterator U}.

Lemma Next_inside (b : SeriesSet.seriesChunksSeriesSet U) (w : world) :
  0 <= SeriesSet.currOffset b ->
  SeriesSet.currOffset b + 1 < seriesChunksSet_len (SeriesSet.currSet b) ->
  seriesChunksSet_len (SeriesSet.currSet b) <= int_max ->
  SeriesSet.Next b w
  = Some ((true, SeriesSet.mkSeriesChunksSeriesSet (SeriesSet.from b) (SeriesSet.currSet b)
                   (SeriesSet.currOffset b + 1)), w).
Proof.
  intros Hpos Hin Hmax. unfold SeriesSet.Next.
  rewrite int_add_1 by lia.
  destruct (seriesChunksSet_len (SeriesSet.currSet b) <=? SeriesSet.currOffset b + 1) eqn:E;
    [apply Z.leb_le in E; lia|reflexivity].
Qed.

Lemma At_entry (b : SeriesSet.seriesChunksSeriesSet U) (w : world) :
  0 <= SeriesSet.currOffset b < seriesChunksSet_len (SeriesSet.currSet b) ->
  SeriesSet.At b w
  = Some (lset (read_entry w (series (SeriesSet.currSet b))
                  (Z.to_nat (SeriesSet.currOffset b))),
          chks (read_entry w (series (SeriesSet.currSet b))
                  (Z.to_nat (SeriesSet.currOffset b)))).
Proof.
  intros [Hpos Hin]. unfold SeriesSet.At.
  destruct (seriesChunksSet_len (SeriesSet.currSet b) <=? SeriesSet.currOffset b) eqn:E;
    [apply Z.leb_le in E; lia|].
  unfold index_entry. unfold seriesChunksSet_len in Hin.
  destruct (0 <=? SeriesSet.currOffset b) eqn:E1; [|apply Z.leb_gt in E1; lia].
  destruct (SeriesSet.currOffset b <? len (series (SeriesSet.currSet b))) eqn:E2;
    [|apply Z.ltb_ge in E2; lia].
  reflexivity.
Qed.

(** X4. Walking a batch. While the offset stays inside the current batch,
    [k] calls of [Next] are all true and do nothing but move the offset by
    [k]: the world is the same, the upstream is not called and nothing is
    released; [At] then returns the label set and the chunks of the entry
    at that offset. *)
Theorem adapter_walks_batch (k : nat) :
  forall (b : SeriesSet.seriesChunksSeriesSet U) (w : world),
    0 <= SeriesSet.currOffset b ->
    SeriesSet.currOffset b + Z.of_nat k < seriesChunksSet_len (SeriesSet.currSet b) ->
    seriesChunksSet_len (SeriesSet.currSet b) <= int_max ->
    let b' := SeriesSet.mkSeriesChunksSeriesSet (SeriesSet.from b) (SeriesSet.currSet b)
                (SeriesSet.currOffset b + Z.of_nat k) in
    let e := read_entry w (series (SeriesSet.currSet b))
               (Z.to_nat (SeriesSet.currOffset b + Z.of_nat k)) in
    Next_times k b w = Some ((true, b'), w) /\
    SeriesSet.At b' w = Some (lset e, chks e).
Proof.
  induction k as [|k IH]; intros b w Hpos Hin Hmax b' e.
  - split; [|subst b' e; apply At_entry; simpl; lia].
    simpl. unfold ret, b'. change (Z.of_nat 0) with 0. rewrite Z.add_0_r. now destruct b.
  - split; [|subst b' e; apply At_entry; simpl; lia].
    cbn [Next_times].
    rewrite (bind_ret_eq _ _ _ _ _ (Next_inside b w Hpos ltac:(lia) Hmax)).
    cbn [fst snd].
    specialize (IH (SeriesSet.mkSeriesChunksSeriesSet (SeriesSet.from b)
                      (SeriesSet.currSet b) (SeriesSet.currOffset b + 1)) w).
    cbn [SeriesSet.currOffset SeriesSet.currSet SeriesSet.from] in IH.
    replace (SeriesSet.currOffset b + 1 + Z.of_nat k)
      with (SeriesSet.currOffset b + Z.of_nat (S k)) in IH by lia.
    subst b'. apply IH; lia.
Qed.

Lemma release_zero_set (w : world) :
  release zeroSeriesChunksSet w = Some (zeroSeriesChunksSet, w).
Proof. reflexivity. Qed.

(** X5. Staying exhausted. After a [Next] that was false, each later
    [Next], in whatever world, is false as well when the upstream keeps
    the law of an exhausted iterator; the current batch stays the zero
    set, so that [At] is (nil, nil), and [Err] stays what it was. The
    call releases nothing: it does not go beyond calling the upstream. *)
Theorem adapter_stays_exhausted (b b1 : SeriesSet.seriesChunksSeriesSet U) (w w1 : world) :
  sets_exhaustion_law U ->
  SeriesSet.Next b w = Some ((false, b1), w1) ->
  SeriesSet.currOffset b < int_max - 1 ->
  0 <= SeriesSet.currOffset b ->
  forall w', exists b2 u2 w2,
    SeriesSet.it_Next (SeriesSet.from b1) w' = Some ((false, u2), w2) /\
    SeriesSet.Next b1 w' = Some ((false, b2), w2) /\
    SeriesSet.from b2 = u2 /\
    SeriesSet.currSet b2 = zeroSeriesChunksSet /\
    SeriesSet.Err b2 = SeriesSet.Err b1 /\
    SeriesSet.At b2 w2 = Some (nil_slice, nil_slice).
Proof.
  intros Hlaw Hrun Hmax Hpos w'.
  unfold SeriesSet.Next in Hrun. rewrite int_add_1 in Hrun by lia.
  destruct (seriesChunksSet_len (SeriesSet.currSet b) <=? SeriesSet.currOffset b + 1) eqn:E;
    [|inversion Hrun].
  apply bind_Some in Hrun. destruct Hrun as (cs & wr & _ & Hrun).
  apply bind_Some in Hrun. destruct Hrun as ([ok u1] & wu & Hup & Hrun).
  simpl in Hrun. destruct ok; simpl in Hrun; inversion Hrun; subst b1 w1. clear Hrun.
  destruct (Hlaw _ _ _ _ Hup w') as (u2 & w2 & Hup2 & Herr).
  exists (SeriesSet.mkSeriesChunksSeriesSet u2 zeroSeriesChunksSet
            (SeriesSet.currOffset b + 1 + 1)), u2, w2.
  split; [exact Hup2|].
  split.
  - unfold SeriesSet.Next. cbn [SeriesSet.currOffset SeriesSet.currSet SeriesSet.from].
    rewrite int_add_1 by lia.
    change (seriesChunksSet_len zeroSeriesChunksSet) with 0.
    destruct (0 <=? SeriesSet.currOffset b + 1 + 1) eqn:E0; [|apply Z.leb_gt in E0; lia].
    rewrite (bind_ret_eq _ _ _ _ _ (release_zero_set w')).
    rewrite (bind_ret_eq _ _ _ _ _ Hup2). reflexivity.
  - split; [reflexivity|]. split; [reflexivity|]. split; [exact Herr|].
    apply At_guard. simpl. change (seriesChunksSet_len zeroSeriesChunksSet) with 0. lia.
Qed.

(** X21. What [At] returned is not to be kept. When [Next] moves past a
    batch that is releasable, the batch is released before the upstream is
    asked for the next one. In the world that the upstream is called in,
    every entry of the batch reads as the zero entry, every chunk of a chunk
    slice that [At] returned for the batch reads as the zero chunk, and the
    series slice of the batch is in the pool, where the next batch can take
    it: what is read through an old result of [At] later on is up to the
    upstream. *)
Theorem At_is_invalidated_by_Next (b : SeriesSet.seriesChunksSeriesSet U) (w : world) :
  seriesReleasable (SeriesSet.currSet b) = true ->
  0 <= SeriesSet.currOffset b < int_max ->
  seriesChunksSet_len (SeriesSet.currSet b) <= SeriesSet.currOffset b + 1 ->
  exists cs w1,
    release (SeriesSet.currSet b) w = Some (cs, w1) /\
    (forall r w2, SeriesSet.it_Next (SeriesSet.from b) w1 = Some (r, w2) ->
       exists b', SeriesSet.Next b w = Some ((fst r, b'), w2)) /\
    (SeriesSet.it_Next (SeriesSet.from b) w1 = None -> SeriesSet.Next b w = None) /\
    seriesEntrySlicePool w1
    = seriesEntrySlicePool w ++ [truncated (series (SeriesSet.currSet b))] /\
    forall (i : Z) (b0 : SeriesSet.seriesChunksSeriesSet U) ls chks0,
      b0 = SeriesSet.mkSeriesChunksSeriesSet (SeriesSet.from b) (SeriesSet.currSet b) i ->
      0 <= i < seriesChunksSet_len (SeriesSet.currSet b) ->
      SeriesSet.At b0 w = Some (ls, chks0) ->
      read_entry w1 (series (SeriesSet.currSet b)) (Z.to_nat i) = zeroSeriesEntry /\
      forall j, (j < s_len chks0)%nat -> read_chunk w1 chks0 j = zeroAggrChunk.
Proof.
  intros Hrel Hoff Hlast.
  destruct (release_run (SeriesSet.currSet b) w) as (w1 & Hrun & _ & _ & _ & Hpost).
  rewrite Hrel in Hrun, Hpost. destruct Hpost as (Hzero & Hpool & _).
  assert (Hleave : (seriesChunksSet_len (SeriesSet.currSet b)
                    <=? SeriesSet.currOffset b + 1) = true) by (apply Z.leb_le; lia).
  eexists. exists w1. split; [exact Hrun|]. split; [|split; [|split; [exact Hpool|]]].
  - intros [ok u] w2 Hup. unfold SeriesSet.Next. rewrite int_add_1 by lia.
    rewrite Hleave.
    rewrite (bind_ret_eq _ _ _ _ _ Hrun). rewrite (bind_ret_eq _ _ _ _ _ Hup).
    simpl. destruct ok; simpl; eauto.
  - intros Hup. unfold SeriesSet.Next. rewrite int_add_1 by lia.
    rewrite Hleave.
    rewrite (bind_ret_eq _ _ _ _ _ Hrun). unfold bind. rewrite Hup. reflexivity.
  - intros i b0 ls chks0 -> Hi Hat.
    rewrite At_entry in Hat by (simpl; lia). simpl in Hat. inversion Hat; subst ls chks0.
    unfold seriesChunksSet_len, len in Hi.
    destruct (Hzero (Z.to_nat i)) as [Hentry Hchunks]; [lia|].
    split; [exact Hentry|exact Hchunks].
Qed.

End AdapterRunFacts.

(** ** The pooled chunk-set: recycling, and releasing twice *)

(** A releasable set is given the pooled slice that the pool's [Get] picks,
    as it is, when the slice is not nil and large enough. *)
Lemma newSeriesChunksSet_picks (c : Z) (w : world) (k : nat) (rest : list (option nat))
    (s : slice) :
  poolChoices w = Some k :: rest ->
  seriesEntrySlicePool w !! k = Some s ->
  s_ptr s <> None -> c <= cap s ->
  newSeriesChunksSet c true w
  = Some (mkSeriesChunksSet s true None None,
          set_seriesEntrySlicePool (delete k (seriesEntrySlicePool w))
            (set_poolChoices rest w)).
Proof.
  intros Hchoice Hk Hptr Hcap.
  unfold newSeriesChunksSet, seriesEntrySlicePool_Get, next_choice, pool_pick, bind.
  rewrite Hchoice. simpl. rewrite Hk.
  destruct (cap s <? c) eqn:E; [apply Z.ltb_lt in E; lia|].
  unfold ret. unfold is_nil_slice.
  destruct (s_ptr s) as [l|]; [reflexivity|congruence].
Qed.

Lemma release_releasable (b : seriesChunksSet) (w : world) :
  seriesReleasable b = true ->
  exists b1 w1,
    release b w = Some (b1, w1) /\
    series b1 = series b /\ seriesReleasable b1 = true /\
    chunksReleaser b1 = chunksReleaser b /\
    trace w1 = trace w ++ release_events w b /\
    poolChoices w1 = poolChoices w /\
    released w b w1.
Proof.
  intros Hrel. destruct (release_run b w) as (w1 & Hrun & Htr & Hch & _ & Hpost).
  rewrite Hrel in Hrun, Hpost.
  eexists. exists w1. split; [exact Hrun|]. simpl. rewrite Hrel. auto 10.
Qed.

(** X6. Recycling. When a releasable set has been released and the next
    [Get] on the pool of series slices picks the slice it put there,
    [newSeriesChunksSet] returns a set over the same array, with length 0,
    without allocating; and every entry that the released set had reads as
    the zero entry: no label set and no chunk slice of the old set is left
    in the recycled array. *)
Theorem released_slice_comes_back_clean (b : seriesChunksSet) (w : world) (c : Z)
    (rest : list (option nat)) :
  seriesReleasable b = true ->
  s_ptr (series b) <> None ->
  c <= cap (series b) ->
  poolChoices w = Some (length (seriesEntrySlicePool w)) :: rest ->
  exists b1 w1 ns w2,
    release b w = Some (b1, w1) /\
    newSeriesChunksSet c true w1 = Some (ns, w2) /\
    series ns = truncated (series b) /\
    seriesChunksPool ns = None /\ chunksReleaser ns = None /\
    entryHeap w2 = entryHeap w1 /\ chunkHeap w2 = chunkHeap w1 /\
    seriesEntrySlicePool w2 = seriesEntrySlicePool w /\
    forall i, (i < s_len (series b))%nat ->
      read_entry w2 (series b) i = zeroSeriesEntry.
Proof.
  intros Hrel Hptr Hcap Hchoice.
  destruct (release_releasable b w Hrel)
    as (b1 & w1 & Hrun & _ & _ & _ & _ & Hch & Hzero & Hpool & _).
  assert (Hk : seriesEntrySlicePool w1 !! length (seriesEntrySlicePool w)
               = Some (truncated (series b))).
  { rewrite Hpool, lookup_app_r by lia. now rewrite Nat.sub_diag. }
  assert (Hch1 : poolChoices w1 = Some (length (seriesEntrySlicePool w)) :: rest)
    by now rewrite Hch.
  pose proof (newSeriesChunksSet_picks c w1 _ rest (truncated (series b))
                Hch1 Hk Hptr Hcap) as Hnew.
  eexists. exists w1. eexists. eexists.
  split; [exact Hrun|]. split; [exact Hnew|]. simpl.
  repeat (split; [reflexivity|]).
  split.
  - rewrite Hpool. rewrite delete_middle. apply app_nil_r.
  - intros i Hi. unfold read_entry. simpl. apply (Hzero i Hi).
Qed.

(** X7. Releasing twice. [release] cannot be called twice: the second call
    invokes the chunks releaser again and puts the series slice in the pool
    a second time, so that the next two releasable sets can be given the
    same array. *)
Theorem release_twice_aliases (b : seriesChunksSet) (w : world) (c1 c2 : Z) :
  seriesReleasable b = true ->
  s_ptr (series b) <> None ->
  c1 <= cap (series b) -> c2 <= cap (series b) ->
  exists b1 w1 b2 w2,
    release b w = Some (b1, w1) /\
    release b1 w1 = Some (b2, w2) /\
    trace w2 = trace w ++ release_events w b ++ release_events w1 b1 /\
    releaser_events b1 = releaser_events b /\
    seriesEntrySlicePool w2
    = seriesEntrySlicePool w ++ [truncated (series b); truncated (series b)] /\
    let n := length (seriesEntrySlicePool w) in
    exists s1 w3 s2 w4,
      newSeriesChunksSet c1 true (set_poolChoices [Some n; Some n] w2) = Some (s1, w3) /\
      newSeriesChunksSet c2 true w3 = Some (s2, w4) /\
      series s1 = truncated (series b) /\ series s2 = truncated (series b).
Proof.
  intros Hrel Hptr Hc1 Hc2.
  destruct (release_releasable b w Hrel)
    as (b1 & w1 & Hrun1 & Hser1 & Hrel1 & Hcr1 & Htr1 & _ & _ & Hpool1 & _).
  destruct (release_releasable b1 w1 Hrel1)
    as (b2 & w2 & Hrun2 & _ & _ & _ & Htr2 & _ & _ & Hpool2 & _).
  exists b1, w1, b2, w2.
  split; [exact Hrun1|]. split; [exact Hrun2|].
  split; [rewrite Htr2, Htr1; now rewrite app_assoc|].
  split; [unfold releaser_events; now rewrite Hcr1|].
  assert (Hpool : seriesEntrySlicePool w2
                  = seriesEntrySlicePool w ++ [truncated (series b); truncated (series b)]).
  { rewrite Hpool2, Hpool1, Hser1, <- app_assoc. reflexivity. }
  split; [exact Hpool|]. intros n.
  set (t := truncated (series b)) in *.
  assert (Hat : forall tl, (seriesEntrySlicePool w ++ t :: tl) !! n = Some t).
  { intros tl. unfold n. rewrite lookup_app_r by lia. now rewrite Nat.sub_diag. }
  pose proof (newSeriesChunksSet_picks c1 (set_poolChoices [Some n; Some n] w2) n [Some n] t
                eq_refl) as Hnew1.
  simpl in Hnew1. rewrite Hpool in Hnew1.
  specialize (Hnew1 (Hat [t]) Hptr Hc1).
  unfold n in Hnew1 at 3. rewrite (delete_middle (seriesEntrySlicePool w) [t] t) in Hnew1.
  pose proof (newSeriesChunksSet_picks c2
                (set_seriesEntrySlicePool (seriesEntrySlicePool w ++ [t])
                   (set_poolChoices [Some n] (set_poolChoices [Some n; Some n] w2)))
                n [] t eq_refl) as Hnew2.
  simpl in Hnew2. specialize (Hnew2 (Hat []) Hptr Hc2).
  eexists. eexists. eexists. eexists.
  split; [exact Hnew1|]. split; [exact Hnew2|]. split; reflexivity.
Qed.

(** ** The loading iterator: the load plan, and what a successful [Next]
    leaves *)

Section LoaderPlanFacts.
Context {U R : Type} `{Loading.seriesChunkRefsSetIterator U}
        `{Loading.bucketChunkReaders R}.

(** X8. The load plan. A [Next] that takes a batch from the upstream resets
    the readers and then calls [addLoad] once for each chunk reference of the
    batch, series after series and chunk after chunk, with the indices of
    the series and of the chunk, which are those of the cell it has prepared
    for the chunk; it stops at the first [addLoad] that fails, and [Next] is
    then false with the error wrapped. [load] is called when none has failed,
    and only then; [Next] is true exactly when [load] has no error. *)
Theorem loader_load_plan (c c1 : Loading.loadingSeriesChunksSetIterator U R) (w w1 : world)
    (b : bool) (u' : U) :
  Loading.err c = None ->
  Loading.refs_Next (Loading.from c) = (true, u') ->
  Loading.Next c w = Some ((b, c1), w1) ->
  let plan := addLoads_series (refs_series (Loading.refs_At u')) 0
                (Loading.readers_reset (Loading.chunkReaders c)) in
  match fst plan with
  | Some e =>
      b = false /\ Loading.chunkReaders c1 = snd plan /\
      Loading.Err c1 = errors_Wrap (Some e) "preloading chunks"
  | None =>
      let loaded := Loading.readers_load (snd plan) in
      Loading.chunkReaders c1 = snd loaded /\
      (b = true <-> snd (fst loaded) = None) /\
      (b = false -> Loading.Err c1 = errors_Wrap (snd (fst loaded)) "loading chunks")
  end.
Proof.
  intros Herr Hup Hrun plan.
  destruct (Next_converting c w b c1 w1 u' Herr Hup Hrun)
    as (ns & wa & ser & e & r & ns2 & wb & _ & _ & Hpop & Hcase).
  pose proof (populate_series_plan _ _ _ _ _ _ _ _ _ Hpop) as Hplan.
  fold plan in Hplan. rewrite Hplan. simpl.
  destruct e as [e|].
  - destruct (deferred_false
                (Loading.mkLoading r u' (Loading.fromBatchSize c) (Loading.current c)
                   (errors_Wrap (Some e) "preloading chunks")) ns2
                (Loading.refs_At u') wb) as (ns3 & wd & _ & _ & _ & Hdef);
      [simpl; discriminate|].
    rewrite Hdef in Hcase. inversion Hcase; subst. auto.
  - destruct Hcase as (wc & _ & Hcase).
    destruct (snd (fst (Loading.readers_load r))) as [e'|] eqn:He'.
    + destruct (deferred_false
                  (Loading.mkLoading (snd (Loading.readers_load r)) u'
                     (Loading.fromBatchSize c) (Loading.current c)
                     (errors_Wrap (Some e') "loading chunks")) ns2
                  (Loading.refs_At u') wc) as (ns3 & wd & _ & _ & _ & Hdef);
        [simpl; discriminate|].
      rewrite Hdef in Hcase. inversion Hcase; subst.
      split; [reflexivity|]. split; [split; discriminate|]. intros _. reflexivity.
    + destruct Hcase as (-> & -> & _).
      split; [reflexivity|]. split; [split; reflexivity|]. discriminate.
Qed.

(** The loop over the series of a batch logs nothing and leaves the pool of
    series slices and the releasers alone. *)
Lemma populate_series_frame (ss : list seriesChunkRefs) :
  forall (ns ns' : seriesChunksSet) (i : nat) (r r' : R) (e : error) (w w' : world),
    Loading.populate_series ns ss i r w = Some ((e, r', ns'), w') ->
    seriesReleasable ns = true ->
    sp_inv (lazy_seriesChunksPool ns) w ->
    entries_valid w (series ns) ->
    trace w' = trace w /\ nextReleaser w' = nextReleaser w /\
    seriesEntrySlicePool w' = seriesEntrySlicePool w.
Proof.
  induction ss as [|s ss IH]; intros ns ns' i r r' e w w' Hrun Hrel Hinv Hvalid.
  - simpl in Hrun. inversion Hrun; subst. auto.
  - simpl in Hrun.
    apply bind_Some in Hrun. destruct Hrun as (e0 & w0 & Hat0 & Hrun).
    apply series_at_inv in Hat0. destruct Hat0 as (Hi & -> & ->).
    apply bind_Some in Hrun. destruct Hrun as ([] & w1 & Hw1 & Hrun).
    unfold write_entry, modify in Hw1. inversion Hw1 as [Hw1']. clear Hw1.
    apply bind_Some in Hrun. destruct Hrun as ([a ns1] & w2 & Hslice & Hrun).
    assert (Hinv1 : sp_inv (lazy_seriesChunksPool ns) w1) by (subst w1; exact Hinv).
    destruct (SlabPool_Get_run (Z.of_nat (length (chunks s))) (lazy_seriesChunksPool ns) w1)
      as (a' & sp' & w2' & Hget & Hlen & _ & Hinv2 & Hsafe_a & _ & _ & He2 & Hep2 & Hnr2 & Htr2);
      [lia|exact Hinv1|].
    unfold newSeriesAggrChunkSlice in Hslice. rewrite Hrel in Hslice. simpl in Hslice.
    unfold bind in Hslice. rewrite Hget in Hslice. unfold ret in Hslice. simpl in Hslice.
    inversion Hslice; subst a' ns1 w2'. clear Hslice.
    apply bind_Some in Hrun. destruct Hrun as (e1 & w2'' & Hat1 & Hrun).
    apply series_at_inv in Hat1. destruct Hat1 as (_ & -> & ->).
    apply bind_Some in Hrun. destruct Hrun as ([] & w3 & Hw3 & Hrun).
    unfold write_entry, modify in Hw3. inversion Hw3 as [Hw3']. clear Hw3.
    apply bind_Some in Hrun. destruct Hrun as ([e2 r2] & w4 & Hpop & Hrun).
    simpl in Hrun, Hw3', Hpop.
    assert (Hvalid1 : entries_valid w1 (series ns)).
    { subst w1. now apply entries_valid_write. }
    assert (Hvalid2 : entries_valid w2 (series ns)).
    { destruct Hvalid1 as (le & arr & Hp & Harr & Hb). exists le, arr.
      rewrite He2. auto. }
    assert (Hvalid3 : entries_valid w3 (series ns)).
    { subst w3. now apply entries_valid_write. }
    assert (Hentry3 : chks (read_entry w3 (series ns) i) = a).
    { subst w3. rewrite read_write_entry by assumption. reflexivity. }
    pose proof (populate_chunks_run (series ns) i (chunks s) 0 r r2 e2 w3 w4 Hpop) as Hchunks.
    cbv zeta in Hchunks. rewrite Hentry3 in Hchunks.
    destruct Hchunks as (He4 & Hpools4 & Htr4 & Hshape4 & _).
    { destruct (region_safe_valid sp' w2 a Hsafe_a) as [Hz|Hv].
      - left. unfold len in Hlen. destruct (chunks s); [reflexivity|simpl in Hlen; lia].
      - right. destruct Hv as (l & arr & Hv). exists l, arr. subst w3. exact Hv. }
    destruct Hpools4 as (Hep4 & Hcp4 & _ & Hnr4).
    assert (Hframe : trace w4 = trace w /\ nextReleaser w4 = nextReleaser w /\
                     seriesEntrySlicePool w4 = seriesEntrySlicePool w).
    { subst w3 w1. simpl in *. split; [congruence|]. split; congruence. }
    destruct e2 as [e2|].
    + inversion Hrun; subst. exact Hframe.
    + destruct Hframe as (Ht & Hn & Hp).
      destruct (IH (with_seriesChunksPool (Some sp') ns) ns' (S i) r2 r' e w4 w' Hrun)
        as (Ht' & Hn' & Hp').
      * exact Hrel.
      * apply (sp_inv_frame sp' w2 w4); [subst w3; exact Hshape4| |exact Hinv2].
        subst w3. exact Hcp4.
      * destruct Hvalid3 as (le & arr & Hp0 & Harr & Hb). exists le, arr.
        rewrite He4. auto.
      * split; [congruence|]. split; congruence.
Qed.

Lemma store_loaded_frame (ser : slice) (ls : list Loading.loadedChunk) :
  forall (w w' : world),
    Loading.store_loaded ser ls w = Some (tt, w') ->
    trace w' = trace w /\ nextReleaser w' = nextReleaser w /\
    seriesEntrySlicePool w' = seriesEntrySlicePool w.
Proof.
  induction ls as [|l ls IH]; intros w w' Hrun; simpl in Hrun.
  - inversion Hrun; subst. auto.
  - apply bind_Some in Hrun. destruct Hrun as (e & w0 & Hat & Hrun).
    assert (Hw0 : w0 = w).
    { destruct (index_entry w ser (Z.of_nat (Loading.l_series l))); [|discriminate].
      now inversion Hat. }
    subst w0.
    destruct (Loading.l_chunk l <? s_len (chks e))%nat; [|discriminate].
    unfold bind, gets, write_chunk, modify in Hrun.
    destruct (IH _ _ Hrun) as (Ht & Hn & Hp). simpl in *. auto.
Qed.

(** The series slice of a new releasable set has the capacity asked for. *)
Lemma new_series_cap (seriesCapacity : Z) (w wa : world) (ns : seriesChunksSet) :
  0 <= seriesCapacity ->
  newSeriesChunksSet seriesCapacity true w = Some (ns, wa) ->
  seriesCapacity <= cap (series ns) /\ trace wa = trace w /\
  nextReleaser wa = nextReleaser w.
Proof.
  intros Hnonneg Hnew.
  destruct (newSeriesChunksSet_run seriesCapacity true w Hnonneg)
    as (b & w' & Hrun & _ & _ & _ & _ & _ & Hnr & Htr & _ & Hcase).
  rewrite Hnew in Hrun. inversion Hrun; subst b w'. clear Hrun.
  split; [|auto].
  assert (Hfresh : fresh_series w seriesCapacity ns wa ->
                   seriesCapacity <= cap (series ns)).
  { intros Hf. destruct (fresh_series_shape _ _ _ _ Hnonneg Hf). lia. }
  simpl in Hcase.
  destruct (coming_seriesEntrySlice w) as [s|]; [|now apply Hfresh].
  destruct (cap s <? seriesCapacity) eqn:Hlt; simpl in Hcase; [now apply Hfresh|].
  apply Z.ltb_ge in Hlt.
  destruct (is_nil_slice s); [now apply Hfresh|].
  destruct Hcase as [-> _]. exact Hlt.
Qed.

(** X9. What a successful [Next] leaves. The only call on a collaborator
    that shows from outside is the release of the batch of references, once:
    neither the set that was current before nor the new one is released.
    The set published is releasable, has a chunks releaser and one entry
    for each series of the batch, and its series slice has room for a whole
    batch of the upstream, [fromBatchSize], even when the batch at hand is
    smaller. *)
Theorem loader_Next_publishes (c c1 : Loading.loadingSeriesChunksSetIterator U R)
    (w w1 : world) :
  wf_world w ->
  Loading.Next c w = Some ((true, c1), w1) ->
  let nextUnloaded := Loading.refs_At (snd (Loading.refs_Next (Loading.from c))) in
  let out := Loading.At c1 in
  trace w1 = trace w ++ [EvRefsSetRelease nextUnloaded] /\
  seriesReleasable out = true /\
  chunksReleaser out <> None /\
  len (series out) = Z.of_nat (length (refs_series nextUnloaded)) /\
  Loading.fromBatchSize c <= cap (series out) /\
  len (series out) <= cap (series out) /\
  Loading.Err c1 = None /\
  Loading.from c1 = snd (Loading.refs_Next (Loading.from c)).
Proof.
  intros Hwf Hrun nextUnloaded out.
  destruct (Loading.err c) as [e0|] eqn:Herr.
  { rewrite Next_latched in Hrun by congruence. inversion Hrun. }
  destruct (Loading.refs_Next (Loading.from c)) as [ok u'] eqn:Hup.
  destruct ok; [|rewrite (Next_exhausted c w u' Herr Hup) in Hrun; inversion Hrun].
  simpl in nextUnloaded.
  destruct (Next_converting c w true c1 w1 u' Herr Hup Hrun)
    as (ns & wa & ser & e & r & ns2 & wb & Hns & Hser & Hpop & Hcase).
  fold nextUnloaded in Hns, Hser, Hpop, Hcase.
  set (n := Z.of_nat (length (refs_series nextUnloaded))) in *.
  assert (Hmax : 0 <= util_math_Max (Loading.fromBatchSize c) n /\
                 Loading.fromBatchSize c <= util_math_Max (Loading.fromBatchSize c) n).
  { unfold util_math_Max. destruct (_ <? _) eqn:E;
      [apply Z.ltb_lt in E|apply Z.ltb_ge in E]; unfold n in *; lia. }
  destruct (new_series_valid _ n w wa ns ser Hwf (proj1 Hmax) Hns Hser)
    as (Hvalid & Hlen & Hrel & Hnopool & Hc & Hp).
  destruct (new_series_cap _ w wa ns (proj1 Hmax) Hns) as (Hcap & Htra & Hnra).
  assert (Hscap : s_cap ser = s_cap (series ns)).
  { unfold reslice in Hser. destruct (_ && _); [|discriminate]. now inversion Hser. }
  assert (Hinv : sp_inv (lazy_seriesChunksPool (with_series ser ns)) wa).
  { unfold lazy_seriesChunksPool. simpl. rewrite Hnopool.
    now apply (wf_world_new_slab_pool w). }
  destruct (populate_series_frame _ _ _ _ _ _ _ _ _ Hpop Hrel Hinv Hvalid)
    as (Htrb & _ & _).
  destruct (populate_series_set _ _ _ _ _ _ _ _ _ Hpop) as (Hser2 & Hrel2 & _).
  simpl in Hser2, Hrel2.
  destruct e as [e|].
  { exfalso.
    destruct (deferred_false
                (Loading.mkLoading r u' (Loading.fromBatchSize c) (Loading.current c)
                   (errors_Wrap (Some e) "preloading chunks")) ns2 nextUnloaded wb)
      as (ns' & w' & _ & _ & _ & Hdef); [simpl; discriminate|].
    rewrite Hdef in Hcase. inversion Hcase. }
  destruct Hcase as (wc & Hstore & Hcase).
  destruct (snd (fst (Loading.readers_load r))) as [e'|].
  { exfalso.
    destruct (deferred_false
                (Loading.mkLoading (snd (Loading.readers_load r)) u'
                   (Loading.fromBatchSize c) (Loading.current c)
                   (errors_Wrap (Some e') "loading chunks")) ns2 nextUnloaded wc)
      as (ns' & w' & _ & _ & _ & Hdef); [simpl; discriminate|].
    rewrite Hdef in Hcase. inversion Hcase. }
  destruct Hcase as (_ & -> & ->).
  destruct (store_loaded_frame _ _ _ _ Hstore) as (Htrc & _ & _).
  unfold out, Loading.At, Loading.Err. simpl. rewrite Hser2, Hrel2.
  split; [rewrite Htrc; simpl; rewrite Htrb, Htra; reflexivity|].
  split; [exact Hrel|]. split; [discriminate|].
  split; [exact Hlen|].
  assert (Hcaps : cap ser = cap (series ns)) by (unfold cap; now rewrite Hscap).
  split; [rewrite Hcaps; lia|].
  split; [|auto].
  rewrite Hcaps, Hlen. unfold n.
  assert (Hn : Z.of_nat (length (refs_series nextUnloaded))
               <= util_math_Max (Loading.fromBatchSize c)
                    (Z.of_nat (length (refs_series nextUnloaded)))).
  { unfold util_math_Max. destruct (_ <? _) eqn:E; [apply Z.ltb_lt in E|]; lia. }
  unfold n in Hcap. lia.
Qed.

End LoaderPlanFacts.

(** ** The memcached cache adapter: [Store], and the counters over many
    calls of [Fetch] *)

Section StoreFacts.
Context {C : Type} `{CacheStore.RemoteCacheSetter C}.

Lemma set_results_length (order : list (string * bytes)) (ttl : Z) :
  forall cl : C, length (CacheStore.set_results order ttl cl) = length order.
Proof.
  induction order as [|[k v] rest IH]; intros cl; simpl; [reflexivity|].
  destruct (CacheStore.SetAsync cl k v ttl) as [err cl']. simpl. now rewrite IH.
Qed.

Lemma failures_le (results : list error) :
  (length (omap id results) <= length results)%nat.
Proof.
  induction results as [|[e|] rs IH]; [reflexivity| |].
  - change (S (length (omap id rs)) <= S (length rs))%nat. lia.
  - change (length (omap id rs) <= S (length rs))%nat. lia.
Qed.

(** The loop, from any value of its two variables. *)
Lemma store_loop_spec (order : list (string * bytes)) (ttl : Z) :
  forall (cl : C) (fe : error) (fl : Z),
    let results := CacheStore.set_results order ttl cl in
    0 <= fl -> fl + Z.of_nat (length order) <= int_max ->
    snd (fst (CacheStore.store_loop order ttl cl fe fl))
    = match fe with
      | Some _ => fe
      | None => head (omap id results)
      end /\
    snd (CacheStore.store_loop order ttl cl fe fl)
    = fl + Z.of_nat (length (omap id results)).
Proof.
  induction order as [|[k v] rest IH]; intros cl fe fl results Hpos Hmax.
  - simpl. split; [now destruct fe|lia].
  - subst results.
    change (length ((k, v) :: rest)) with (S (length rest)) in Hmax.
    rewrite Nat2Z.inj_succ in Hmax. simpl.
    destruct (CacheStore.SetAsync cl k v ttl) as [[e|] cl'].
    + assert (Hadd : int_add fl 1 = fl + 1).
      { unfold int_add, int_wrap, int_max in *. rewrite Z.mod_small; lia. }
      rewrite Hadd.
      destruct (IH cl' (match fe with None => Some e | Some _ => fe end) (fl + 1))
        as [Hfe Hfl]; [lia|lia|].
      rewrite Hfe, Hfl. cbn -[Z.of_nat]. split; [now destruct fe|lia].
    + destruct (IH cl' fe fl) as [Hfe Hfl]; [lia|lia|].
      rewrite Hfe, Hfl. simpl. split; reflexivity.
Qed.

(** Whether [SetAsync] fails on an entry does not hang on the state of the
    client. *)
Lemma failures_count (rejects : string * bytes -> bool) (order : list (string * bytes))
    (ttl : Z) :
  (forall (cl : C) (k : string) (v : bytes),
     fst (CacheStore.SetAsync cl k v ttl) <> None <-> rejects (k, v) = true) ->
  forall cl : C,
    length (omap id (CacheStore.set_results order ttl cl))
    = length (filter (fun kv => rejects kv = true) order).
Proof.
  intros Hrej. induction order as [|[k v] rest IH]; intros cl; simpl; [reflexivity|].
  pose proof (Hrej cl k v) as Hkv.
  destruct (CacheStore.SetAsync cl k v ttl) as [[e|] cl']; simpl in *.
  - rewrite filter_cons_True by (apply Hkv; discriminate). simpl. now rewrite IH.
  - rewrite filter_cons_False; [apply IH|].
    intros Ht. apply Hkv in Ht. now apply Ht.
Qed.

(** X10. [Store] calls [SetAsync] once for each entry of the map and has no
    way to fail: it leaves the counters alone and logs at most one line. It
    logs the warning exactly when a [SetAsync] has failed; the line has the
    number of calls that failed and the error of the first that did. Which
    error is the first hangs on the order in which the range visits the map;
    when a failure is a matter of the entry alone, the number does not. *)
Theorem Store_reports (c : Cache.MemcachedCache C) (data : gmap string bytes)
    (order : list (string * bytes)) (ttl : Z) :
  order ≡ₚ map_to_list data ->
  Z.of_nat (size data) <= int_max ->
  let out := CacheStore.Store c order ttl in
  let results := CacheStore.set_results order ttl (Cache.memcached c) in
  length results = size data /\
  Cache.requests (fst out) = Cache.requests c /\
  Cache.hits (fst out) = Cache.hits c /\
  Cache.name (fst out) = Cache.name c /\
  match snd out with
  | None => Forall (fun e => e = None) results
  | Some wn =>
      head (omap id results) = Some (CacheStore.firstErr wn) /\
      CacheStore.failed wn = Z.of_nat (length (omap id results)) /\
      1 <= CacheStore.failed wn <= Z.of_nat (size data)
  end /\
  forall rejects : string * bytes -> bool,
    (forall (cl : C) (k : string) (v : bytes),
       fst (CacheStore.SetAsync cl k v ttl) <> None <-> rejects (k, v) = true) ->
    length (omap id results)
    = length (filter (fun kv => rejects kv = true) (map_to_list data)).
Proof.
  intros Hperm Hsize out results.
  assert (Hlen : length order = size data).
  { rewrite Hperm. apply length_map_to_list. }
  assert (Hres : length results = size data).
  { unfold results. now rewrite set_results_length. }
  split; [exact Hres|].
  destruct (store_loop_spec order ttl (Cache.memcached c) None 0) as [Hfe Hfl];
    [lia|lia|].
  fold results in Hfe, Hfl.
  unfold out, CacheStore.Store.
  destruct (CacheStore.store_loop order ttl (Cache.memcached c) None 0) as [[cl fe] fl].
  simpl in Hfe, Hfl. subst fe fl. simpl.
  split; [reflexivity|]. split; [reflexivity|]. split; [reflexivity|].
  split.
  - destruct (omap id results) as [|e es] eqn:Hfail; simpl.
    + clear - Hfail. induction results as [|[e|] rs IH]; [constructor|discriminate|].
      constructor; [reflexivity|]. apply IH. exact Hfail.
    + split; [reflexivity|]. split; [reflexivity|].
      pose proof (failures_le results) as Hle.
      rewrite Hfail in Hle. simpl in Hle. lia.
  - intros rejects Hrej. unfold results.
    rewrite (failures_count rejects order ttl Hrej).
    apply Permutation_length. now rewrite Hperm.
Qed.

End StoreFacts.

Section FetchAllFacts.
Context {C : Type} `{Cache.RemoteCacheClient C}.

(** A map whose keys are among [keys] has no more entries than [keys]. *)
Lemma size_le_keys (m : gmap string bytes) (keys : list string) :
  (forall k, is_Some (m !! k) -> k ∈ keys) -> (size m <= length keys)%nat.
Proof.
  intros Hin. rewrite <- length_map_to_list.
  rewrite <- (length_fmap fst (map_to_list m)).
  apply submseteq_length, NoDup_submseteq; [apply NoDup_fst_map_to_list|].
  intros k Hk. apply list_elem_of_fmap in Hk. destruct Hk as ([k' v] & -> & Hkv).
  apply elem_of_map_to_list in Hkv. apply Hin. simpl. eauto.
Qed.

(** X11. The counters after any number of calls of [Fetch], whatever the
    client: [requests] has grown by the number of keys asked for, and [hits]
    by the number of entries returned. With a client that returns entries
    for keys it was asked only, [hits] has not grown by more than
    [requests]: a cache whose [hits] was within [requests] keeps it so. *)
Theorem Fetch_all_accounts (c : Cache.MemcachedCache C) (batches : list (list string)) :
  let out := CacheStore.Fetch_all c batches in
  length (fst out) = length batches /\
  Cache.requests (snd out) = Cache.requests c + Z.of_nat (length (concat batches)) /\
  Cache.hits (snd out) = Cache.hits c + Z.of_nat (sum_list (size <$> fst out)) /\
  ((forall (cl : C) (keys : list string) (k : string),
      is_Some (fst (Cache.GetMulti cl keys) !! k) -> k ∈ keys) ->
   Cache.hits (snd out) - Cache.hits c <= Cache.requests (snd out) - Cache.requests c).
Proof.
  revert c.
  induction batches as [|keys rest IH]; intros c out.
  - subst out. simpl. repeat split; lia.
  - subst out. simpl.
    destruct (Fetch_counters c keys) as (Hres & Hreq & Hhits & _).
    destruct (Cache.Fetch c keys) as [result c1]. simpl in *.
    specialize (IH c1). cbv zeta in IH.
    destruct (CacheStore.Fetch_all c1 rest) as [results c2]. simpl in *.
    destruct IH as (Hl & Hr & Hh & Hle).
    unfold fmap in *.
    split; [now rewrite Hl|].
    split; [rewrite Hr, Hreq, length_app; lia|].
    split; [rewrite Hh, Hhits; lia|].
    intros Hasked. specialize (Hle Hasked).
    assert (Hsize : (size result <= length keys)%nat).
    { apply size_le_keys. intros k Hk. rewrite Hres in Hk. now apply Hasked in Hk. }
    lia.
Qed.

End FetchAllFacts.

(** ** The duration measuring iterator *)

Section MeasuringFacts.
Context {U T : Type} `{Preloading.genericIterator U T}.

Lemma measuring_Next (m : Measuring.durationMeasuringIterator U) :
  fst (Measuring.Next m) = fst (Preloading.gi_Next (Measuring.from m)) /\
  Measuring.from (snd (Measuring.Next m)) = snd (Preloading.gi_Next (Measuring.from m)) /\
  Measuring.clock (snd (Measuring.Next m)) = Measuring.clock m /\
  Measuring.readings (snd (Measuring.Next m)) = S (S (Measuring.readings m)) /\
  Measuring.durationObserver (snd (Measuring.Next m))
  = Measuring.durationObserver m
    ++ [Measuring.clock m (S (Measuring.readings m))
        - Measuring.clock m (Measuring.readings m)].
Proof.
  unfold Measuring.Next.
  destruct (Preloading.gi_Next (Measuring.from m)) as [next from']. simpl. auto.
Qed.

(** The values and the number of durations observed after [k] calls. *)
Lemma measuring_is_transparent_values (k : nat) :
  forall m : Measuring.durationMeasuringIterator U,
    upstream_values m k = upstream_values (Measuring.from m) k /\
    length (Measuring.durationObserver (upstream_after m k))
    = (length (Measuring.durationObserver m) + k)%nat.
Proof.
  induction k as [|k IH]; intros m.
  - simpl. split; [reflexivity|lia].
  - destruct (measuring_Next m) as (Hok & Hfrom & _ & _ & Hobs).
    destruct (IH (snd (Measuring.Next m))) as [Hvals Hlen].
    change (upstream_after m (S k)) with (upstream_after (snd (Measuring.Next m)) k).
    split.
    + rewrite (upstream_values_unfold m k), (upstream_values_unfold (Measuring.from m) k).
      change (Preloading.gi_Next m) with (Measuring.Next m).
      rewrite Hok, Hvals.
      change (Preloading.gi_At (snd (Measuring.Next m)))
        with (Preloading.gi_At (Measuring.from (snd (Measuring.Next m)))).
      rewrite Hfrom. reflexivity.
    + rewrite Hlen, Hobs, length_app. simpl. lia.
Qed.

(** X12. Measuring is transparent. Wrapped in a duration measuring
    iterator, an iterator answers [Next], [At] and [Err] as it does bare,
    call after call; each [Next], true or false, gives the observer one
    duration, [At] and [Err] give it none; and with a clock that does not go
    back no duration observed is negative. *)
Theorem measuring_is_transparent (k : nat) :
  forall m : Measuring.durationMeasuringIterator U,
    let m' := upstream_after m k in
    upstream_values m k = upstream_values (Measuring.from m) k /\
    Measuring.from m' = upstream_after (Measuring.from m) k /\
    fst (Preloading.gi_Next m') = fst (Preloading.gi_Next (Measuring.from m')) /\
    Preloading.gi_At m' = Preloading.gi_At (Measuring.from m') /\
    Preloading.gi_Err m' = Preloading.gi_Err (Measuring.from m') /\
    (exists observed,
       Measuring.durationObserver m' = Measuring.durationObserver m ++ observed /\
       length observed = k /\
       (Measuring.monotonic (Measuring.clock m) -> Forall (fun d => 0 <= d) observed)).
Proof.
  induction k as [|k IH]; intros m m'.
  - subst m'. simpl. split; [reflexivity|]. split; [reflexivity|].
    split; [apply measuring_Next|]. split; [reflexivity|]. split; [reflexivity|].
    exists []. rewrite app_nil_r. split; [reflexivity|]. split; [reflexivity|].
    intros _. constructor.
  - destruct (measuring_Next m) as (Hok & Hfrom & Hclock & Hreads & Hobs).
    specialize (IH (snd (Measuring.Next m))). cbv zeta in IH.
    destruct IH as (Hvals & Hafter & Hnext & Hat & Herr & observed & Hobserved & Hlen & Hmono).
    subst m'. change (upstream_after m (S k)) with (upstream_after (snd (Measuring.Next m)) k).
    split.
    + rewrite (upstream_values_unfold m k), (upstream_values_unfold (Measuring.from m) k).
      change (Preloading.gi_Next m) with (Measuring.Next m).
      rewrite Hok, Hvals.
      change (Preloading.gi_At (snd (Measuring.Next m)))
        with (Preloading.gi_At (Measuring.from (snd (Measuring.Next m)))).
      rewrite Hfrom. reflexivity.
    + split; [rewrite Hafter, Hfrom; reflexivity|].
      split; [exact Hnext|]. split; [exact Hat|]. split; [exact Herr|].
      eexists. split; [rewrite Hobserved, Hobs, <- app_assoc; reflexivity|].
      split; [simpl; now rewrite Hlen|].
      intros Hm. constructor.
      * specialize (Hm (Measuring.readings m)). lia.
      * apply Hmono. now rewrite Hclock.
Qed.

End MeasuringFacts.

Section PreloadingOverMeasuring.
Context {U T : Type} `{Preloading.genericIterator U T} (zeroT : T).

(** The calls of [Next] that the producer has made on its upstream: as many
    as the values that went into the channel, or one more. *)
Lemma order_inv_calls {V : Type} `{Preloading.genericIterator V T} (from0 : V)
    (p : Preloading.preloadingSetIterator V T) :
  order_inv zeroT from0 p ->
  exists k received,
    Preloading.sent p = received ++ Preloading.ch_buf (Preloading.preloaded p) /\
    length (upstream_values from0 k) = k /\
    (Preloading.sent p = value_payload <$> upstream_values from0 k \/
     Preloading.sent p
     = (value_payload <$> upstream_values from0 k) ++ [error_payload zeroT (Preloading.from p)]) /\
    Preloading.current p = last_set zeroT received /\
    (Preloading.from p = upstream_after from0 k \/
     Preloading.from p = upstream_after from0 (S k)).
Proof.
  intros (k & received & Hsent & Hlen & Hcur & _ & Hg).
  exists k, received. split; [exact Hsent|]. split; [exact Hlen|].
  rewrite upstream_after_S.
  destruct (Preloading.goroutine p) as [|v|v| |].
  - destruct Hg as [Hs Hfrom]. auto.
  - destruct Hg as (Hs & Hnext & _). rewrite Hnext. auto.
  - destruct Hg as (Hs & Hnext & _). rewrite Hnext. auto.
  - destruct Hg as (Hfrom & [Hs|(Hs & _)]); auto.
  - destruct Hg as (Hfrom & [Hs|(Hs & _)]); auto.
Qed.

(** X13. Preloading over a measured upstream, the way the pipeline is put
    together: what goes through the channel is the values of the bare
    upstream, in order, each once, and at most the error payload after
    them; and the observer has been given one duration for each call of
    [Next] that the producer has made on the upstream, which is one for each
    value that went into the channel, or one more. *)
Theorem preloading_over_measuring (done : bool) (n : Z)
    (m0 : Measuring.durationMeasuringIterator U)
    (p0 p : Preloading.preloadingSetIterator (Measuring.durationMeasuringIterator U) T) :
  Preloading.newPreloadingSetIterator zeroT done n m0 = Some p0 ->
  Preloading.steps zeroT p0 p ->
  exists k received,
    Preloading.sent p = received ++ Preloading.ch_buf (Preloading.preloaded p) /\
    length (upstream_values (Measuring.from m0) k) = k /\
    (Preloading.sent p = value_payload <$> upstream_values (Measuring.from m0) k \/
     Preloading.sent p
     = (value_payload <$> upstream_values (Measuring.from m0) k)
       ++ [Preloading.mkPreloaded zeroT
             (Preloading.gi_Err (Measuring.from (Preloading.from p)))]) /\
    Preloading.At p = last_set zeroT received /\
    (length (Measuring.durationObserver (Preloading.from p))
     = (length (Measuring.durationObserver m0) + k)%nat \/
     length (Measuring.durationObserver (Preloading.from p))
     = (length (Measuring.durationObserver m0) + S k)%nat).
Proof.
  intros Hnew Hsteps.
  pose proof (reached_order zeroT done n m0 p0 p Hnew Hsteps) as Hinv.
  destruct (order_inv_calls m0 p Hinv) as (k & received & Hsent & Hlen & Hs & Hcur & Hfrom).
  destruct (measuring_is_transparent_values k m0) as [Hvals Hobs].
  destruct (measuring_is_transparent_values (S k) m0) as [_ HobsS].
  exists k, received. rewrite <- Hvals.
  split; [exact Hsent|]. split; [exact Hlen|]. split; [exact Hs|]. split; [exact Hcur|].
  destruct Hfrom as [-> | ->]; [left; exact Hobs|right; exact HobsS].
Qed.

End PreloadingOverMeasuring.

(** ** The pool of series slices holds slices of length zero *)

(** A step that returns what it was given. *)
Ltac returned H :=
  unfold ret, modify in H; cbv beta in H; inversion H; subst; simpl;
  first [assumption | reflexivity | congruence].

Lemma SlabPool_newSlab_entry_pool (sp : SlabPool) (w w' : world) (s : slice) :
  SlabPool_newSlab sp w = Some (s, w') ->
  seriesEntrySlicePool w' = seriesEntrySlicePool w.
Proof.
  unfold SlabPool_newSlab. intros Hrun.
  apply bind_Some in Hrun. destruct Hrun as (fromDelegate & w0 & Hget & Hrun).
  assert (Hw0 : seriesEntrySlicePool w0 = seriesEntrySlicePool w).
  { unfold seriesChunksSlicePool_Get in Hget.
    destruct (next_choice_frame w) as (_ & _ & Hep & _).
    destruct (next_choice w) as [ch wn]. simpl in Hep.
    destruct (pool_pick (seriesChunksSlicePool wn) ch) as [r p].
    inversion Hget; subst. simpl. exact Hep. }
  destruct fromDelegate as [s0|].
  - unfold of_option in Hrun. destruct (reslice s0 0); [|discriminate].
    inversion Hrun; subst. exact Hw0.
  - unfold make_AggrChunk in Hrun.
    destruct ((0 <=? 0) && (0 <=? slabSize sp)); [|discriminate].
    unfold heap_make in Hrun. inversion Hrun; subst. simpl. exact Hw0.
Qed.

Lemma SlabPool_Get_entry_pool (size : Z) (sp sp' : SlabPool) (w w' : world) (r : slice) :
  SlabPool_Get size sp w = Some ((r, sp'), w') ->
  seriesEntrySlicePool w' = seriesEntrySlicePool w.
Proof.
  unfold SlabPool_Get. intros Hrun.
  destruct (size <=? 0); [returned Hrun|].
  destruct (slabSize sp <? size).
  { apply bind_Some in Hrun. destruct Hrun as (s & w0 & Hmk & Hrun).
    unfold make_AggrChunk in Hmk.
    destruct ((0 <=? size) && (size <=? size)); [|discriminate].
    unfold heap_make in Hmk. inversion Hmk; subst. returned Hrun. }
  apply bind_Some in Hrun. destruct Hrun as ([slab before] & w0 & Hcur & Hrun).
  assert (Hw0 : seriesEntrySlicePool w0 = seriesEntrySlicePool w).
  { destruct (last (slabs sp)) as [slab0|].
    - destruct (size <=? slab_room slab0); [returned Hcur|].
      apply bind_Some in Hcur. destruct Hcur as (s & w1 & Hnew & Hcur).
      inversion Hcur; subst. eapply SlabPool_newSlab_entry_pool. exact Hnew.
    - apply bind_Some in Hcur. destruct Hcur as (s & w1 & Hnew & Hcur).
      inversion Hcur; subst. eapply SlabPool_newSlab_entry_pool. exact Hnew. }
  simpl in Hrun. destruct (size <=? slab_room slab); [|discriminate].
  inversion Hrun; subst. exact Hw0.
Qed.

Lemma newSeriesAggrChunkSlice_entry_pool (size : Z) (b b' : seriesChunksSet)
    (w w' : world) (s : slice) :
  newSeriesAggrChunkSlice size b w = Some ((s, b'), w') ->
  seriesEntrySlicePool w' = seriesEntrySlicePool w.
Proof.
  unfold newSeriesAggrChunkSlice. intros Hrun.
  destruct (seriesReleasable b); simpl in Hrun.
  - apply bind_Some in Hrun. destruct Hrun as ([r sp'] & w0 & Hget & Hrun).
    inversion Hrun; subst. eapply SlabPool_Get_entry_pool. exact Hget.
  - apply bind_Some in Hrun. destruct Hrun as (r & w0 & Hmk & Hrun).
    unfold make_AggrChunk in Hmk.
    destruct ((0 <=? size) && (size <=? size)); [|discriminate].
    unfold heap_make in Hmk. inversion Hmk; subst. returned Hrun.
Qed.

Lemma newSeriesChunksSet_lengths_zero (c : Z) (releasable : bool) (w w' : world)
    (ns : seriesChunksSet) :
  pooled_lengths_zero w ->
  newSeriesChunksSet c releasable w = Some (ns, w') ->
  pooled_lengths_zero w'.
Proof.
  unfold newSeriesChunksSet. intros Hzero Hrun. unfold ret in Hrun.
  apply bind_Some in Hrun. destruct Hrun as (prealloc & w0 & Hpre & Hrun).
  assert (Hw0 : pooled_lengths_zero w0).
  { destruct releasable; [|cbv beta in Hpre; inversion Hpre; subst; exact Hzero].
    apply bind_Some in Hpre. destruct Hpre as (reused & wg & Hget & Hpre).
    assert (Hwg : pooled_lengths_zero wg).
    { destruct (seriesEntrySlicePool_Get_run w) as (wg' & Hget' & Hpool & _).
      rewrite Hget in Hget'. inversion Hget'; subst wg'.
      unfold pooled_lengths_zero in *. rewrite Hpool.
      destruct (pool_pick_spec (seriesEntrySlicePool w) (fst (next_choice w)))
        as [[_ Hsame]|(s & _ & Hperm)]; [now rewrite Hsame|].
      rewrite Hperm in Hzero. returned Hzero. }
    destruct reused as [s|]; [destruct (cap s <? c)|]; cbv beta in Hpre;
      inversion Hpre; subst; exact Hwg. }
  apply bind_Some in Hrun. destruct Hrun as (prealloc' & w1 & Hmk & Hrun).
  inversion Hrun; subst. clear Hrun.
  destruct (is_nil_slice prealloc); [|cbv beta in Hmk; inversion Hmk; subst; exact Hw0].
  unfold make_seriesEntry in Hmk.
  destruct ((0 <=? 0) && (0 <=? c)); [|discriminate].
  unfold heap_make in Hmk. inversion Hmk; subst. exact Hw0.
Qed.

Section PoolInvariant.
Context {U R : Type} `{Loading.seriesChunkRefsSetIterator U}
        `{Loading.bucketChunkReaders R}.
Context {V : Type} `{SeriesSet.seriesChunksSetIterator V}.

Lemma populate_chunks_entry_pool (ser : slice) (i : nat) (cs : list seriesChunkRef) :
  forall (j : nat) (r r' : R) (e : error) (w w' : world),
    Loading.populate_chunks ser i cs j r w = Some ((e, r'), w') ->
    seriesEntrySlicePool w' = seriesEntrySlicePool w.
Proof.
  induction cs as [|chunk cs IH]; intros j r r' e w w' Hrun; simpl in Hrun.
  - returned Hrun.
  - apply bind_Some in Hrun. destruct Hrun as ([] & w1 & Hmin & Hrun).
    apply bind_Some in Hrun. destruct Hrun as ([] & w2 & Hmax & Hrun).
    apply set_chunk_field_inv in Hmin. destruct Hmin as (_ & _ & ->).
    apply set_chunk_field_inv in Hmax. destruct Hmax as (_ & _ & ->).
    destruct (Loading.readers_addLoad (blockID chunk) (ref chunk) i j r) as [[e1|] r1].
    + returned Hrun.
    + now rewrite (IH _ _ _ _ _ _ Hrun).
Qed.

Lemma populate_series_entry_pool (ss : list seriesChunkRefs) :
  forall (ns ns' : seriesChunksSet) (i : nat) (r r' : R) (e : error) (w w' : world),
    Loading.populate_series ns ss i r w = Some ((e, r', ns'), w') ->
    seriesEntrySlicePool w' = seriesEntrySlicePool w.
Proof.
  induction ss as [|s ss IH]; intros ns ns' i r r' e w w' Hrun; simpl in Hrun.
  - returned Hrun.
  - apply bind_Some in Hrun. destruct Hrun as (e0 & w0 & Hat0 & Hrun).
    apply series_at_inv in Hat0. destruct Hat0 as (_ & _ & ->).
    apply bind_Some in Hrun. destruct Hrun as ([] & w1 & Hw1 & Hrun).
    unfold write_entry, modify in Hw1. inversion Hw1 as [Hw1']. clear Hw1.
    apply bind_Some in Hrun. destruct Hrun as ([a ns1] & w2 & Hslice & Hrun).
    apply newSeriesAggrChunkSlice_entry_pool in Hslice.
    apply bind_Some in Hrun. destruct Hrun as (e1 & w2' & Hat1 & Hrun).
    apply series_at_inv in Hat1. destruct Hat1 as (_ & _ & ->).
    apply bind_Some in Hrun. destruct Hrun as ([] & w3 & Hw3 & Hrun).
    unfold write_entry, modify in Hw3. inversion Hw3 as [Hw3']. clear Hw3.
    apply bind_Some in Hrun. destruct Hrun as ([e2 r2] & w4 & Hpop & Hrun).
    apply populate_chunks_entry_pool in Hpop.
    assert (Hw4 : seriesEntrySlicePool w4 = seriesEntrySlicePool w).
    { rewrite Hpop. subst w3. simpl. rewrite Hslice. subst w1. reflexivity. }
    simpl in Hrun. destruct e2 as [e2|].
    + inversion Hrun; subst. exact Hw4.
    + rewrite (IH _ _ _ _ _ _ _ _ Hrun). exact Hw4.
Qed.

Lemma deferred_lengths_zero (b : bool) (c c' : Loading.loadingSeriesChunksSetIterator U R)
    (ns : seriesChunksSet) (u : seriesChunkRefsSet) (w w' : world) (b' : bool) :
  pooled_lengths_zero w ->
  Loading.deferred b c ns u w = Some ((b', c'), w') ->
  pooled_lengths_zero w'.
Proof.
  unfold Loading.deferred. intros Hzero Hrun.
  apply bind_Some in Hrun. destruct Hrun as ([] & w0 & Hrel & Hrun).
  assert (Hw0 : pooled_lengths_zero w0).
  { destruct (negb b && negb (is_nil_error (Loading.err c))); [|returned Hrel].
    apply bind_Some in Hrel. destruct Hrel as (b0 & wr & Hrelease & Hrel).
    inversion Hrel; subst. eapply release_keeps_pooled_lengths_zero; eassumption. }
  inversion Hrun; subst. exact Hw0.
Qed.

Lemma loader_Next_lengths_zero (c c1 : Loading.loadingSeriesChunksSetIterator U R)
    (w w1 : world) (b : bool) :
  pooled_lengths_zero w ->
  Loading.Next c w = Some ((b, c1), w1) ->
  pooled_lengths_zero w1.
Proof.
  intros Hzero Hrun.
  destruct (Loading.err c) as [e0|] eqn:Herr.
  { rewrite Next_latched in Hrun by congruence. returned Hrun. }
  destruct (Loading.refs_Next (Loading.from c)) as [ok u'] eqn:Hup.
  destruct ok; [|rewrite (Next_exhausted c w u' Herr Hup) in Hrun; returned Hrun].
  destruct (Next_converting c w b c1 w1 u' Herr Hup Hrun)
    as (ns & wa & ser & e & r & ns2 & wb & Hns & _ & Hpop & Hcase).
  pose proof (newSeriesChunksSet_lengths_zero _ _ _ _ _ Hzero Hns) as Hwa.
  assert (Hwb : pooled_lengths_zero wb).
  { unfold pooled_lengths_zero. now rewrite (populate_series_entry_pool _ _ _ _ _ _ _ _ _ Hpop). }
  destruct e as [e|]; [eapply deferred_lengths_zero; eassumption|].
  destruct Hcase as (wc & Hstore & Hcase).
  assert (Hwc : pooled_lengths_zero wc).
  { destruct (store_loaded_frame _ _ _ _ Hstore) as (_ & _ & Hp).
    unfold pooled_lengths_zero. rewrite Hp. exact Hwb. }
  destruct (snd (fst (Loading.readers_load r))) as [e'|];
    [eapply deferred_lengths_zero; eassumption|].
  destruct Hcase as (_ & _ & ->). exact Hwc.
Qed.

(** X14. An invariant of the pool of series slices: it holds slices of
    length zero. [newSeriesChunksSet], [release], the [Next] of the loading
    iterator, whatever its outcome, and the [Next] of the series adapter,
    over an upstream that keeps it so, all keep it so. This is what makes a
    recycled slice come back with length 0. *)
Theorem pooled_slices_stay_empty (w : world) :
  pooled_lengths_zero w ->
  (forall c releasable ns w',
     newSeriesChunksSet c releasable w = Some (ns, w') -> pooled_lengths_zero w') /\
  (forall b b' w', release b w = Some (b', w') -> pooled_lengths_zero w') /\
  (forall (c c1 : Loading.loadingSeriesChunksSetIterator U R) ok w1,
     Loading.Next c w = Some ((ok, c1), w1) -> pooled_lengths_zero w1) /\
  ((forall (u : V) w0 r w0',
      pooled_lengths_zero w0 -> SeriesSet.it_Next u w0 = Some (r, w0') ->
      pooled_lengths_zero w0') ->
   forall (a a1 : SeriesSet.seriesChunksSeriesSet V) ok w1,
     SeriesSet.Next a w = Some ((ok, a1), w1) -> pooled_lengths_zero w1).
Proof.
  intros Hzero.
  split; [intros c releasable ns w'; now apply newSeriesChunksSet_lengths_zero|].
  split; [intros b b' w'; now apply release_keeps_pooled_lengths_zero|].
  split; [intros c c1 ok w1; now apply loader_Next_lengths_zero|].
  intros Hup a a1 ok w1 Hrun. unfold SeriesSet.Next in Hrun.
  destruct (seriesChunksSet_len (SeriesSet.currSet a) <=? int_add (SeriesSet.currOffset a) 1);
    [|returned Hrun].
  apply bind_Some in Hrun. destruct Hrun as (cs & wr & Hrel & Hrun).
  apply bind_Some in Hrun. destruct Hrun as ([ok' u] & wu & Hnext & Hrun).
  pose proof (release_keeps_pooled_lengths_zero _ _ _ _ Hzero Hrel) as Hwr.
  pose proof (Hup _ _ _ _ Hwr Hnext) as Hwu.
  simpl in Hrun. destruct ok'; simpl in Hrun; inversion Hrun; subst; exact Hwu.
Qed.

End PoolInvariant.

(** ** The series adapter over the loading iterator *)

Section WalkFacts.
Context {U : Type} `{SeriesSet.seriesChunksSetIterator U}.

(** [k] calls of [Next] inside a batch. *)
Lemma Next_times_walk (k : nat) :
  forall (b : SeriesSet.seriesChunksSeriesSet U) (w : world),
    0 <= SeriesSet.currOffset b ->
    SeriesSet.currOffset b + Z.of_nat k < seriesChunksSet_len (SeriesSet.currSet b) ->
    seriesChunksSet_len (SeriesSet.currSet b) <= int_max ->
    let b' := SeriesSet.mkSeriesChunksSeriesSet (SeriesSet.from b) (SeriesSet.currSet b)
                (SeriesSet.currOffset b + Z.of_nat k) in
    let e := read_entry w (series (SeriesSet.currSet b))
               (Z.to_nat (SeriesSet.currOffset b + Z.of_nat k)) in
    Next_times k b w = Some ((true, b'), w) /\
    SeriesSet.At b' w = Some (lset e, chks e).
Proof.
  induction k as [|k IH]; intros b w Hpos Hin Hmax b' e.
  - split; [|subst b' e; apply At_entry; simpl; lia].
    simpl. unfold ret, b'. change (Z.of_nat 0) with 0. rewrite Z.add_0_r. now destruct b.
  - split; [|subst b' e; apply At_entry; simpl; lia].
    cbn [Next_times].
    rewrite (bind_ret_eq _ _ _ _ _ (Next_inside b w Hpos ltac:(lia) Hmax)).
    cbn [fst snd].
    specialize (IH (SeriesSet.mkSeriesChunksSeriesSet (SeriesSet.from b)
                      (SeriesSet.currSet b) (SeriesSet.currOffset b + 1)) w).
    cbn [SeriesSet.currOffset SeriesSet.currSet SeriesSet.from] in IH.
    replace (SeriesSet.currOffset b + 1 + Z.of_nat k)
      with (SeriesSet.currOffset b + Z.of_nat (S k)) in IH by lia.
    subst b'. apply IH; lia.
Qed.

End WalkFacts.

Section AdapterOverLoader.
Context {U R : Type} `{Loading.seriesChunkRefsSetIterator U}
        `{Loading.bucketChunkReaders R}.

(** What the loading iterator publishes for a batch. *)
Lemma loader_Next_batch (c c1 : Loading.loadingSeriesChunksSetIterator U R)
    (w w1 : world) :
  wf_world w ->
  Loading.Next c w = Some ((true, c1), w1) ->
  let nextUnloaded := Loading.refs_At (snd (Loading.refs_Next (Loading.from c))) in
  let out := Loading.At c1 in
  len (series out) = Z.of_nat (length (refs_series nextUnloaded)) /\
  forall i s,
    refs_series nextUnloaded !! i = Some s ->
    entry_converts w1 s (read_entry w1 (series out) i).
Proof.
  intros Hwf Hrun nextUnloaded out.
  destruct (Loading.err c) as [e0|] eqn:Herr.
  { rewrite Next_latched in Hrun by congruence. inversion Hrun. }
  destruct (Loading.refs_Next (Loading.from c)) as [ok u'] eqn:Hup.
  destruct ok; [|rewrite (Next_exhausted c w u' Herr Hup) in Hrun; inversion Hrun].
  simpl in nextUnloaded.
  destruct (Next_converting c w true c1 w1 u' Herr Hup Hrun)
    as (ns & wa & ser & e & r & ns2 & wb & Hns & Hser & Hpop & Hcase).
  fold nextUnloaded in Hns, Hser, Hpop, Hcase.
  set (n := Z.of_nat (length (refs_series nextUnloaded))) in *.
  assert (Hmax : 0 <= util_math_Max (Loading.fromBatchSize c) n).
  { unfold util_math_Max. destruct (_ <? _) eqn:E; [apply Z.ltb_lt in E|]; unfold n; lia. }
  destruct (new_series_valid _ n w wa ns ser Hwf Hmax Hns Hser)
    as (Hvalid & Hlen & Hrel & Hnopool & Hc & Hp).
  assert (Hsuccess : e = None /\ exists wc,
            Loading.store_loaded (series ns2) (fst (fst (Loading.readers_load r)))
              (set_nextReleaser (Pos.succ (nextReleaser wb)) wb) = Some (tt, wc) /\
            c1 = Loading.mkLoading (snd (Loading.readers_load r)) u'
                   (Loading.fromBatchSize c)
                   (with_chunksReleaser (Some (nextReleaser wb)) ns2) (Loading.err c) /\
            w1 = log (EvRefsSetRelease nextUnloaded) wc).
  { destruct e as [e|].
    - exfalso.
      destruct (deferred_false
                  (Loading.mkLoading r u' (Loading.fromBatchSize c) (Loading.current c)
                     (errors_Wrap (Some e) "preloading chunks")) ns2 nextUnloaded wb)
        as (ns' & w' & _ & _ & _ & Hdef); [simpl; discriminate|].
      rewrite Hdef in Hcase. inversion Hcase.
    - split; [reflexivity|]. destruct Hcase as (wc & Hstore & Hcase). exists wc.
      split; [exact Hstore|].
      destruct (snd (fst (Loading.readers_load r))) as [e'|].
      + exfalso.
        destruct (deferred_false
                    (Loading.mkLoading (snd (Loading.readers_load r)) u'
                       (Loading.fromBatchSize c) (Loading.current c)
                       (errors_Wrap (Some e') "loading chunks")) ns2 nextUnloaded wc)
          as (ns' & w' & _ & _ & _ & Hdef); [simpl; discriminate|].
        rewrite Hdef in Hcase. inversion Hcase.
      + tauto. }
  destruct Hsuccess as (-> & wc & Hstore & -> & ->).
  destruct (populate_series_set _ _ _ _ _ _ _ _ _ Hpop) as (Hser2 & _).
  simpl in Hser2.
  destruct (populate_series_run _ _ _ _ _ _ _ _ _ Hpop) as (_ & _ & Hconv).
  { exact Hrel. }
  { unfold lazy_seriesChunksPool. simpl. rewrite Hnopool.
    now apply (wf_world_new_slab_pool w). }
  { exact Hvalid. }
  destruct (store_loaded_times _ _ _ _ Hstore) as [Hentries Htimes].
  unfold out, Loading.At. simpl. rewrite Hser2.
  split; [exact Hlen|].
  intros i s Hi. specialize (Hconv eq_refl i s Hi). simpl in Hconv.
  destruct Hconv as (Hlset & Hchks & Hcells).
  assert (Hread : read_entry (log (EvRefsSetRelease nextUnloaded) wc) ser i
                  = read_entry wb ser i).
  { unfold read_entry. simpl. now rewrite Hentries. }
  unfold entry_converts. rewrite Hread.
  split; [exact Hlset|]. split; [exact Hchks|].
  intros j ch Hj.
  destruct (Htimes (chks (read_entry wb ser i)) j) as [Hmin Hmaxt].
  destruct (Hcells j ch Hj) as [Hlo Hhi].
  split.
  - transitivity (MinTime (read_chunk wc (chks (read_entry wb ser i)) j));
      [reflexivity|]. rewrite Hmin. exact Hlo.
  - transitivity (MaxTime (read_chunk wc (chks (read_entry wb ser i)) j));
      [reflexivity|]. rewrite Hmaxt. exact Hhi.
Qed.

(** X15. From references to series. The series adapter set on a loading
    iterator, in a well-formed world: when the first [Next] of the loader
    converts a batch, the adapter's call number [k + 1] of [Next] is true
    for each series [k] of the batch, and [At] then returns the label set
    of that series of references, the same slice, and a chunk slice with
    one chunk for each reference, with the time range of the reference.
    The loader is called once, by the first [Next] of the adapter. *)
Theorem adapter_over_loader (c c1 : Loading.loadingSeriesChunksSetIterator U R)
    (w w1 : world) (k : nat) (s : seriesChunkRefs) :
  wf_world w ->
  Loading.Next c w = Some ((true, c1), w1) ->
  let batch := refs_series (Loading.refs_At (snd (Loading.refs_Next (Loading.from c)))) in
  Z.of_nat (length batch) <= int_max ->
  batch !! k = Some s ->
  exists ls cs,
    Next_times (S k) (SeriesSet.newSeriesChunksSeriesSet c) w
    = Some ((true, SeriesSet.mkSeriesChunksSeriesSet c1 (Loading.At c1) (Z.of_nat k)), w1) /\
    SeriesSet.At (SeriesSet.mkSeriesChunksSeriesSet c1 (Loading.At c1) (Z.of_nat k)) w1
    = Some (ls, cs) /\
    ls = refs_lset s /\
    len cs = Z.of_nat (length (chunks s)) /\
    forall j ch, chunks s !! j = Some ch ->
      MinTime (read_chunk w1 cs j) = minTime ch /\
      MaxTime (read_chunk w1 cs j) = maxTime ch.
Proof.
  intros Hwf Hrun batch Hmax Hk.
  destruct (loader_Next_batch c c1 w w1 Hwf Hrun) as [Hlen Hconv].
  fold batch in Hlen, Hconv.
  pose proof (lookup_lt_Some _ _ _ Hk) as Hlt.
  set (b0 := SeriesSet.mkSeriesChunksSeriesSet c1 (Loading.At c1) 0).
  assert (Hfirst : SeriesSet.Next (SeriesSet.newSeriesChunksSeriesSet c) w
                   = Some ((true, b0), w1)).
  { unfold SeriesSet.Next. simpl.
    change (seriesChunksSet_len zeroSeriesChunksSet) with 0.
    change (int_add 0 1) with 1. simpl.
    rewrite (bind_ret_eq _ _ _ _ _ (release_zero_set w)).
    change (SeriesSet.it_Next c) with (Loading.Next c).
    rewrite (bind_ret_eq _ _ _ _ _ Hrun). reflexivity. }
  destruct (Next_times_walk k b0 w1) as [Hwalk Hat].
  { simpl. lia. }
  { simpl. unfold seriesChunksSet_len. rewrite Hlen. lia. }
  { simpl. unfold seriesChunksSet_len. rewrite Hlen. lia. }
  unfold b0 in Hwalk at 2. unfold b0 in Hat.
  cbn [SeriesSet.currOffset SeriesSet.currSet SeriesSet.from] in Hwalk, Hat.
  rewrite Z.add_0_l in Hwalk, Hat. rewrite Nat2Z.id in Hat.
  destruct (Hconv k s Hk) as (Hlset & Hchks & Hcells).
  eexists. eexists.
  split; [|split; [exact Hat|split; [exact Hlset|split; [exact Hchks|exact Hcells]]]].
  cbn [Next_times]. rewrite (bind_ret_eq _ _ _ _ _ Hfirst). cbn [fst snd]. exact Hwalk.
Qed.

End AdapterOverLoader.

(** ** The helpers of the index-header benchmarks *)

Lemma generateSymbols_loop_spec (prefix : string) (todo : nat) :
  forall (idx : Z) (s : list string),
    0 <= idx -> idx + Z.of_nat todo <= int_max ->
    generateSymbols_loop prefix idx todo s
    = s ++ ((fun k => Sprintf_v_dash_v prefix (idx + Z.of_nat k)) <$> seq 0 todo).
Proof.
  induction todo as [|todo IH]; intros idx s Hpos Hmax.
  - simpl. now rewrite app_nil_r.
  - cbn [generateSymbols_loop]. rewrite int_add_1 by (unfold int_max in *; lia).
    rewrite IH by lia. rewrite <- app_assoc. f_equal.
    cbn [seq fmap list_fmap]. rewrite Z.add_0_r. f_equal.
    rewrite <- seq_shift, <- list_fmap_compose. apply list_fmap_ext.
    intros _ k _. simpl. f_equal. lia.
Qed.

Lemma Sprintf_v_dash_v_inj (prefix : string) (i j : Z) :
  Sprintf_v_dash_v prefix i = Sprintf_v_dash_v prefix j -> i = j.
Proof.
  unfold Sprintf_v_dash_v. intros Heq.
  apply (inj (String.app prefix)) in Heq. apply (inj (String.app "-")) in Heq.
  now apply (inj pretty) in Heq.
Qed.

(** X16. [generateSymbols] returns [count] symbols, the symbol number [k]
    being the prefix, a dash and [k] in decimal; no two of them are equal.
    A negative [count] makes it panic. *)
Theorem generateSymbols_spec (prefix : string) (count : Z) :
  count <= int_max ->
  (count < 0 -> generateSymbols prefix count = None) /\
  (0 <= count ->
   exists l,
     generateSymbols prefix count = Some l /\
     length l = Z.to_nat count /\
     (forall k, (k < Z.to_nat count)%nat ->
        l !! k = Some (prefix +:+ "-" +:+ pretty (Z.of_nat k))) /\
     NoDup l).
Proof.
  intros Hmax. unfold generateSymbols. split.
  - intros Hneg. destruct (count <? 0) eqn:E; [reflexivity|apply Z.ltb_ge in E; lia].
  - intros Hpos. destruct (count <? 0) eqn:E; [apply Z.ltb_lt in E; lia|].
    eexists. split; [reflexivity|].
    rewrite generateSymbols_loop_spec by lia. simpl.
    split; [now rewrite length_fmap, length_seq|].
    split.
    + intros k Hk. rewrite list_lookup_fmap, lookup_seq_lt by exact Hk. reflexivity.
    + apply NoDup_fmap_2; [|apply NoDup_seq].
      intros i j Heq. apply Sprintf_v_dash_v_inj in Heq. lia.
Qed.

Lemma generateLabels_values_spec (name : string) (values : list string) :
  forall l : list Labels,
    generateLabels_values name values l = l ++ (labels_FromStrings name <$> values).
Proof.
  induction values as [|v rest IH]; intros l; simpl.
  - now rewrite app_nil_r.
  - rewrite IH, <- app_assoc. reflexivity.
Qed.

Lemma generateLabels_names_spec (names values : list string) :
  forall l : list Labels,
    generateLabels_names names values l
    = l ++ (names ≫= fun name => labels_FromStrings name <$> values).
Proof.
  induction names as [|n rest IH]; intros l; simpl.
  - now rewrite app_nil_r.
  - rewrite IH, generateLabels_values_spec, <- app_assoc. reflexivity.
Qed.

Lemma bind_lookup_product {A B : Type} (f : A -> B -> Labels) (names : list A)
    (values : list B) (i j : nat) (n : A) (v : B) :
  names !! i = Some n -> values !! j = Some v ->
  (names ≫= fun name => f name <$> values) !! (i * length values + j)%nat = Some (f n v).
Proof.
  revert i. induction names as [|n0 rest IH]; intros i Hi Hj; [now rewrite lookup_nil in Hi|].
  pose proof (lookup_lt_Some _ _ _ Hj) as Hlt.
  cbn [mbind list_bind]. destruct i as [|i]; simpl in Hi.
  - inversion Hi; subst n0. rewrite lookup_app_l by (rewrite length_fmap; lia).
    simpl. now rewrite list_lookup_fmap, Hj.
  - rewrite lookup_app_r by (rewrite length_fmap; lia). rewrite length_fmap.
    replace (S i * length values + j - length values)%nat
      with (i * length values + j)%nat by lia.
    now apply IH.
Qed.

(** X17. [generateLabels] returns one label set for each pair of a name and
    a value, names first: with [v] values, the label set number
    [i * v + j] is the one label of name number [i] and value number [j];
    there are as many sets as pairs, and no two are equal when no two names
    and no two values are. *)
Theorem generateLabels_spec (names values : list string) :
  Z.of_nat (length names) * Z.of_nat (length values) <= int_max ->
  exists l,
    generateLabels names values = Some l /\
    length l = (length names * length values)%nat /\
    (forall i j n v, names !! i = Some n -> values !! j = Some v ->
       l !! (i * length values + j)%nat = Some [mkLabel n v]) /\
    (NoDup names -> NoDup values -> NoDup l).
Proof.
  intros Hmax. unfold generateLabels.
  assert (Hwrap : int_wrap (Z.of_nat (length names) * Z.of_nat (length values))
                  = Z.of_nat (length names) * Z.of_nat (length values)).
  { unfold int_wrap, int_max in *. rewrite Z.mod_small; lia. }
  rewrite Hwrap.
  destruct (Z.of_nat (length names) * Z.of_nat (length values) <? 0) eqn:E;
    [apply Z.ltb_lt in E; lia|].
  eexists. split; [reflexivity|].
  rewrite generateLabels_names_spec. simpl.
  split; [|split].
  - clear. induction names as [|n rest IH]; [reflexivity|].
    cbn [mbind list_bind]. rewrite length_app, length_fmap. simpl. now rewrite IH.
  - intros i j n v Hi Hj. now apply (bind_lookup_product labels_FromStrings).
  - intros Hnames Hvalues. clear Hmax Hwrap E.
    induction names as [|n rest IH]; [constructor|].
    cbn [mbind list_bind]. apply NoDup_cons in Hnames. destruct Hnames as [Hn Hrest].
    apply NoDup_app. split; [|split].
    + apply NoDup_fmap_2; [|exact Hvalues].
      intros v1 v2 Heq. unfold labels_FromStrings in Heq. now inversion Heq.
    + intros ls Hin Hin'.
      apply list_elem_of_fmap in Hin. destruct Hin as (v & -> & _).
      apply list_elem_of_bind in Hin'. destruct Hin' as (n' & Hin' & Hn').
      apply list_elem_of_fmap in Hin'. destruct Hin' as (v' & Heq & _).
      unfold labels_FromStrings in Heq. inversion Heq; subst. contradiction.
    + now apply IH.
Qed.

Section ReverseLookupFacts.
Variable ReverseLookup : string -> N + errorValue.

Lemma reverseLookup_loop_spec (symbols : list string) :
  forall (i i' : list N) (m m' : gmap N string),
    reverseLookup_loop ReverseLookup symbols i m = Some (i', m') ->
    Forall2 (fun s idx => ReverseLookup s = inl idx) symbols (drop (length i) i') /\
    take (length i) i' = i /\
    (forall idx s, m' !! idx = Some s ->
       m !! idx = Some s \/ (s ∈ symbols /\ ReverseLookup s = inl idx)) /\
    (forall idx, is_Some (m !! idx) \/ idx ∈ drop (length i) i' -> is_Some (m' !! idx)).
Proof.
  induction symbols as [|s rest IH]; intros i i' m m' Hrun; simpl in Hrun.
  - inversion Hrun; subst. rewrite drop_all, firstn_all.
    split; [constructor|]. split; [reflexivity|].
    split; [auto|]. intros idx [Hm|Hin]; [exact Hm|now apply not_elem_of_nil in Hin].
  - destruct (ReverseLookup s) as [idx0|e] eqn:Hs; [|discriminate].
    destruct (IH _ _ _ _ Hrun) as (Hall & Htake & Hm & Hdom).
    rewrite length_app in Hall, Htake, Hdom. simpl in Hall, Htake, Hdom.
    assert (Hi' : i' = i ++ idx0 :: drop (length i + 1) i').
    { rewrite <- (take_drop (length i + 1) i') at 1. rewrite Htake, <- app_assoc.
      reflexivity. }
    assert (Hdrop : drop (length i) i' = idx0 :: drop (length i + 1) i').
    { rewrite Hi' at 1. rewrite drop_app_length. reflexivity. }
    split; [rewrite Hdrop; constructor; [exact Hs|exact Hall]|].
    split; [rewrite Hi'; now rewrite take_app_length|].
    split.
    + intros idx s' Hlook. destruct (Hm idx s' Hlook) as [Hold|[Hin Hl]].
      * destruct (decide (idx = idx0)) as [->|Hne].
        -- rewrite lookup_insert_eq in Hold. inversion Hold; subst s'.
           right. split; [now left|exact Hs].
        -- rewrite lookup_insert_ne in Hold by congruence. now left.
      * right. split; [now right|exact Hl].
    + intros idx Hidx. apply Hdom. rewrite Hdrop in Hidx.
      destruct Hidx as [Hm0|Hin].
      * left. destruct (decide (idx = idx0)) as [->|Hne].
        -- rewrite lookup_insert_eq. eauto.
        -- now rewrite lookup_insert_ne by congruence.
      * apply elem_of_cons in Hin. destruct Hin as [->|Hin]; [|now right].
        left. rewrite lookup_insert_eq. eauto.
Qed.

(** X18. [reverseLookup] looks every symbol up, in order: the slice it
    returns has the index of each symbol at the place of the symbol; the map
    has exactly these indices as keys, and at an index a symbol that has
    this index. It returns nothing as soon as a symbol cannot be looked up. *)
Theorem reverseLookup_spec (symbols : list string) :
  match reverseLookup ReverseLookup symbols with
  | Some (i, m) =>
      Forall2 (fun s idx => ReverseLookup s = inl idx) symbols i /\
      (forall idx, is_Some (m !! idx) <-> idx ∈ i) /\
      (forall idx s, m !! idx = Some s -> s ∈ symbols /\ ReverseLookup s = inl idx)
  | None => exists s e, s ∈ symbols /\ ReverseLookup s = inr e
  end.
Proof.
  unfold reverseLookup.
  destruct (reverseLookup_loop ReverseLookup symbols [] ∅) as [[i m]|] eqn:Hrun.
  - destruct (reverseLookup_loop_spec symbols [] i ∅ m Hrun) as (Hall & _ & Hm & Hdom).
    simpl in Hall, Hdom.
    split; [exact Hall|]. split.
    + intros idx. split; [|intros Hin; apply Hdom; now right].
      intros [s Hs]. destruct (Hm idx s Hs) as [Hold|[Hin Hl]];
        [rewrite lookup_empty in Hold; discriminate|].
      apply list_elem_of_lookup in Hin. destruct Hin as [k Hk].
      destruct (Forall2_lookup_l _ _ _ _ _ Hall Hk) as (idx' & Hk' & Hl').
      rewrite Hl in Hl'. inversion Hl'; subst idx'.
      eapply list_elem_of_lookup_2. exact Hk'.
    + intros idx s Hs. destruct (Hm idx s Hs) as [Hold|H]; [|exact H].
      rewrite lookup_empty in Hold. discriminate.
  - clear - Hrun. generalize dependent (∅ : gmap N string).
    generalize (@nil N).
    induction symbols as [|s rest IH]; intros i m Hrun; simpl in Hrun; [discriminate|].
    destruct (ReverseLookup s) as [idx|e] eqn:Hs.
    + destruct (IH _ _ Hrun) as (s' & e & Hin & He). exists s', e. split; [now right|exact He].
    + exists s, e. split; [now left|exact Hs].
Qed.

End ReverseLookupFacts.

(** ** Runs of the preloading iterator *)

Lemma numbers_p0_new :
  Preloading.newPreloadingSetIterator 0 false 2 numbers_upstream = Some numbers_p0.
Proof. vm_compute. reflexivity. Qed.

Lemma numbers_steps_p3 : Preloading.steps 0 numbers_p0 numbers_p3.
Proof.
  unfold numbers_p3.
  apply (Preloading.steps_step 0 _ (after_produce (after_produce numbers_p0)));
    [|apply Preloading.step_preload; vm_compute; reflexivity].
  apply (Preloading.steps_step 0 _ (after_produce numbers_p0));
    [|apply Preloading.step_preload; vm_compute; reflexivity].
  apply (Preloading.steps_step 0 _ numbers_p0);
    [|apply Preloading.step_preload; vm_compute; reflexivity].
  apply Preloading.steps_refl.
Qed.

Lemma numbers_steps_p6 : Preloading.steps 0 numbers_p0 numbers_p6.
Proof.
  unfold numbers_p6.
  apply (Preloading.steps_step 0 _ (after_produce (after_consume numbers_p3)));
    [|apply (Preloading.step_Next 0 _ false); vm_compute; reflexivity].
  apply (Preloading.steps_step 0 _ (after_consume numbers_p3));
    [|apply Preloading.step_preload; vm_compute; reflexivity].
  apply (Preloading.steps_step 0 _ numbers_p3);
    [|apply (Preloading.step_Next 0 _ true); vm_compute; reflexivity].
  exact numbers_steps_p3.
Qed.

Lemma preloading_in_order_witness :
  Preloading.newPreloadingSetIterator 0 false 2 numbers_upstream = Some numbers_p0 /\
  Preloading.steps 0 numbers_p0 numbers_p3 /\
  exists k received tail,
    Preloading.sent numbers_p3
    = received ++ Preloading.ch_buf (Preloading.preloaded numbers_p3) /\
    Preloading.sent numbers_p3
    = (value_payload <$> upstream_values numbers_upstream k) ++ tail /\
    length (upstream_values numbers_upstream k) = k /\
    (tail = [] \/ tail = [error_payload 0 (Preloading.from numbers_p3)]) /\
    Preloading.At numbers_p3 = last_set 0 received /\
    Preloading.Err numbers_p3 = last_err received /\
    forall q, Preloading.Next numbers_p3 = Some (true, q) ->
      exists k', upstream_values numbers_upstream k' !! length received
                 = Some (Preloading.At q).
Proof.
  split; [exact numbers_p0_new|]. split; [exact numbers_steps_p3|].
  exact (preloading_in_order 0 false 2 numbers_upstream numbers_p0 numbers_p3
           numbers_p0_new numbers_steps_p3).
Defined.

Lemma preloading_lookahead_witness :
  Preloading.newPreloadingSetIterator 0 false 2 numbers_upstream = Some numbers_p0 /\
  Preloading.steps 0 numbers_p0 numbers_p3 /\
  exists j received,
    Preloading.sent numbers_p3
    = received ++ Preloading.ch_buf (Preloading.preloaded numbers_p3) /\
    Preloading.from numbers_p3 = upstream_after numbers_upstream j /\
    Z.of_nat j <= Z.of_nat (length received) + (int_sub 2 1 + 1).
Proof.
  split; [exact numbers_p0_new|]. split; [exact numbers_steps_p3|].
  exact (preloading_lookahead 0 false 2 numbers_upstream numbers_p0 numbers_p3
           numbers_p0_new numbers_steps_p3).
Defined.

Lemma preloading_Err_from_upstream_witness :
  Preloading.newPreloadingSetIterator 0 false 2 numbers_upstream = Some numbers_p0 /\
  Preloading.steps 0 numbers_p0 numbers_p6 /\
  Preloading.Err numbers_p6 = Some (ErrNew "upstream") /\
  Preloading.gi_Err (Preloading.from numbers_p6) = Some (ErrNew "upstream") /\
  Preloading.At numbers_p6 = 0.
Proof.
  assert (Herr : Preloading.Err numbers_p6 = Some (ErrNew "upstream"))
    by (vm_compute; reflexivity).
  split; [exact numbers_p0_new|]. split; [exact numbers_steps_p6|]. split; [exact Herr|].
  destruct (preloading_Err_from_upstream 0 false 2 numbers_upstream numbers_p0 numbers_p6
              (ErrNew "upstream") numbers_p0_new numbers_steps_p6 Herr)
    as (Hup & _ & Hat & _).
  split; [exact Hup|exact Hat].
Defined.

(** ** Runs of the series adapter, the chunk-set and the loader *)

Lemma sample_loaded_run :
  Loading.Next sample_loader emptyWorld
  = Some ((true, fst sample_loaded), snd sample_loaded).
Proof. vm_compute. reflexivity. Qed.

Lemma adapter_walks_batch_witness :
  0 <= SeriesSet.currOffset walking_adapter /\
  SeriesSet.currOffset walking_adapter + Z.of_nat 1
  < seriesChunksSet_len (SeriesSet.currSet walking_adapter) /\
  seriesChunksSet_len (SeriesSet.currSet walking_adapter) <= int_max /\
  Next_times 1 walking_adapter (snd sample_loaded)
  = Some ((true, SeriesSet.mkSeriesChunksSeriesSet (SeriesSet.from walking_adapter)
                   (SeriesSet.currSet walking_adapter) 1), snd sample_loaded) /\
  SeriesSet.At (SeriesSet.mkSeriesChunksSeriesSet (SeriesSet.from walking_adapter)
                  (SeriesSet.currSet walking_adapter) 1) (snd sample_loaded)
  = Some (Slice (Some 8%positive) 0 1 1, Slice (Some 1%positive) 2 1 1).
Proof.
  assert (H0 : 0 <= SeriesSet.currOffset walking_adapter) by (vm_compute; discriminate).
  assert (H1 : SeriesSet.currOffset walking_adapter + Z.of_nat 1
               < seriesChunksSet_len (SeriesSet.currSet walking_adapter))
    by (vm_compute; reflexivity).
  assert (H2 : seriesChunksSet_len (SeriesSet.currSet walking_adapter) <= int_max)
    by (vm_compute; discriminate).
  split; [exact H0|]. split; [exact H1|]. split; [exact H2|].
  destruct (adapter_walks_batch 1 walking_adapter (snd sample_loaded) H0 H1 H2)
    as [Hwalk Hat].
  split; [exact Hwalk|]. etransitivity; [exact Hat|]. vm_compute. reflexivity.
Defined.

Lemma listSets_exhaustion_law : sets_exhaustion_law listSets.
Proof.
  intros u u1 w w1 Hnext w'. simpl in Hnext. unfold listSets_Next in Hnext.
  destruct (ls_pending u) as [|b rest]; [|discriminate].
  inversion Hnext; subst u1 w1. clear Hnext.
  eexists. eexists. split; reflexivity.
Qed.

Lemma adapter_stays_exhausted_witness :
  sets_exhaustion_law listSets /\
  SeriesSet.Next sample_adapter emptyWorld
  = Some ((false, SeriesSet.mkSeriesChunksSeriesSet
                    (mkListSets [] zeroSeriesChunksSet None true) zeroSeriesChunksSet 1),
          emptyWorld) /\
  exists b2 u2 w2,
    SeriesSet.Next (SeriesSet.mkSeriesChunksSeriesSet
                      (mkListSets [] zeroSeriesChunksSet None true) zeroSeriesChunksSet 1)
      pooled_world = Some ((false, b2), w2) /\
    SeriesSet.from b2 = u2 /\
    SeriesSet.At b2 w2 = Some (nil_slice, nil_slice).
Proof.
  assert (Hrun : SeriesSet.Next sample_adapter emptyWorld
                 = Some ((false, SeriesSet.mkSeriesChunksSeriesSet
                                   (mkListSets [] zeroSeriesChunksSet None true)
                                   zeroSeriesChunksSet 1), emptyWorld))
    by (vm_compute; reflexivity).
  split; [exact listSets_exhaustion_law|]. split; [exact Hrun|].
  destruct (adapter_stays_exhausted sample_adapter _ emptyWorld _ listSets_exhaustion_law
              Hrun ltac:(vm_compute; reflexivity) ltac:(vm_compute; discriminate)
              pooled_world)
    as (b2 & u2 & w2 & _ & Hnext & Hfrom & _ & _ & Hat).
  exists b2, u2, w2. auto.
Defined.

Lemma released_slice_comes_back_clean_witness :
  seriesReleasable (Loading.At (fst sample_loaded)) = true /\
  s_ptr (series (Loading.At (fst sample_loaded))) <> None /\
  1 <= cap (series (Loading.At (fst sample_loaded))) /\
  poolChoices loaded_world = [Some (length (seriesEntrySlicePool loaded_world))] /\
  exists b1 w1 ns w2,
    release (Loading.At (fst sample_loaded)) loaded_world = Some (b1, w1) /\
    newSeriesChunksSet 1 true w1 = Some (ns, w2) /\
    series ns = Slice (Some 1%positive) 0 0 2 /\
    read_entry w2 (series (Loading.At (fst sample_loaded))) 1 = zeroSeriesEntry.
Proof.
  assert (H0 : seriesReleasable (Loading.At (fst sample_loaded)) = true) by reflexivity.
  assert (H1 : s_ptr (series (Loading.At (fst sample_loaded))) <> None)
    by (vm_compute; discriminate).
  assert (H2 : 1 <= cap (series (Loading.At (fst sample_loaded))))
    by (vm_compute; discriminate).
  assert (H3 : poolChoices loaded_world
               = [Some (length (seriesEntrySlicePool loaded_world))])
    by (vm_compute; reflexivity).
  split; [exact H0|]. split; [exact H1|]. split; [exact H2|]. split; [exact H3|].
  destruct (released_slice_comes_back_clean (Loading.At (fst sample_loaded)) loaded_world
              1 [] H0 H1 H2 H3)
    as (b1 & w1 & ns & w2 & Hrel & Hnew & Hser & _ & _ & _ & _ & _ & Hzero).
  exists b1, w1, ns, w2. split; [exact Hrel|]. split; [exact Hnew|].
  split; [rewrite Hser; vm_compute; reflexivity|].
  apply Hzero. vm_compute. lia.
Defined.

Lemma release_twice_aliases_witness :
  seriesReleasable (Loading.At (fst sample_loaded)) = true /\
  s_ptr (series (Loading.At (fst sample_loaded))) <> None /\
  1 <= cap (series (Loading.At (fst sample_loaded))) /\
  exists b1 w1 b2 w2,
    release (Loading.At (fst sample_loaded)) (snd sample_loaded) = Some (b1, w1) /\
    release b1 w1 = Some (b2, w2) /\
    seriesEntrySlicePool w2
    = [Slice (Some 1%positive) 0 0 2; Slice (Some 1%positive) 0 0 2].
Proof.
  assert (H0 : seriesReleasable (Loading.At (fst sample_loaded)) = true) by reflexivity.
  assert (H1 : s_ptr (series (Loading.At (fst sample_loaded))) <> None)
    by (vm_compute; discriminate).
  assert (H2 : 1 <= cap (series (Loading.At (fst sample_loaded))))
    by (vm_compute; discriminate).
  split; [exact H0|]. split; [exact H1|]. split; [exact H2|].
  destruct (release_twice_aliases (Loading.At (fst sample_loaded)) (snd sample_loaded)
              1 1 H0 H1 H2 H2)
    as (b1 & w1 & b2 & w2 & Hr1 & Hr2 & _ & _ & Hpool & _).
  exists b1, w1, b2, w2. split; [exact Hr1|]. split; [exact Hr2|].
  rewrite Hpool. vm_compute. reflexivity.
Defined.

Lemma loader_load_plan_witness :
  Loading.err sample_loader = None /\
  Loading.refs_Next (Loading.from sample_loader)
  = (true, snd (Loading.refs_Next (Loading.from sample_loader))) /\
  Loading.Next sample_loader emptyWorld
  = Some ((true, fst sample_loaded), snd sample_loaded) /\
  plan (Loading.chunkReaders (fst sample_loaded))
  = [("b1", 10, 0%nat, 0%nat); ("b1", 11, 0%nat, 1%nat); ("b2", 12, 1%nat, 0%nat)].
Proof.
  split; [reflexivity|]. split; [reflexivity|]. split; [exact sample_loaded_run|].
  pose proof (loader_load_plan sample_loader (fst sample_loaded) emptyWorld
                (snd sample_loaded) true _ eq_refl eq_refl sample_loaded_run) as Hplan.
  vm_compute in Hplan. destruct Hplan as [Hreaders _].
  vm_compute. reflexivity.
Defined.

Lemma loader_Next_publishes_witness :
  wf_world emptyWorld /\
  Loading.Next sample_loader emptyWorld
  = Some ((true, fst sample_loaded), snd sample_loaded) /\
  trace (snd sample_loaded) = [EvRefsSetRelease sample_refs] /\
  len (series (Loading.At (fst sample_loaded))) = 2 /\
  1 <= cap (series (Loading.At (fst sample_loaded))).
Proof.
  split; [exact wf_emptyWorld|]. split; [exact sample_loaded_run|].
  destruct (loader_Next_publishes sample_loader (fst sample_loaded) emptyWorld
              (snd sample_loaded) wf_emptyWorld sample_loaded_run)
    as (Htrace & _ & _ & Hlen & Hcap & _).
  split; [exact Htrace|]. split; [exact Hlen|exact Hcap].
Defined.

Lemma adapter_over_loader_witness :
  wf_world emptyWorld /\
  Loading.Next sample_loader emptyWorld
  = Some ((true, fst sample_loaded), snd sample_loaded) /\
  Z.of_nat (length (refs_series sample_refs)) <= int_max /\
  exists ls cs,
    Next_times 2 (SeriesSet.newSeriesChunksSeriesSet sample_loader) emptyWorld
    = Some ((true, SeriesSet.mkSeriesChunksSeriesSet (fst sample_loaded)
                     (Loading.At (fst sample_loaded)) 1), snd sample_loaded) /\
    SeriesSet.At (SeriesSet.mkSeriesChunksSeriesSet (fst sample_loaded)
                    (Loading.At (fst sample_loaded)) 1) (snd sample_loaded)
    = Some (ls, cs) /\
    ls = Slice (Some 8%positive) 0 1 1 /\
    MinTime (read_chunk (snd sample_loaded) cs 0) = 50.
Proof.
  assert (Hmax : Z.of_nat (length (refs_series sample_refs)) <= int_max)
    by (vm_compute; discriminate).
  split; [exact wf_emptyWorld|]. split; [exact sample_loaded_run|]. split; [exact Hmax|].
  destruct (adapter_over_loader sample_loader (fst sample_loaded) emptyWorld
              (snd sample_loaded) 1
              (mkSeriesChunkRefs (Slice (Some 8%positive) 0 1 1)
                 [mkSeriesChunkRef "b2" 12 50 60])
              wf_emptyWorld sample_loaded_run Hmax eq_refl)
    as (ls & cs & Hwalk & Hat & Hls & _ & Hcells).
  exists ls, cs. split; [exact Hwalk|]. split; [exact Hat|]. split; [exact Hls|].
  exact (proj1 (Hcells 0%nat _ eq_refl)).
Defined.

Lemma pooled_slices_stay_empty_witness :
  pooled_lengths_zero pooled_world /\
  forall (c c1 : Loading.loadingSeriesChunksSetIterator listRefs planReaders) ok w1,
    Loading.Next c pooled_world = Some ((ok, c1), w1) -> pooled_lengths_zero w1.
Proof.
  assert (Hzero : pooled_lengths_zero pooled_world).
  { constructor; [reflexivity|constructor]. }
  split; [exact Hzero|].
  exact (proj1 (proj2 (proj2 (pooled_slices_stay_empty (V := listSets) pooled_world Hzero)))).
Defined.

(** ** Runs of the cache adapter and of the measured upstream *)

Lemma Store_reports_witness :
  map_to_list sample_data ≡ₚ map_to_list sample_data /\
  Z.of_nat (size sample_data) <= int_max /\
  length (CacheStore.set_results (map_to_list sample_data) 60
            (Cache.memcached keeping_cache)) = size sample_data /\
  Cache.requests (fst (CacheStore.Store keeping_cache (map_to_list sample_data) 60))
  = Cache.requests keeping_cache /\
  snd (CacheStore.Store keeping_cache (map_to_list sample_data) 60)
  = Some (CacheStore.mkWarning "failed to store one or more items into memcached" 2
            (ErrNew "empty item")).
Proof.
  assert (Hsize : Z.of_nat (size sample_data) <= int_max) by (vm_compute; discriminate).
  split; [reflexivity|]. split; [exact Hsize|].
  destruct (Store_reports keeping_cache sample_data (map_to_list sample_data) 60
              (reflexivity _) Hsize) as (Hlen & Hreq & _).
  split; [exact Hlen|]. split; [exact Hreq|].
  vm_compute. reflexivity.
Defined.

Lemma memcachedClient_returns_asked (cl : Cache.memcachedClient) (keys : list string)
    (k : string) :
  is_Some (fst (Cache.GetMulti cl keys) !! k) -> k ∈ keys.
Proof.
  simpl. unfold Cache.memcachedClient_GetMulti.
  destruct (Cache.network cl (Cache.trips cl)) as [e|items]; simpl; intros [v Hv].
  - rewrite lookup_empty in Hv. discriminate.
  - apply hits_of_lookup in Hv. tauto.
Qed.

Lemma Fetch_all_accounts_witness :
  (forall (cl : Cache.memcachedClient) (keys : list string) (k : string),
     is_Some (fst (Cache.GetMulti cl keys) !! k) -> k ∈ keys) /\
  let c := sample_cache (Cache.ServerHolds sample_items) in
  let out := CacheStore.Fetch_all c [["a"; "b"; "c"]; []; ["z"; "z"]] in
  Cache.requests (snd out) = Cache.requests c + 5 /\
  Cache.hits (snd out) - Cache.hits c <= Cache.requests (snd out) - Cache.requests c /\
  Cache.hits (snd out) = 3.
Proof.
  split; [exact memcachedClient_returns_asked|]. intros c out.
  destruct (Fetch_all_accounts c [["a"; "b"; "c"]; []; ["z"; "z"]])
    as (_ & Hreq & _ & Hle).
  split; [exact Hreq|]. split; [exact (Hle memcachedClient_returns_asked)|].
  vm_compute. reflexivity.
Defined.

Lemma measured_p0_new :
  Preloading.newPreloadingSetIterator 0 false 1 measured_numbers = Some measured_p0.
Proof. vm_compute. reflexivity. Qed.

Lemma measured_steps_p1 : Preloading.steps 0 measured_p0 measured_p1.
Proof.
  apply (Preloading.steps_step 0 _ measured_p0);
    [apply Preloading.steps_refl|apply Preloading.step_preload; reflexivity].
Qed.

Lemma preloading_over_measuring_witness :
  Preloading.newPreloadingSetIterator 0 false 1 measured_numbers = Some measured_p0 /\
  Preloading.steps 0 measured_p0 measured_p1 /\
  Measuring.durationObserver (Preloading.from measured_p1) = [1] /\
  exists k received,
    Preloading.sent measured_p1
    = received ++ Preloading.ch_buf (Preloading.preloaded measured_p1) /\
    length (upstream_values numbers_upstream k) = k.
Proof.
  split; [exact measured_p0_new|]. split; [exact measured_steps_p1|].
  split; [reflexivity|].
  destruct (preloading_over_measuring 0 false 1 measured_numbers measured_p0 measured_p1
              measured_p0_new measured_steps_p1)
    as (k & received & Hsent & Hlen & _).
  exists k, received. split; [exact Hsent|exact Hlen].
Defined.

(** ** Runs of the helpers of the benchmarks *)

Lemma generateSymbols_spec_witness :
  3 <= int_max /\
  generateSymbols "name" 3 = Some ["name-0"; "name-1"; "name-2"] /\
  generateSymbols "name" (-1) = None.
Proof.
  assert (Hmax : 3 <= int_max) by (vm_compute; discriminate).
  split; [exact Hmax|].
  destruct (generateSymbols_spec "name" 3 Hmax) as [_ Hsome].
  destruct (Hsome ltac:(lia)) as (l & Hrun & _).
  split; [vm_compute; reflexivity|vm_compute; reflexivity].
Defined.

Lemma generateLabels_spec_witness :
  Z.of_nat (length ["a"; "b"]) * Z.of_nat (length ["x"; "y"; "z"]) <= int_max /\
  exists l,
    generateLabels ["a"; "b"] ["x"; "y"; "z"] = Some l /\
    length l = 6%nat /\
    l !! 4%nat = Some [mkLabel "b" "y"].
Proof.
  assert (Hmax : Z.of_nat (length ["a"; "b"]) * Z.of_nat (length ["x"; "y"; "z"])
                 <= int_max) by (vm_compute; discriminate).
  split; [exact Hmax|].
  destruct (generateLabels_spec ["a"; "b"] ["x"; "y"; "z"] Hmax)
    as (l & Hrun & Hlen & Hat & _).
  exists l. split; [exact Hrun|]. split; [exact Hlen|].
  exact (Hat 1%nat 1%nat "b" "y" eq_refl eq_refl).
Defined.

(** ** The producer and the consumer of the preloading iterator *)

Lemma preloading_never_stuck_witness :
  Preloading.reachable 0 numbers_p3 /\
  ((exists q, Preloading.preload_step 0 numbers_p3 = Some q) \/
   (exists b q, Preloading.Next numbers_p3 = Some (b, q))).
Proof.
  assert (Hreach : Preloading.reachable 0 numbers_p3).
  { exists false, 2, numbers_upstream, numbers_p0.
    split; [exact numbers_p0_new|exact numbers_steps_p3]. }
  split; [exact Hreach|].
  exact (preloading_never_stuck 0 numbers_p3 Hreach).
Defined.

Lemma error_send_ignores_cancel_witness :
  Preloading.reachable 0 numbers_p3 /\
  Preloading.has_room (Preloading.preloaded numbers_p3) = false /\
  Preloading.goroutine numbers_p3
  = Preloading.AtSendErr (error_payload 0 (Preloading.from numbers_p3)) /\
  forall q, unattended 0 numbers_p3 q ->
    Preloading.goroutine q
    = Preloading.AtSendErr (error_payload 0 (Preloading.from numbers_p3)) /\
    Preloading.preloaded q = Preloading.preloaded numbers_p3.
Proof.
  assert (Hroom : Preloading.has_room (Preloading.preloaded numbers_p3) = false)
    by (vm_compute; reflexivity).
  assert (Hg : Preloading.goroutine numbers_p3
               = Preloading.AtSendErr (error_payload 0 (Preloading.from numbers_p3)))
    by (vm_compute; reflexivity).
  split.
  { exists false, 2, numbers_upstream, numbers_p0.
    split; [exact numbers_p0_new|exact numbers_steps_p3]. }
  split; [exact Hroom|]. split; [exact Hg|].
  intros q Hq.
  destruct (error_send_ignores_cancel 0 numbers_p3
              (error_payload 0 (Preloading.from numbers_p3)) Hroom) as [Hstuck _].
  destruct (Hstuck Hg q Hq) as (H1 & H2 & _). split; assumption.
Defined.

Lemma At_is_invalidated_by_Next_witness :
  seriesReleasable (SeriesSet.currSet leaving_adapter) = true /\
  0 <= SeriesSet.currOffset leaving_adapter < int_max /\
  seriesChunksSet_len (SeriesSet.currSet leaving_adapter)
  <= SeriesSet.currOffset leaving_adapter + 1 /\
  exists ls chks0 cs w1,
    SeriesSet.At leaving_adapter (snd sample_loaded) = Some (ls, chks0) /\
    (0 < s_len chks0)%nat /\
    read_chunk (snd sample_loaded) chks0 0 <> zeroAggrChunk /\
    release (SeriesSet.currSet leaving_adapter) (snd sample_loaded) = Some (cs, w1) /\
    read_chunk w1 chks0 0 = zeroAggrChunk.
Proof.
  assert (H1 : seriesReleasable (SeriesSet.currSet leaving_adapter) = true)
    by (vm_compute; reflexivity).
  assert (H2 : 0 <= SeriesSet.currOffset leaving_adapter < int_max)
    by (vm_compute; split; [discriminate|reflexivity]).
  assert (H3 : seriesChunksSet_len (SeriesSet.currSet leaving_adapter)
               <= SeriesSet.currOffset leaving_adapter + 1)
    by (vm_compute; discriminate).
  split; [exact H1|]. split; [exact H2|]. split; [exact H3|].
  destruct (SeriesSet.At leaving_adapter (snd sample_loaded)) as [[ls chks0]|] eqn:Hat;
    [|vm_compute in Hat; discriminate].
  assert (Hlen : (0 < s_len chks0)%nat).
  { vm_compute in Hat. inversion Hat; subst. vm_compute. lia. }
  assert (Hbefore : read_chunk (snd sample_loaded) chks0 0 <> zeroAggrChunk).
  { vm_compute in Hat. inversion Hat; subst. vm_compute. discriminate. }
  destruct (At_is_invalidated_by_Next leaving_adapter (snd sample_loaded) H1 H2 H3)
    as (cs & w1 & Hrel & _ & _ & _ & Hzero).
  exists ls, chks0, cs, w1.
  split; [reflexivity|]. split; [exact Hlen|]. split; [exact Hbefore|].
  split; [exact Hrel|].
  destruct (Hzero (SeriesSet.currOffset leaving_adapter) leaving_adapter ls chks0) as [_ Hch].
  - reflexivity.
  - vm_compute. split; [discriminate|reflexivity].
  - exact Hat.
  - apply Hch. exact Hlen.
Defined.
